(** * PyComputationalGraph: graph construction, ordering, propagation,
      gradient checking.

    A shallow embedding of [graph.py], [prop.py], [operations.py] and
    [grad_check.py].  Python objects with identity (nodes, numpy arrays that
    are updated in place) live in explicit stores and are addressed by
    their index; dictionaries whose iteration order the code relies on are
    association lists; tables that are only looked up are [gmap]s. *)

From stdpp Require Import base option list gmap strings.
From Stdlib Require Import ZArith Lia.

(** ** Outcomes of a Python call *)

(** The exceptions the code raises explicitly carry the name the
    specification gives them; the others are Python's own. *)
Inductive exn :=
  | DuplicateNode      (* Exception('node name ... already in use') *)
  | ArityMismatch      (* Exception('Inputs do not match ...') *)
  | NoInputNodes       (* assert in topological_sort *)
  | MissingParameter   (* Exception('missing value for parameter ...') *)
  | NoForwardPass      (* Exception('no output_table ...') *)
  | ShapeMismatch      (* assert in gradient_check *)
  | NonScalarOutput    (* assert in forward_flattened *)
  | AssertionError     (* the debugging assert of build_grad *)
  | KeyError
  | AttributeError
  | TypeError
  | ValueError
  | IndexError.

(** [OutOfFuel] is the outcome of a loop or recursion of the model that
    was cut before the Python code would have stopped. *)
Inductive result (A : Type) :=
  | Ok (a : A)
  | Raise (e : exn)
  | OutOfFuel.
Arguments Ok {A} a.
Arguments Raise {A} e.
Arguments OutOfFuel {A}.

Definition rbind {A B} (m : result A) (f : A → result B) : result B :=
  match m with
  | Ok a => f a
  | Raise e => Raise e
  | OutOfFuel => OutOfFuel
  end.

Notation "'let!' p ':=' m 'in' k" := (rbind m (λ p, k))
  (at level 10, p pattern, m at level 100, k at level 200, only parsing).

(** [o ?! e]: the value of a lookup, or exception [e] when it is absent. *)
Definition or_raise {A} (o : option A) (e : exn) : result A :=
  match o with Some a => Ok a | None => Raise e end.
Infix "?!" := or_raise (at level 60).

(** [for x in l: st = f st x], stopping at the first exception. *)
Fixpoint foldM {A S} (f : S → A → result S) (st : S) (l : list A) : result S :=
  match l with
  | [] => Ok st
  | x :: l' => let! st' := f st x in foldM f st' l'
  end.

(** [[f x for x in l]], stopping at the first exception. *)
Fixpoint mapM_r {A B} (f : A → result B) (l : list A) : result (list B) :=
  match l with
  | [] => Ok []
  | x :: l' => let! y := f x in let! ys := mapM_r f l' in Ok (y :: ys)
  end.

(** ** Ordered dictionaries *)

(** A Python [dict] with string keys: insertion order is kept, assigning
    an existing key replaces the value in place. *)
Section Dict.
Context {V : Type}.

Fixpoint dict_get (k : string) (d : list (string * V)) : option V :=
  match d with
  | [] => None
  | (k', v) :: d' => if decide (k = k') then Some v else dict_get k d'
  end.

Fixpoint dict_set (k : string) (v : V) (d : list (string * V)) : list (string * V) :=
  match d with
  | [] => [(k, v)]
  | (k', v') :: d' =>
      if decide (k = k') then (k, v) :: d' else (k', v') :: dict_set k v d'
  end.

Definition dict_mem (k : string) (d : list (string * V)) : bool :=
  bool_decide (is_Some (dict_get k d)).

Definition dict_keys (d : list (string * V)) : list string := d.*1.
Definition dict_values (d : list (string * V)) : list V := d.*2.

End Dict.
Abbreviation dict V := (list (string * V)).

(** ** Tensors *)

(** The scalars of a numpy array.  Floating-point arithmetic is not
    modelled: the development is parametric in the scalar type and its
    operations. *)
Class Scalar (R : Type) := {
  s_zero : R;
  s_one : R;
  s_add : R → R → R;
  s_sub : R → R → R;
  s_mul : R → R → R;
  s_div : R → R → R;
  s_neg : R → R;
  s_exp : R → R;
  s_sqrt : R → R;
}.

(** Integer scalars, to run the definitions on concrete inputs. *)
#[global] Instance Z_scalar : Scalar Z := {|
  s_zero := 0%Z;
  s_one := 1%Z;
  s_add := Z.add;
  s_sub := Z.sub;
  s_mul := Z.mul;
  s_div := Z.div;
  s_neg := Z.opp;
  s_exp := Z.pow 2;
  s_sqrt := Z.sqrt;
|}.

(** A numpy array: its shape and its elements in row-major (C) order. *)
Record Tensor (R : Type) := mkTensor { shape : list nat; data : list R }.
Arguments mkTensor {R} shape data.
Arguments shape {R} t.
Arguments data {R} t.

(** [size_from_shape] of grad_check.py: [size = 1; for d in shape: size = size * d]. *)
Definition size_from_shape (shape : list nat) : nat :=
  foldl (λ size d, size * d) 1 shape.

(** Every numpy array holds as many elements as its shape says. *)
Definition tensor_wf {R} (t : Tensor R) : Prop :=
  length (data t) = size_from_shape (shape t).

Section Flatten.
Context {R : Type}.
Implicit Types (t array : Tensor R) (arrays : list (Tensor R)).

(** [np.ndarray.flatten(np.asarray(array))]: a 1-D copy in row-major order. *)
Definition ndarray_flatten t : Tensor R :=
  mkTensor [length (data t)] (data t).

(** [np.concatenate] on a list of 1-D arrays; numpy refuses an empty
    list ("need at least one array to concatenate") and zero-dimensional
    members. *)
Definition np_concatenate (flat_list : list (Tensor R)) : result (Tensor R) :=
  match flat_list with
  | [] => Raise ValueError
  | _ =>
      if bool_decide (Forall (λ a, length (shape a) = 1) flat_list)
      then let elems := concat (data <$> flat_list) in
           Ok (mkTensor [length elems] elems)
      else Raise ValueError
  end.

Definition arrays_nd_array_1d arrays : result (Tensor R) :=
  let flat_list := ndarray_flatten <$> arrays in
  np_concatenate flat_list.

(** [array[lo:hi]]: numpy slices the first axis, with Python's clamping
    of the bounds to its extent, and keeps the other axes whole; a 0-d
    array cannot be indexed ("too many indices for array"). *)
Definition ndarray_slice array (lo hi : nat) : result (Tensor R) :=
  match shape array with
  | [] => Raise IndexError
  | d :: rest =>
      let row := size_from_shape rest in
      let start := lo `min` d in
      let stop := hi `min` d in
      Ok (mkTensor ((stop - start) :: rest)
                   (take ((stop - start) * row) (drop (start * row) (data array))))
  end.

(** [a.reshape(shape)]: the same elements under a shape of the same size. *)
Definition ndarray_reshape t (new_shape : list nat) : result (Tensor R) :=
  if decide (size_from_shape new_shape = length (data t))
  then Ok (mkTensor new_shape (data t))
  else Raise ValueError.

(** One iteration of the loop of [array_1d_arrays_nd]; the state is
    [(index, arrays_nd)]. *)
Definition array_1d_arrays_nd_step array (st : nat * list (Tensor R))
    (shape : list nat) : result (nat * list (Tensor R)) :=
  let '(index, arrays_nd) := st in
  let size := size_from_shape shape in
  let! flat_array := ndarray_slice array index (index + size) in
  let! reshaped := ndarray_reshape flat_array shape in
  Ok (index + size, arrays_nd ++ [reshaped]).

Definition array_1d_arrays_nd array (shapes : list (list nat))
    : result (list (Tensor R)) :=
  let! st := foldM (array_1d_arrays_nd_step array) (0, []) shapes in
  Ok st.2.

(** The round trip of the gradient checker: flatten, then split with
    the shapes of the original arrays. *)
Definition flatten_unflatten arrays : result (list (Tensor R)) :=
  let! flat := arrays_nd_array_1d arrays in
  array_1d_arrays_nd flat (shape <$> arrays).

End Flatten.


(** ** Nodes and operations (graph.py, operations.py) *)

(** A [Node] object is addressed by its index in the heap of nodes: two
    references are the same object exactly when the indices are equal. *)
Abbreviation node_id := nat.

(** An element of the [inputs] sequence given to [Graph.add]: a name or a
    node reference. *)
Inductive pyref :=
  | PStr (s : string)
  | PNode (n : node_id).

#[global] Instance pyref_eq_dec : EqDecision pyref.
Proof. solve_decision. Defined.

(** The operation classes of operations.py.  An [OpValue] instance has a
    mutable attribute [X]; [cell] identifies the instance, its [X] lives in
    the store of cells. *)
Inductive Op :=
  | OpValue (cell : nat)
  | OpSum
  | OpMatMul
  | OpDot
  | OpSigmoid.

Definition num_inputs (op : Op) : nat :=
  match op with
  | OpValue _ => 0
  | OpSum => 2
  | OpMatMul => 2
  | OpDot => 2
  | OpSigmoid => 1
  end.

Record Node := mkNode {
  name : string;
  op : Op;
  parents : list pyref;
  children : list node_id;
}.

(** [Node.__init__]: [parents] defaults to the empty list, [children]
    starts empty. *)
Definition Node_init (name : string) (op : Op) (parents : option (list pyref)) : Node :=
  mkNode name op (default [] parents) [].

Abbreviation heap := (list Node).

Definition node_name (h : heap) (n : node_id) : string :=
  default ""%string (name <$> h !! n).
Definition node_parents (h : heap) (n : node_id) : list pyref :=
  default [] (parents <$> h !! n).
Definition node_children (h : heap) (n : node_id) : list node_id :=
  default [] (children <$> h !! n).

(** [p.children.append(node)]; a string has no attribute [children]. *)
Definition children_append (node : node_id) (n : Node) : Node :=
  mkNode (name n) (op n) (parents n) (children n ++ [node]).

Definition append_child (node : node_id) (h : heap) (p : pyref) : result heap :=
  match p with
  | PNode i => Ok (alter (children_append node) i h)
  | PStr _ => Raise AttributeError
  end.

Definition update_children (nodes : list node_id) (h : heap) : result heap :=
  foldM (λ h node, foldM (append_child node) h (node_parents h node)) h nodes.

(** [l.remove(x)]: drops the first occurrence. *)
Fixpoint list_remove (x : node_id) (l : list node_id) : list node_id :=
  match l with
  | [] => []
  | y :: l' => if decide (x = y) then l' else y :: list_remove x l'
  end.

(** The body of [for n in unsorted_internal_nodes]: a node is a sink when
    none of its children is still unsorted. *)
Definition is_sink (h : heap) (n : node_id) (unsorted_internal_nodes : list node_id) : bool :=
  forallb (λ c, negb (bool_decide (c ∈ unsorted_internal_nodes))) (node_children h n).

(** The [for] loop of [topological_sort] iterates over the list it
    removes from.  Python's list iterator keeps a position [i] and stops
    when [i] reaches the current length, so after a removal the element
    that slid into position [i] is skipped in this pass.  [k] bounds the
    number of iterations; the length of the list at the start is always
    enough. *)
Fixpoint sink_scan (h : heap) (k i : nat) (unsorted_internal_nodes internal_nodes : list node_id)
    : list node_id * list node_id :=
  match k with
  | 0 => (unsorted_internal_nodes, internal_nodes)
  | S k' =>
      match unsorted_internal_nodes !! i with
      | None => (unsorted_internal_nodes, internal_nodes)
      | Some n =>
          if is_sink h n unsorted_internal_nodes
          then sink_scan h k' (S i) (list_remove n unsorted_internal_nodes)
                         (internal_nodes ++ [n])
          else sink_scan h k' (S i) unsorted_internal_nodes internal_nodes
      end
  end.

(** [while len(unsorted_internal_nodes) > 0]. *)
Fixpoint sink_loop (fuel : nat) (h : heap) (unsorted_internal_nodes internal_nodes : list node_id)
    : result (list node_id) :=
  match unsorted_internal_nodes with
  | [] => Ok internal_nodes
  | _ :: _ =>
      match fuel with
      | 0 => OutOfFuel
      | S fuel' =>
          let '(unsorted', internal') :=
            sink_scan h (length unsorted_internal_nodes) 0
                      unsorted_internal_nodes internal_nodes in
          sink_loop fuel' h unsorted' internal'
      end
  end.

Definition topological_sort (fuel : nat) (h : heap) (nodes : list node_id)
    : result (list node_id * list node_id) :=
  let parameter_nodes := filter (λ n, length (node_parents h n) = 0) nodes in
  if decide (0 < length parameter_nodes) then
    let unsorted_internal_nodes := filter (λ n, n ∉ parameter_nodes) nodes in
    let! internal_nodes := sink_loop fuel h unsorted_internal_nodes [] in
    Ok (parameter_nodes, reverse internal_nodes)
  else Raise NoInputNodes.

(** ** The graph (graph.py) *)

Record Graph (R : Type) := mkGraph {
  graph_name : string;
  nodes : dict node_id;
  parameter_nodes : option (list node_id);
  output_table : option (gmap string (Tensor R));
}.
Arguments mkGraph {R} graph_name nodes parameter_nodes output_table.
Arguments graph_name {R} g.
Arguments nodes {R} g.
Arguments parameter_nodes {R} g.
Arguments output_table {R} g.

Definition Graph_init {R} (name : string) : Graph R := mkGraph name [] None None.

(** [self.nodes[n]] for an element [n] of [inputs]: the keys are names, so
    a node reference is never found. *)
Definition lookup_input (nodes : dict node_id) (n : pyref) : result pyref :=
  match n with
  | PStr s => (PNode <$> dict_get s nodes) ?! KeyError
  | PNode _ => Raise KeyError
  end.

Definition inputs_match (op : Op) (inputs : option (list pyref)) : bool :=
  match inputs with
  | None => bool_decide (num_inputs op = 0)
  | Some l => bool_decide (num_inputs op = length l)
  end.

(** The parents given to [Node]: looked up by name when the first element
    of [inputs] is a string, the sequence itself otherwise. *)
Definition collect_parents (nodes : dict node_id) (inputs : option (list pyref))
    : result (option (list pyref)) :=
  match inputs with
  | None => Ok None
  | Some l =>
      match l with
      | PStr _ :: _ => let! input_nodes := mapM_r (lookup_input nodes) l in Ok (Some input_nodes)
      | _ => Ok (Some l)
      end
  end.

(** [Graph.add]: returns the heap with the new node, the graph with the
    node registered, and the reference to the node. *)
Definition Graph_add {R} (g : Graph R) (h : heap) (op : Op) (name : string)
    (inputs : option (list pyref)) : result (heap * Graph R * node_id) :=
  if dict_mem name (nodes g) then Raise DuplicateNode
  else if negb (inputs_match op inputs) then Raise ArityMismatch
  else
    let! input_nodes := collect_parents (nodes g) inputs in
    let node := length h in
    Ok (h ++ [Node_init name op input_nodes],
        mkGraph (graph_name g) (dict_set name node (nodes g))
                (parameter_nodes g) (output_table g),
        node).

(** [{n.name: n for n in ns}] and [for n in ns: d[n.name] = n]. *)
Definition dict_by_name (h : heap) (d : dict node_id) (ns : list node_id) : dict node_id :=
  foldl (λ d n, dict_set (node_name h n) n d) d ns.

(** [Graph.done]. *)
Definition Graph_done {R} (fuel : nat) (g : Graph R) (h : heap) : result (heap * Graph R) :=
  let! h' := update_children (dict_values (nodes g)) h in
  let! (parameter_nodes, internal_nodes) :=
    topological_sort fuel h' (dict_values (nodes g)) in
  let nodes' := dict_by_name h' (dict_by_name h' [] parameter_nodes) internal_nodes in
  Ok (h', mkGraph (graph_name g) nodes' (Some parameter_nodes) (output_table g)).

(** The number of parents a call of [Graph.add] supplies, as the error
    message of [add] counts them: [0 if inputs is None else len(inputs)]. *)
Definition supplied_count (inputs : option (list pyref)) : nat :=
  match inputs with
  | None => 0
  | Some l => length l
  end.

(** The node an element of [inputs] names among the nodes added so far;
    a node reference is not a name. *)
Definition named_node (nodes : dict node_id) (r : pyref) : option node_id :=
  match r with
  | PStr s => dict_get s nodes
  | PNode _ => None
  end.

(** The graph after a successful [add] of a node stored at [node]. *)
Definition registered {R} (g : Graph R) (name : string) (node : node_id) : Graph R :=
  mkGraph (graph_name g) (dict_set name node (nodes g)) (parameter_nodes g) (output_table g).

(** ** Well-formed graphs *)

(** [p] refers to one of the nodes [ns]. *)
Definition parent_in (ns : list node_id) (p : pyref) : Prop :=
  match p with
  | PNode i => i ∈ ns
  | PStr _ => False
  end.

#[global] Instance parent_in_dec ns p : Decision (parent_in ns p).
Proof. destruct p; simpl; apply _. Defined.

(** A graph as [add] builds it: the keys are distinct and each is the
    name of the node it maps to, and the parents of its nodes are nodes
    of the graph. *)
Definition graph_wf {R} (g : Graph R) (h : heap) : Prop :=
  NoDup (dict_keys (nodes g)) ∧
  Forall (λ kn, name <$> h !! kn.2 = Some kn.1) (nodes g) ∧
  Forall (λ n, Forall (parent_in (dict_values (nodes g))) (node_parents h n))
         (dict_values (nodes g)).

#[global] Instance graph_wf_dec {R} (g : Graph R) h : Decision (graph_wf g h).
Proof. unfold graph_wf. apply _. Defined.

(** No child has been recorded yet: [done] has not run on these nodes. *)
Definition no_children (h : heap) (ns : list node_id) : Prop :=
  Forall (λ n, node_children h n = []) ns.

#[global] Instance no_children_dec h ns : Decision (no_children h ns).
Proof. unfold no_children. apply _. Defined.

(** [rank] witnesses that the parent links among [ns] have no cycle:
    every parent ranks below its child.  For nodes created one after the
    other with parents that already exist, the index of the node is such
    a rank. *)
Definition rank_lt (rank : node_id → nat) (n : node_id) (p : pyref) : Prop :=
  match p with
  | PNode i => rank i < rank n
  | PStr _ => True
  end.

#[global] Instance rank_lt_dec rank n p : Decision (rank_lt rank n p).
Proof. destruct p; simpl; apply _. Defined.

Definition ranked (rank : node_id → nat) (h : heap) (ns : list node_id) : Prop :=
  Forall (λ n, Forall (rank_lt rank n) (node_parents h n)) ns.

#[global] Instance ranked_dec rank h ns : Decision (ranked rank h ns).
Proof. unfold ranked. apply _. Defined.

(** The children [update_children] appends to node [p]: one for every
    parent slot of every node of [nodes] that holds [p], in the order of
    the two loops. *)
Definition slots_of (p : node_id) (node : node_id) (ps : list pyref) : list node_id :=
  concat ((λ q, if decide (q = PNode p) then [node] else []) <$> ps).

Definition children_added (h : heap) (nodes : list node_id) (p : node_id) : list node_id :=
  concat ((λ node, slots_of p node (node_parents h node)) <$> nodes).

Definition with_more_children (extra : list node_id) (n : Node) : Node :=
  mkNode (name n) (op n) (parents n) (children n ++ extra).

(** [before l a b]: some occurrence of [a] in [l] comes before position
    [j] whenever [b] sits at position [j]. *)
Definition before (l : list node_id) (a b : node_id) : Prop :=
  ∀ j, l !! j = Some b → ∃ i, i < j ∧ l !! i = Some a.

(** ** Invariant of the sort loop *)

(** In [l], every node comes after those of its children that belong to
    [N]. *)
Definition children_first (h : heap) (N l : list node_id) : Prop :=
  ∀ j n c, l !! j = Some n → c ∈ node_children h n → c ∈ N →
           ∃ i, i < j ∧ l !! i = Some c.

(** The loop of [topological_sort] moves the nodes [N] one by one from
    [unsorted] to [internal], a node only after its children. *)
Definition sort_inv (h : heap) (N unsorted internal : list node_id) : Prop :=
  unsorted ++ internal ≡ₚ N ∧ children_first h N internal.

(** ** A diamond: A feeds B and C, which both feed D *)

Definition diamond_heap : heap :=
  [ mkNode "A" (OpValue 0) [] [];
    mkNode "B" OpSigmoid [PNode 0] [];
    mkNode "C" OpSigmoid [PNode 0] [];
    mkNode "D" OpSum [PNode 1; PNode 2] [] ].

Definition diamond_graph : Graph Z :=
  mkGraph "diamond" [("A", 0); ("B", 1); ("C", 2); ("D", 3)] None None.

(** ** The numpy operations the code calls *)

Section Numpy.
Context {R : Type} `{!Scalar R}.
Implicit Types (A B grad : Tensor R).

(** Broadcasting of two shapes, aligned at the last axis: equal extents,
    or one of them 1.  The shapes are given last axis first. *)
Fixpoint broadcast_rev (r1 r2 : list nat) : option (list nat) :=
  match r1, r2 with
  | [], r => Some r
  | r, [] => Some r
  | a :: r1', b :: r2' =>
      d ← (if decide (a = b) then Some a
           else if decide (a = 1) then Some b
           else if decide (b = 1) then Some a
           else None);
      r ← broadcast_rev r1' r2';
      Some (d :: r)
  end.

Definition broadcast_shapes (s1 s2 : list nat) : option (list nat) :=
  reverse <$> broadcast_rev (reverse s1) (reverse s2).

(** The first [n] consecutive blocks of [sz] elements. *)
Fixpoint chunks (n sz : nat) (d : list R) : list (list R) :=
  match n with
  | 0 => []
  | S n' => take sz d :: chunks n' sz (drop sz d)
  end.

(** The elements of an array of shape [s] seen under shape [t], where [s]
    has the rank of [t] and each extent of [s] is that of [t] or 1. *)
Fixpoint broadcast_to_data (s t : list nat) (d : list R) : list R :=
  match s, t with
  | a :: s', b :: t' =>
      let parts := broadcast_to_data s' t' <$> chunks a (size_from_shape s') d in
      if decide (a = b) then concat parts
      else concat (replicate b (concat parts))
  | _, _ => d
  end.

Definition pad_shape (rank : nat) (s : list nat) : list nat :=
  replicate (rank - length s) 1 ++ s.

(** An elementwise binary operation with broadcasting; shapes that do
    not broadcast raise [ValueError]. *)
Definition np_elementwise (f : R → R → R) A B : result (Tensor R) :=
  match broadcast_shapes (shape A) (shape B) with
  | None => Raise ValueError
  | Some t =>
      let a := broadcast_to_data (pad_shape (length t) (shape A)) t (data A) in
      let b := broadcast_to_data (pad_shape (length t) (shape B)) t (data B) in
      Ok (mkTensor t (zip_with f a b))
  end.

Definition np_add := np_elementwise s_add.
Definition np_mul := np_elementwise s_mul.

(** An operation between a Python float and an array: the shape of the
    array is kept. *)
Definition np_map (f : R → R) A : Tensor R :=
  mkTensor (shape A) (f <$> data A).

(** [np.ones(shape)]. *)
Definition np_ones (shape : list nat) : Tensor R :=
  mkTensor shape (replicate (size_from_shape shape) s_one).

(** [A.T]: the axes in reverse order.  For a first axis of extent [a]
    the transposed blocks are interleaved element by element. *)
Definition interleave (len : nat) (blocks : list (list R)) : list R :=
  concat ((λ k, omap (λ l, l !! k) blocks) <$> seq 0 len).

Fixpoint transpose_data (s : list nat) (d : list R) : list R :=
  match s with
  | [] => d
  | a :: s' =>
      interleave (size_from_shape s')
                 (transpose_data s' <$> chunks a (size_from_shape s') d)
  end.

Definition np_T A : Tensor R :=
  mkTensor (reverse (shape A)) (transpose_data (shape A) (data A)).

Definition inner (u v : list R) : R :=
  foldl s_add s_zero (zip_with s_mul u v).

(** The product of an [n×m] by an [m×k] matrix, both row-major. *)
Definition matrix_product (n m k : nat) (a b : list R) : list R :=
  let rows := chunks n m a in
  let cols := chunks k m (transpose_data [m; k] b) in
  concat ((λ row, (λ col, inner row col) <$> cols) <$> rows).

(** The two last extents of a shape of rank at least 2, and the rest. *)
Definition split_matrix (s : list nat) : list nat * nat * nat :=
  let batch := take (length s - 2) s in
  match drop (length s - 2) s with
  | [n; m] => (batch, n, m)
  | _ => (batch, 0, 0)
  end.

(** [np.matmul]: stacks of matrices with broadcast batch axes; a 1-D
    operand is a row (left) or a column (right) whose added axis is
    dropped from the result; scalars are refused. *)
Definition np_matmul A B : result (Tensor R) :=
  match shape A, shape B with
  | [], _ => Raise ValueError
  | _, [] => Raise ValueError
  | sa, sb =>
      let sa' := match sa with [m] => [1; m] | _ => sa end in
      let sb' := match sb with [m] => [m; 1] | _ => sb end in
      let '(ba, n, m) := split_matrix sa' in
      let '(bb, m', k) := split_matrix sb' in
      if decide (m = m') then
        match broadcast_shapes ba bb with
        | None => Raise ValueError
        | Some t =>
            let a := broadcast_to_data (pad_shape (length t) ba ++ [n; m])
                                       (t ++ [n; m]) (data A) in
            let b := broadcast_to_data (pad_shape (length t) bb ++ [m; k])
                                       (t ++ [m; k]) (data B) in
            let products :=
              zip_with (matrix_product n m k)
                       (chunks (size_from_shape t) (n * m) a)
                       (chunks (size_from_shape t) (m * k) b) in
            let rows := match sa with [_] => [] | _ => [n] end in
            let cols := match sb with [_] => [] | _ => [k] end in
            Ok (mkTensor (t ++ rows ++ cols) (concat products))
        end
      else Raise ValueError
  end.

(** [np.dot]: a product by a scalar when an operand is 0-D; otherwise the
    sum of products over the last axis of [A] and the last axis (1-D [B])
    or the second-to-last axis of [B]. *)
Definition np_dot A B : result (Tensor R) :=
  match shape A, shape B with
  | [], _ => np_mul A B
  | _, [] => np_mul A B
  | sa, sb =>
      let m := default 0 (last sa) in
      let lead := take (length sa - 1) sa in
      let sb' := match sb with [m'] => [m'; 1] | _ => sb end in
      let '(bb, m', k) := split_matrix sb' in
      if decide (m = m') then
        let rows := chunks (size_from_shape lead) m (data A) in
        let mats := chunks (size_from_shape bb) (m * k) (data B) in
        let cols := match sb with [_] => [] | _ => [k] end in
        Ok (mkTensor (lead ++ bb ++ cols)
              (concat ((λ row, concat (matrix_product 1 m k row <$> mats)) <$> rows)))
      else Raise ValueError
  end.
End Numpy.

(** ** Operations (operations.py) *)

Definition node_op (h : heap) (n : node_id) : Op :=
  default (OpValue 0) (op <$> h !! n).

Section Propagation.
Context {R : Type} `{!Scalar R}.
Implicit Types (A B grad : Tensor R).
Implicit Types (cells : gmap nat (Tensor R)).
Implicit Types (output_table output_grad_table : gmap string (Tensor R)).
Implicit Types (parameter_grad_table : gmap string (list (Tensor R))).

(** [1. / (1. + np.exp(-A))]. *)
Definition sigmoid A : Tensor R :=
  np_map (s_div s_one) (np_map (s_add s_one) (np_map s_exp (np_map s_neg A))).

(** [op.assign(X)]: only [OpValue] has the method. *)
Definition op_assign cells (op : Op) (X : Tensor R) : result (gmap nat (Tensor R)) :=
  match op with
  | OpValue c => Ok (<[c := X]> cells)
  | _ => Raise AttributeError
  end.

(** [op.forward] on the argument list; a wrong number of arguments is a [TypeError],
    an [OpValue] never assigned has no attribute [X]. *)
Definition op_forward cells (op : Op) (args : list (Tensor R)) : result (Tensor R) :=
  match op, args with
  | OpValue c, [] => (cells !! c) ?! AttributeError
  | OpSum, [A; B] => np_add A B
  | OpMatMul, [A; B] => np_matmul A B
  | OpDot, [A; B] => np_dot A B
  | OpSigmoid, [A] => Ok (sigmoid A)
  | _, _ => Raise TypeError
  end.

(** [op.backward] on [grad] and the argument list; [OpValue] has no such
    method. *)
Definition op_backward (op : Op) grad (args : list (Tensor R)) : result (list (Tensor R)) :=
  match op, args with
  | OpValue _, _ => Raise AttributeError
  | OpSum, [A; B] =>
      let dA := grad in
      let dB := grad in
      Ok [dA; dB]
  | OpMatMul, [A; B] =>
      let! dA := np_matmul grad (np_T B) in
      let! dB := np_matmul (np_T A) grad in
      Ok [dA; dB]
  | OpDot, [A; B] =>
      let! dA := np_dot grad (np_T B) in
      let! dB := np_dot (np_T A) grad in
      Ok [dA; dB]
  | OpSigmoid, [A] =>
      let sig := sigmoid A in
      let! sig_1_sig := np_mul sig (np_map (s_sub s_one) sig) in
      let! dA := np_mul sig_1_sig grad in
      Ok [dA]
  | _, _ => Raise TypeError
  end.

(** ** Forward propagation (prop.py) *)

(** [output_table[p.name]] for a parent [p]. *)
Definition parent_activation (h : heap) output_table (p : pyref) : result (Tensor R) :=
  match p with
  | PNode i => (output_table !! node_name h i) ?! KeyError
  | PStr _ => Raise AttributeError
  end.

(** [nodes[name].op.assign(tensor)]. *)
Definition assign_parameter (nodes : dict node_id) (h : heap) cells
    (entry : string * Tensor R) : result (gmap nat (Tensor R)) :=
  let '(name, tensor) := entry in
  let! node := dict_get name nodes ?! KeyError in
  op_assign cells (node_op h node) tensor.

(** One iteration of the propagation loop of [prop]. *)
Definition prop_step (h : heap) cells output_table (entry : string * node_id)
    : result (gmap string (Tensor R)) :=
  let '(name, node) := entry in
  let! args := mapM_r (parent_activation h output_table) (node_parents h node) in
  let! activation := op_forward cells (node_op h node) args in
  Ok (<[node_name h node := activation]> output_table).

Definition prop (nodes : dict node_id) (h : heap) cells (parameter_table : dict (Tensor R))
    : result (Tensor R * gmap string (Tensor R) * gmap nat (Tensor R)) :=
  let! cells' := foldM (assign_parameter nodes h) cells parameter_table in
  let! output_table := foldM (prop_step h cells') ∅ nodes in
  let! last_key := last (dict_keys nodes) ?! IndexError in
  let! output := (output_table !! last_key) ?! KeyError in
  Ok (output, output_table, cells').

(** [Graph.forward]: the check of the parameters, then [prop]. *)
Definition check_parameter (h : heap) (parameter_table : dict (Tensor R))
    (_ : unit) (i : node_id) : result unit :=
  if dict_mem (node_name h i) parameter_table then Ok ()
  else Raise MissingParameter.

Definition Graph_forward (g : Graph R) (h : heap) cells (parameter_table : dict (Tensor R))
    : result (Tensor R * gmap string (Tensor R) * Graph R * gmap nat (Tensor R)) :=
  let! parameter_nodes := parameter_nodes g ?! TypeError in
  let! _ := foldM (check_parameter h parameter_table) () parameter_nodes in
  let! (output, output_table, cells') := prop (nodes g) h cells parameter_table in
  Ok (output, output_table,
      mkGraph (graph_name g) (nodes g) (Some parameter_nodes) (Some output_table),
      cells').

(** ** Backpropagation (prop.py) *)

(** [l.index(x)]: the first position that holds [x]. *)
Fixpoint list_index (x : pyref) (l : list pyref) : option nat :=
  match l with
  | [] => None
  | y :: l' => if decide (x = y) then Some 0 else S <$> list_index x l'
  end.

(** [reduce((lambda x, y: x + y), l)]. *)
Definition reduce_add (l : list (Tensor R)) : result (Tensor R) :=
  match l with
  | [] => Raise TypeError
  | x :: l' => foldM np_add x l'
  end.

(** The state of [build_grad]: the list [consumer_gradients] being
    built, and the two tables it shares with its recursive calls. *)
Definition grad_tables : Type :=
  gmap string (list (Tensor R)) * gmap string (Tensor R).

(** The body of [for consumer_node in node.consumers()]; [rec] is the
    recursive call of [build_grad]. *)
Definition consumer_step (rec : node_id → grad_tables → result (Tensor R * grad_tables))
    (h : heap) output_table (node : node_id)
    (st : list (Tensor R) * grad_tables) (consumer_node : node_id)
    : result (list (Tensor R) * grad_tables) :=
  let '(consumer_gradients, (parameter_grad_table, output_grad_table)) := st in
  let! parameter_index :=
    list_index (PNode node) (node_parents h consumer_node) ?! ValueError in
  match parameter_grad_table !! node_name h consumer_node with
  | Some gradients =>
      let! g := (gradients !! parameter_index) ?! IndexError in
      Ok (consumer_gradients ++ [g], (parameter_grad_table, output_grad_table))
  | None =>
      let! consumer_parameter_activations :=
        mapM_r (parent_activation h output_table) (node_parents h consumer_node) in
      let! (consumer_output_gradient, tables) :=
        rec consumer_node (parameter_grad_table, output_grad_table) in
      let! consumer_parameter_gradients :=
        op_backward (node_op h consumer_node) consumer_output_gradient
                    consumer_parameter_activations in
      let parameter_grad_table' :=
        <[node_name h consumer_node := consumer_parameter_gradients]> tables.1 in
      match consumer_parameter_gradients !! parameter_index with
      | Some g => Ok (consumer_gradients ++ [g], (parameter_grad_table', tables.2))
      | None => Raise AssertionError
      end
  end.

Fixpoint build_grad (fuel : nat) (h : heap) output_table (node : node_id)
    (tables : grad_tables) : result (Tensor R * grad_tables) :=
  match fuel with
  | 0 => OutOfFuel
  | S fuel' =>
      match tables.2 !! node_name h node with
      | Some g => Ok (g, tables)
      | None =>
          let! (consumer_gradients, tables') :=
            foldM (consumer_step (build_grad fuel' h output_table) h output_table node)
                  ([], tables) (node_children h node) in
          let! consumer_gradients_sum := reduce_add consumer_gradients in
          Ok (consumer_gradients_sum,
              (tables'.1, <[node_name h node := consumer_gradients_sum]> tables'.2))
      end
  end.

(** [output_grad_table[n.name] = np.ones(output_table[n.name].shape)]. *)
Definition seed_sink (h : heap) output_table output_grad_table (n : node_id)
    : result (gmap string (Tensor R)) :=
  let! activation := (output_table !! node_name h n) ?! KeyError in
  Ok (<[node_name h n := np_ones (shape activation)]> output_grad_table).

(** The body of [for node in nodes]: the call of [build_grad], whose
    result is dropped. *)
Definition build_grad_each (fuel : nat) (h : heap) output_table
    (tables : grad_tables) (node : node_id) : result grad_tables :=
  let! r := build_grad fuel h output_table node tables in
  Ok r.2.

Definition backprop (fuel : nat) (h : heap) (nodes : list node_id) output_table
    : result (gmap string (Tensor R)) :=
  let sinks := filter (λ n, length (node_children h n) = 0) nodes in
  let! output_grad_table := foldM (seed_sink h output_table) ∅ sinks in
  let! tables :=
    foldM (build_grad_each fuel h output_table) (∅, output_grad_table) nodes in
  Ok tables.2.

(** [Graph.backward]. *)
Definition Graph_backward (fuel : nat) (g : Graph R) (h : heap)
    : result (gmap string (Tensor R)) :=
  match output_table g with
  | None => Raise NoForwardPass
  | Some output_table => backprop fuel h (dict_values (nodes g)) output_table
  end.
End Propagation.

(** [raises_only P r]: the call returned, or raised an exception among
    [P]; it was not cut for lack of fuel. *)
Definition raises_only {A} (P : exn → Prop) (r : result A) : Prop :=
  match r with
  | Ok _ => True
  | Raise e => P e
  | OutOfFuel => False
  end.

(** The exceptions of a failed lookup or attribute access. *)
Definition lookup_error (e : exn) : Prop := e = KeyError ∨ e = AttributeError.

(** ** A graph with the single parameter node X *)

Definition single_heap : heap := [mkNode "X" (OpValue 0) [] []].

Definition single_graph : Graph Z := mkGraph "single" [("X", 0)] None None.

(** ** What backpropagation computes *)

Section BackpropSpec.
Context {R : Type} `{!Scalar R}.
Variable h : heap.
Variable output_table : gmap string (Tensor R).
Implicit Types (grad_table : gmap string (Tensor R)).
Implicit Types (parameter_grad_table : gmap string (list (Tensor R))).

(** The gradients consumer [c] back-propagates to its inputs: its
    backward rule on its own gradient and the activations of its
    parents. *)
Definition backward_of grad_table (c : node_id) : result (list (Tensor R)) :=
  let! gradient := (grad_table !! node_name h c) ?! KeyError in
  let! activations := mapM_r (parent_activation h output_table) (node_parents h c) in
  op_backward (node_op h c) gradient activations.

(** The component of a list of input gradients of [c] that belongs to
    [node]: the one at the first position of [node] among the parents of
    [c]. *)
Definition component_for (node c : node_id) (gradients : list (Tensor R))
    : result (Tensor R) :=
  let! parameter_index := list_index (PNode node) (node_parents h c) ?! ValueError in
  (gradients !! parameter_index) ?! IndexError.

(** The component consumer [c] back-propagates to [node], and the sum of
    these components over the consumers of [node], in the order of its
    list of children. *)
Definition contribution grad_table (node c : node_id) : result (Tensor R) :=
  let! gradients := backward_of grad_table c in
  component_for node c gradients.

Definition consumers_sum grad_table (node : node_id) : result (Tensor R) :=
  let! consumer_gradients :=
    mapM_r (contribution grad_table node) (node_children h node) in
  reduce_add consumer_gradients.

(** The same sum, read from the cache of input gradients. *)
Definition cached_component parameter_grad_table (node c : node_id) : result (Tensor R) :=
  let! gradients := (parameter_grad_table !! node_name h c) ?! KeyError in
  component_for node c gradients.

Definition cached_sum parameter_grad_table (node : node_id) : result (Tensor R) :=
  let! consumer_gradients :=
    mapM_r (cached_component parameter_grad_table node) (node_children h node) in
  reduce_add consumer_gradients.

(** The two tables of [build_grad] are consistent over the nodes [ns]:
    a cached list of input gradients is what the backward rule of the node
    gives on its recorded gradient; a recorded gradient of a node with
    consumers is the sum of the cached components of its consumers; and
    only nodes of [ns] have a recorded gradient. *)
Definition tables_inv (ns : list node_id)
    (tables : gmap string (list (Tensor R)) * gmap string (Tensor R)) : Prop :=
  (∀ c gradients, c ∈ ns → tables.1 !! node_name h c = Some gradients →
                  backward_of tables.2 c = Ok gradients) ∧
  (∀ n g, n ∈ ns → tables.2 !! node_name h n = Some g →
          node_children h n = [] ∨ cached_sum tables.1 n = Ok g) ∧
  (∀ k, is_Some (tables.2 !! k) → k ∈ node_name h <$> ns).

(** Entries are added, never changed. *)
Definition tables_grow
    (t t' : gmap string (list (Tensor R)) * gmap string (Tensor R)) : Prop :=
  t.1 ⊆ t'.1 ∧ t.2 ⊆ t'.2.

(** A call on a node of rank [r] leaves alone the recorded gradients of
    the nodes of [ns] ranked below [r] and the cached input gradients of
    those ranked up to [r]. *)
Definition tables_frame (rank : node_id → nat) (ns : list node_id) (r : nat)
    (t t' : gmap string (list (Tensor R)) * gmap string (Tensor R)) : Prop :=
  (∀ m, m ∈ ns → rank m < r → t'.2 !! node_name h m = t.2 !! node_name h m) ∧
  (∀ m, m ∈ ns → rank m ≤ r → t'.1 !! node_name h m = t.1 !! node_name h m).

(** The nodes [ns] after [done], as backpropagation needs them: distinct
    names, children among [ns] and ranked above their parent. *)
Definition backprop_wf (rank : node_id → nat) (ns : list node_id) : Prop :=
  NoDup (node_name h <$> ns) ∧
  Forall (λ n, Forall (λ c, c ∈ ns ∧ rank n < rank c) (node_children h n)) ns.
End BackpropSpec.

#[global] Instance backprop_wf_dec h rank ns : Decision (backprop_wf h rank ns).
Proof. unfold backprop_wf. apply _. Defined.

(** What a call [rec c t] of [build_grad] on a node [c] of [ns] leaves
    behind when it returns [(g, t')]. *)
Definition build_grad_post {R} `{!Scalar R} (h : heap)
    (output_table : gmap string (Tensor R)) (rank : node_id → nat) (ns : list node_id)
    (rec : node_id → gmap string (list (Tensor R)) * gmap string (Tensor R) →
           result (Tensor R * (gmap string (list (Tensor R)) * gmap string (Tensor R))))
    : Prop :=
  ∀ c t g t', c ∈ ns → tables_inv h output_table ns t → rec c t = Ok (g, t') →
    tables_inv h output_table ns t' ∧ tables_grow t t' ∧
    t'.2 !! node_name h c = Some g ∧ tables_frame h rank ns (rank c) t t'.

(** ** Notions used to state how the graph functions behave *)

(** A parent that is a node object, not a name left as a string. *)
Definition is_node_ref (p : pyref) : Prop :=
  match p with
  | PNode _ => True
  | PStr _ => False
  end.

#[global] Instance is_node_ref_dec p : Decision (is_node_ref p).
Proof. destruct p; simpl; apply _. Defined.

(** How often [node] stands in a list of children, and how many parent
    slots of a node hold [p]. *)
Definition occurrences (c : node_id) (l : list node_id) : nat :=
  count_occ Nat.eq_dec l c.

Definition slots (p : node_id) (parents : list pyref) : nat :=
  count_occ pyref_eq_dec parents (PNode p).

(** ** The gradient of a node in the words of the specification *)

Section GradientSum.
Context {R : Type} `{!Scalar R}.



End GradientSum.

(** The list of children of [node] holds its consumers among [ns], once
    for every input slot that takes [node] (as [done] leaves it), and no
    consumer takes [node] in two slots. *)
Definition consumed_once (h : heap) (ns : list node_id) (node : node_id) : Prop :=
  Forall (λ c, occurrences c (node_children h node) = slots node (node_parents h c) ∧
               slots node (node_parents h c) ≤ 1) ns.

#[global] Instance consumed_once_dec h ns node : Decision (consumed_once h ns node).
Proof. unfold consumed_once. apply _. Defined.

(** A graph with one node that takes the same parent in both slots. *)
Definition square_heap : heap :=
  [ mkNode "a" (OpValue 0) [] [];
    mkNode "m" OpMatMul [PNode 0; PNode 0] [] ].


(** A graph under construction: well-formed, no child recorded yet, and
    every parent allocated before its child (so the index of a node
    ranks it above its parents). *)
Definition under_construction {R} (g : Graph R) (h : heap) : Prop :=
  graph_wf g h ∧
  no_children h (dict_values (nodes g)) ∧
  ranked (λ n, n) h (dict_values (nodes g)).

#[global] Instance under_construction_dec {R} (g : Graph R) h :
  Decision (under_construction g h).
Proof. unfold under_construction. apply _. Defined.

(** The parents handed to [add] as node objects are nodes of the graph
    (names are looked up in the graph anyway). *)
Definition inputs_in_graph {R} (g : Graph R) (inputs : option (list pyref)) : Prop :=
  match inputs with
  | Some (PNode i :: rest) => Forall (parent_in (dict_values (nodes g))) (PNode i :: rest)
  | _ => True
  end.

#[global] Instance inputs_in_graph_dec {R} (g : Graph R) inputs :
  Decision (inputs_in_graph g inputs).
Proof. destruct inputs as [[|[s|i] rest]|]; simpl; apply _. Defined.

(** A script of calls of [add] on one graph, as main.py has it; the
    references the calls return are dropped, parents are named. *)
Definition Graph_add_each {R} (st : heap * Graph R)
    (call : Op * string * option (list pyref)) : result (heap * Graph R) :=
  let '(op, name, inputs) := call in
  let! r := Graph_add st.2 st.1 op name inputs in
  Ok (r.1.1, r.1.2).

Definition Graph_add_all {R} (h : heap) (g : Graph R)
    (calls : list (Op * string * option (list pyref))) : result (heap * Graph R) :=
  foldM Graph_add_each (h, g) calls.

(** The parents of a call are all given by name. *)
Definition by_name (call : Op * string * option (list pyref)) : Prop :=
  match call.2 with
  | Some l => Forall (λ p, ¬ is_node_ref p) l
  | None => True
  end.

#[global] Instance by_name_dec call : Decision (by_name call).
Proof. unfold by_name. destruct (call.2); apply _. Defined.

(** ** What forward propagation computes *)

(** The activation of a node: its operation on the activations of its
    parents, read from the table. *)
Definition activation_of {R} `{!Scalar R} (h : heap) (cells : gmap nat (Tensor R))
    (output_table : gmap string (Tensor R)) (n : node_id) : result (Tensor R) :=
  let! args := mapM_r (parent_activation h output_table) (node_parents h n) in
  op_forward cells (node_op h n) args.

(** The table built over the nodes [ns]: exactly their names are
    filled, each with the activation of its node. *)
Definition activations_inv {R} `{!Scalar R} (h : heap) (cells : gmap nat (Tensor R))
    (ns : list node_id) (output_table : gmap string (Tensor R)) : Prop :=
  (∀ k, is_Some (output_table !! k) ↔ k ∈ node_name h <$> ns) ∧
  (∀ n, n ∈ ns → ∃ v, output_table !! node_name h n = Some v ∧
                      activation_of h cells output_table n = Ok v).

(** The [OpValue] instance that the entry [name] of a parameter table is
    assigned to: the one of the node of that name. *)
Definition cell_of (nodes : dict node_id) (h : heap) (name : string) : option nat :=
  n ← dict_get name nodes;
  match node_op h n with
  | OpValue c => Some c
  | _ => None
  end.

(** ** What the splitting of a flat array returns *)

(** The number of elements that a list of shapes asks for. *)
Definition total_size (shapes : list (list nat)) : nat :=
  sum_list (size_from_shape <$> shapes).

(** The arrays cut one after the other, from position [index] on, out
    of the elements [elems]. *)
Fixpoint pieces {R} (elems : list R) (index : nat) (shapes : list (list nat))
    : list (Tensor R) :=
  match shapes with
  | [] => []
  | s :: shapes' =>
      mkTensor s (take (size_from_shape s) (drop index elems))
      :: pieces elems (index + size_from_shape s) shapes'
  end.

(** ** The flattened forward function (grad_check.py) *)

Section ForwardFlattened.
Context {R : Type} `{!Scalar R}.

(** [{n.name: parameter_table[n.name].shape for n in graph.parameter_nodes}],
    the mapping [make_forward_flattened] closes over. *)
Definition record_shape (h : heap) (parameter_table : dict (Tensor R))
    (shapes : dict (list nat)) (n : node_id) : result (dict (list nat)) :=
  let! tensor := dict_get (node_name h n) parameter_table ?! KeyError in
  Ok (dict_set (node_name h n) (shape tensor) shapes).

Definition make_forward_flattened (g : Graph R) (h : heap)
    (parameter_table : dict (Tensor R)) : result (dict (list nat)) :=
  let! parameter_nodes := parameter_nodes g ?! TypeError in
  foldM (record_shape h parameter_table) [] parameter_nodes.

(** [for name, array in zip(names, arrays): parameter_table[name] = array]. *)
Definition table_of (names : list string) (arrays : list (Tensor R)) : dict (Tensor R) :=
  foldl (λ table entry, dict_set entry.1 entry.2 table) [] (zip names arrays).

(** The scalar check on the output of [forward]; [output.size] is the
    number of elements. *)
Definition check_scalar (r : Tensor R * gmap string (Tensor R) * Graph R * gmap nat (Tensor R))
    : result (Tensor R * Graph R * gmap nat (Tensor R)) :=
  let '(output, _, g', cells') := r in
  if decide (size_from_shape (shape output) = 1) then Ok (output, g', cells')
  else Raise NonScalarOutput.

(** The function [make_forward_flattened] returns, applied to a flat
    array; it runs [graph.forward], so the graph and the cells change. *)
Definition forward_flattened (g : Graph R) (h : heap) (cells : gmap nat (Tensor R))
    (parameter_shapes : dict (list nat)) (concat_params : Tensor R)
    : result (Tensor R * Graph R * gmap nat (Tensor R)) :=
  let! arrays := array_1d_arrays_nd concat_params (dict_values parameter_shapes) in
  let parameter_table := table_of (dict_keys parameter_shapes) arrays in
  let! r := Graph_forward g h cells parameter_table in
  check_scalar r.
End ForwardFlattened.

(** ** The gradient checker (grad_check.py) *)

(** [gradient_check] copies arrays and updates the copies in place, so
    the numpy arrays live in a store and are addressed by their index.
    The store comes with a further state [X] that [forward_func] may
    change (for a graph: the graph and the cells of its operations). *)
Section GradientCheck.
Context {R : Type} `{!Scalar R}.
Context {X : Type}.

(** A reference always points at a live array; the [IndexError] of this
    lookup has no counterpart in Python. *)
Definition read (arrays : list (Tensor R)) (l : nat) : result (Tensor R) :=
  (arrays !! l) ?! IndexError.

(** [a[i] = f(a[i])] in place: with a first axis, [a[i]] is the [i]-th
    block of as many elements as the remaining axes span (one element for
    a 1-D array). *)
Definition row_update (f : R → R) (i : nat) (a : Tensor R) : Tensor R :=
  let row := size_from_shape (tail (shape a)) in
  mkTensor (shape a)
    (take (i * row) (data a)
     ++ (f <$> take row (drop (i * row) (data a)))
     ++ drop (i * row + row) (data a)).

(** [np.zeros(shape)]. *)
Definition np_zeros (shape : list nat) : Tensor R :=
  mkTensor shape (replicate (size_from_shape shape) s_zero).

(** [np.linalg.norm(a)]: the root of the sum of the squares. *)
Definition np_linalg_norm (a : Tensor R) : R :=
  s_sqrt (foldl s_add s_zero ((λ x, s_mul x x) <$> data a)).

Definition np_sub := np_elementwise (R := R) s_sub.

(** The float [2.]. *)
Definition two : R := s_add s_one s_one.

(** The centered difference [(f_max - f_min) / (2. * perturbation)]. *)
Definition centered_difference (perturbation f_max f_min : R) : R :=
  s_div (s_sub f_max f_min) (s_mul two perturbation).

(** The body of [for i in range(fd_grad.shape[0])]. *)
Definition gradient_check_step
    (forward_func : list (Tensor R) * X → nat → result (R * (list (Tensor R) * X)))
    (perturbation : R) (parameters fd_grad : nat)
    (w : list (Tensor R) * X) (i : nat) : result (list (Tensor R) * X) :=
  let '(arrays, x) := w in
  let! copy_min := read arrays parameters in
  let parameter_min := length arrays in
  let arrays := arrays ++ [copy_min] in
  let! copy_max := read arrays parameters in
  let parameter_max := length arrays in
  let arrays := arrays ++ [copy_max] in
  let arrays := alter (row_update (λ v, s_sub v perturbation) i) parameter_min arrays in
  let arrays := alter (row_update (λ v, s_add v perturbation) i) parameter_max arrays in
  let! (f_max, w) := forward_func (arrays, x) parameter_max in
  let! (f_min, w) := forward_func w parameter_min in
  let value := centered_difference perturbation f_max f_min in
  Ok (alter (row_update (λ _, value) i) fd_grad w.1, w.2).

(** The relative error of two arrays. *)
Definition relative_error (fd_grad grad : Tensor R) : result R :=
  let! diff := np_sub fd_grad grad in
  let numerator := np_linalg_norm diff in
  let denominator := s_add (np_linalg_norm fd_grad) (np_linalg_norm grad) in
  Ok (s_div numerator denominator).

(** [gradient_check]; [equality_threshold] is not used by the code. *)
Definition gradient_check
    (forward_func : list (Tensor R) * X → nat → result (R * (list (Tensor R) * X)))
    (w : list (Tensor R) * X) (parameters grad : nat) (perturbation : R)
    : result (R * (list (Tensor R) * X)) :=
  let '(arrays, x) := w in
  let! P := read arrays parameters in
  let! G := read arrays grad in
  if decide (shape P = shape G) then
    let fd_grad := length arrays in
    let arrays := arrays ++ [np_zeros (shape G)] in
    let! n := head (shape G) ?! IndexError in
    let! w := foldM (gradient_check_step forward_func perturbation parameters fd_grad)
                    (arrays, x) (seq 0 n) in
    let! F := read w.1 fd_grad in
    let! G := read w.1 grad in
    let! difference := relative_error F G in
    Ok (difference, w)
  else Raise ShapeMismatch.

(** [forward_func] as [gradient_check] needs it: it may allocate arrays
    and write to the one it is given, nothing else. *)
Definition keeps_arrays
    (forward_func : list (Tensor R) * X → nat → result (R * (list (Tensor R) * X)))
    : Prop :=
  ∀ arrays x l r arrays' x',
    forward_func (arrays, x) l = Ok (r, (arrays', x')) →
    length arrays ≤ length arrays' ∧
    ∀ l', l' < length arrays → l' ≠ l → arrays' !! l' = arrays !! l'.

(** [forward_func] returns [f] of the array it is given, whatever the
    state. *)
Definition computes (f : Tensor R → R)
    (forward_func : list (Tensor R) * X → nat → result (R * (list (Tensor R) * X)))
    : Prop :=
  ∀ arrays x l a, arrays !! l = Some a →
    ∃ w', forward_func (arrays, x) l = Ok (f a, w').

(** The finite-difference gradient, component by component. *)
Definition fd_component (f : Tensor R → R) (perturbation : R) (P : Tensor R) (i : nat) : R :=
  centered_difference perturbation
    (f (row_update (λ v, s_add v perturbation) i P))
    (f (row_update (λ v, s_sub v perturbation) i P)).

Definition fd_gradient (f : Tensor R → R) (perturbation : R) (P : Tensor R) (n : nat)
    : Tensor R :=
  foldl (λ F i, row_update (λ _, fd_component f perturbation P i) i F)
        (np_zeros (shape P)) (seq 0 n).
End GradientCheck.

(** An example of a forward function over integer arrays: the sum of the
    squares of the elements.  It neither allocates nor writes. *)
Definition sum_of_squares (a : Tensor Z) : Z :=
  foldl Z.add 0%Z ((λ v, v * v)%Z <$> data a).

Definition sum_of_squares_forward (w : list (Tensor Z) * unit) (l : nat)
    : result (Z * (list (Tensor Z) * unit)) :=
  let! a := read w.1 l in
  Ok (sum_of_squares a, w).

(** * Properties *)

(** ** The result monad *)

Lemma bind_Ok {A B} (m : result A) (f : A → result B) b :
  rbind m f = Ok b → ∃ a, m = Ok a ∧ f a = Ok b.
Proof. destruct m; simpl; intros; try discriminate. eauto. Qed.

Lemma foldM_app {A S} (f : S → A → result S) st l1 l2 :
  foldM f st (l1 ++ l2) = (let! st' := foldM f st l1 in foldM f st' l2).
Proof.
  revert st. induction l1 as [|x l1 IH]; intros st; simpl; [done|].
  destruct (f st x); simpl; auto.
Qed.

(** ** Dictionaries *)

Section DictFacts.
Context {V : Type}.
Implicit Types (d : list (string * V)).

Lemma dict_get_Some_elem k v d : dict_get k d = Some v → (k, v) ∈ d.
Proof.
  induction d as [|[k' v'] d IH]; simpl; [done|].
  case_decide; intros Hg.
  - inversion Hg; subst. left.
  - right. auto.
Qed.

Lemma dict_get_None k d : dict_get k d = None ↔ k ∉ dict_keys d.
Proof.
  induction d as [|[k' v'] d IH]; simpl.
  - split; [intros _; apply not_elem_of_nil | done].
  - rewrite not_elem_of_cons. case_decide; split.
    + discriminate.
    + intros [? _]. done.
    + intros. split; [done|]. by apply IH.
    + intros [_ ?]. by apply IH.
Qed.

Lemma dict_get_is_Some k d : is_Some (dict_get k d) ↔ k ∈ dict_keys d.
Proof.
  rewrite <- not_eq_None_Some, dict_get_None.
  destruct (decide (k ∈ dict_keys d)); split; intros; tauto.
Qed.

Lemma dict_get_NoDup k v d :
  NoDup (dict_keys d) → (k, v) ∈ d → dict_get k d = Some v.
Proof.
  induction d as [|[k' v'] d IH]; simpl; intros Hnd Hin.
  - by apply elem_of_nil in Hin.
  - apply NoDup_cons in Hnd as [Hk Hnd].
    apply elem_of_cons in Hin as [Heq|Hin].
    + inversion Heq; subst. by rewrite decide_True.
    + case_decide; subst.
      * exfalso. apply Hk. apply list_elem_of_fmap. by exists (k', v).
      * auto.
Qed.

Lemma dict_set_fresh k v d :
  k ∉ dict_keys d → dict_set k v d = d ++ [(k, v)].
Proof.
  induction d as [|[k' v'] d IH]; simpl; [done|].
  rewrite not_elem_of_cons. intros [? ?].
  rewrite decide_False by done. by rewrite IH.
Qed.
End DictFacts.

(** ** Flatten and unflatten *)

Section FlattenFacts.
Context {R : Type}.
Implicit Types (t array : Tensor R) (arrays : list (Tensor R)).

Lemma take_min_length (l : list R) n : take (n `min` length l) l = take n l.
Proof.
  destruct (decide (n ≤ length l)).
  - by rewrite Nat.min_l.
  - rewrite Nat.min_r by lia. by rewrite !take_ge by lia.
Qed.

Lemma take_length_eq (l : list R) k n : length (take k l) = n → take k l = take n l.
Proof. intros <-. rewrite length_take. by rewrite take_min_length. Qed.

(** On a 1-D array a step cuts the run of [size] elements that starts
    at [index], and [reshape] accepts it when the run is complete. *)
Lemma array_1d_arrays_nd_step_1d array index acc s :
  shape array = [length (data array)] →
  array_1d_arrays_nd_step array (index, acc) s =
  (let elems := take (size_from_shape s) (drop index (data array)) in
   if decide (size_from_shape s = length elems)
   then Ok (index + size_from_shape s, acc ++ [mkTensor s elems])
   else Raise ValueError).
Proof.
  intros H1d. unfold array_1d_arrays_nd_step, ndarray_slice. rewrite H1d.
  cbn [rbind]. change (size_from_shape []) with 1. rewrite !Nat.mul_1_r.
  set (size := size_from_shape s). set (d := length (data array)).
  assert (Hcut : take ((index + size) `min` d - index `min` d)
                      (drop (index `min` d) (data array))
                 = take size (drop index (data array))).
  { destruct (decide (index ≤ d)) as [Hle|Hgt].
    - rewrite (Nat.min_l index d) by lia.
      replace ((index + size) `min` d - index)
        with (size `min` length (drop index (data array)))
        by (rewrite length_drop; fold d; lia).
      apply take_min_length.
    - rewrite (Nat.min_r index d) by lia.
      rewrite !drop_ge by (fold d; lia). by rewrite !take_nil. }
  rewrite Hcut. unfold ndarray_reshape. cbn [data]. by destruct (decide _).
Qed.

Lemma array_1d_arrays_nd_loop arrays : ∀ (pre : list R) acc,
  Forall tensor_wf arrays →
  let flat := pre ++ concat (data <$> arrays) in
  foldM (array_1d_arrays_nd_step (mkTensor [length flat] flat))
        (length pre, acc) (shape <$> arrays)
  = Ok (length pre + length (concat (data <$> arrays)), acc ++ arrays).
Proof.
  induction arrays as [|t ts IH]; intros pre acc Hwf flat.
  - simpl. by rewrite Nat.add_0_r, app_nil_r.
  - apply Forall_cons in Hwf as [Ht Hts]. destruct t as [s d].
    unfold tensor_wf in Ht. simpl in Ht.
    rewrite fmap_cons. cbn [foldM shape].
    rewrite array_1d_arrays_nd_step_1d by done. cbn [data].
    subst flat. cbn [fmap list_fmap concat data].
    rewrite <- Ht.
    rewrite drop_app_length, take_app_length.
    rewrite decide_True by done. cbn [rbind].
    rewrite <- length_app.
    pose proof (IH (pre ++ d) (acc ++ [mkTensor s d]) Hts) as Hrest.
    cbn zeta in Hrest. rewrite <- (app_assoc pre d) in Hrest.
    change (list_fmap (Tensor R) (list R) data ts) with (data <$> ts).
    rewrite Hrest. f_equal. f_equal.
    + rewrite !length_app. lia.
    + by rewrite <- app_assoc.
Qed.
End FlattenFacts.

(** C6 (as stated, refuted): the claim quantifies over every list of
    tensors, but on the empty list [np.concatenate] raises [ValueError]:
    flattening does not return, and the round trip does not give back the
    (empty) original list. *)
Lemma flatten_unflatten_empty_fails :
  flatten_unflatten ([] : list (Tensor Z)) = Raise ValueError ∧
  flatten_unflatten ([] : list (Tensor Z)) ≠ Ok [].
Proof. split; [reflexivity | discriminate]. Qed.

(** C6 (amended): for every non-empty list of tensors, splitting the
    flattened 1-D concatenation with the original shapes gives back
    exactly the original list: same shapes, same elements. *)
Theorem flatten_unflatten_roundtrip {R} (arrays : list (Tensor R)) :
  arrays ≠ [] →
  Forall tensor_wf arrays →
  flatten_unflatten arrays = Ok arrays.
Proof.
  intros Hne Hwf. unfold flatten_unflatten, arrays_nd_array_1d, np_concatenate.
  destruct (ndarray_flatten <$> arrays) as [|a0 rest] eqn:Hflat.
  { by apply fmap_nil_inv in Hflat. }
  rewrite <- Hflat.
  rewrite bool_decide_eq_true_2.
  2:{ apply Forall_fmap, Forall_forall. by intros. }
  cbn [rbind]. unfold array_1d_arrays_nd.
  replace (data <$> (ndarray_flatten <$> arrays)) with (data <$> arrays).
  2:{ rewrite <- list_fmap_compose. by apply list_fmap_ext. }
  pose proof (array_1d_arrays_nd_loop arrays [] [] Hwf) as Hloop.
  simpl in Hloop. rewrite Hloop. reflexivity.
Qed.

Lemma flatten_unflatten_roundtrip_witness :
  let arrays := [mkTensor [2; 2] [1; 2; 3; 4]%Z; mkTensor [] [5]%Z; mkTensor [3] [6; 7; 8]%Z] in
  arrays ≠ [] ∧ Forall tensor_wf arrays ∧ flatten_unflatten arrays = Ok arrays.
Proof.
  intros arrays.
  assert (Hne : arrays ≠ []) by discriminate.
  assert (Hwf : Forall tensor_wf arrays).
  { repeat constructor. }
  exact (conj Hne (conj Hwf (flatten_unflatten_roundtrip arrays Hne Hwf))).
Defined.

(** ** Graph.add *)

Lemma inputs_match_count op inputs :
  inputs_match op inputs = true ↔ supplied_count inputs = num_inputs op.
Proof.
  destruct inputs as [l|]; simpl; rewrite bool_decide_eq_true; split; congruence.
Qed.

Lemma mapM_lookup_input (d : dict node_id) (l : list pyref) :
  mapM_r (lookup_input d) l =
  match mapM (named_node d) l with
  | Some ids => Ok (PNode <$> ids)
  | None => Raise KeyError
  end.
Proof.
  induction l as [|r l IH]; [reflexivity|].
  cbn [mapM_r mapM]. rewrite IH. unfold mbind, option_bind, mret, option_ret.
  destruct r as [s|i]; simpl; [|reflexivity].
  destruct (dict_get s d) as [i|]; simpl; [|reflexivity].
  destruct (mapM (named_node d) l); reflexivity.
Qed.

Lemma dict_mem_true {V} k (d : dict V) : dict_mem k d = true ↔ k ∈ dict_keys d.
Proof. unfold dict_mem. by rewrite bool_decide_eq_true, dict_get_is_Some. Qed.

Lemma dict_mem_false {V} k (d : dict V) : dict_mem k d = false ↔ k ∉ dict_keys d.
Proof. unfold dict_mem. by rewrite bool_decide_eq_false, dict_get_is_Some. Qed.

(** What [add] does once the name is new and the count of parents fits. *)
Lemma Graph_add_accepted {R} (g : Graph R) h op name inputs :
  name ∉ dict_keys (nodes g) →
  supplied_count inputs = num_inputs op →
  Graph_add g h op name inputs =
  (let! input_nodes := collect_parents (nodes g) inputs in
   Ok (h ++ [Node_init name op input_nodes], registered g name (length h), length h)).
Proof.
  intros Hfresh Hcount. unfold Graph_add.
  apply dict_mem_false in Hfresh. rewrite Hfresh.
  apply inputs_match_count in Hcount. rewrite Hcount. reflexivity.
Qed.

(** C7 (as stated, refuted): a new name and a fitting count of parents do
    not make [add] succeed: a parent given by a name that no added node
    carries makes the lookup fail with [KeyError], which is neither
    [DuplicateNode] nor [ArityMismatch], and no node is registered. *)
Lemma Graph_add_unknown_parent_name :
  let g : Graph Z := Graph_init "g" in
  ("a" ∉ dict_keys (nodes g)) ∧
  supplied_count (Some [PStr "x"]) = num_inputs OpSigmoid ∧
  Graph_add g [] OpSigmoid "a" (Some [PStr "x"]) = Raise KeyError.
Proof.
  simpl. split; [apply not_elem_of_nil|]. split; reflexivity.
Qed.

(** C7 (amended): [add] fails with [DuplicateNode] if the name is already
    present; otherwise it fails with [ArityMismatch] if the number of
    supplied parents differs from the operation's declared input count
    (no sequence and the empty sequence both count as zero parents);
    otherwise, when the first parent is a string, it fails with [KeyError]
    unless every parent is the name of an already added node; in all
    other cases it succeeds and registers the node. *)
Theorem Graph_add_outcome {R} (g : Graph R) h op name inputs :
  (name ∈ dict_keys (nodes g) →
     Graph_add g h op name inputs = Raise DuplicateNode) ∧
  (name ∉ dict_keys (nodes g) → supplied_count inputs ≠ num_inputs op →
     Graph_add g h op name inputs = Raise ArityMismatch) ∧
  (name ∉ dict_keys (nodes g) → supplied_count inputs = num_inputs op →
     match inputs with
     | Some (PStr s :: rest) =>
         match mapM (named_node (nodes g)) (PStr s :: rest) with
         | None => Graph_add g h op name inputs = Raise KeyError
         | Some ids =>
             Graph_add g h op name inputs =
             Ok (h ++ [mkNode name op (PNode <$> ids) []],
                 registered g name (length h), length h)
         end
     | _ =>
         Graph_add g h op name inputs =
         Ok (h ++ [mkNode name op (default [] inputs) []],
             registered g name (length h), length h)
     end).
Proof.
  split; [|split].
  - intros Hin. unfold Graph_add. apply dict_mem_true in Hin. by rewrite Hin.
  - intros Hfresh Hcount. unfold Graph_add.
    apply dict_mem_false in Hfresh. rewrite Hfresh.
    destruct (inputs_match op inputs) eqn:Hm; [|reflexivity].
    by apply inputs_match_count in Hm.
  - intros Hfresh Hcount. rewrite Graph_add_accepted by done.
    destruct inputs as [[|[s|i] rest]|]; try reflexivity.
    unfold collect_parents. rewrite mapM_lookup_input.
    destruct (mapM _ _); reflexivity.
Qed.

Lemma Graph_add_outcome_witness :
  let g : Graph Z := registered (Graph_init "g") "x" 0 in
  let h := [mkNode "x" (OpValue 0) [] []] in
  Graph_add g h (OpValue 1) "x" None = Raise DuplicateNode ∧
  Graph_add g h OpSum "s" (Some [PStr "x"]) = Raise ArityMismatch ∧
  Graph_add g h OpSigmoid "s" (Some [PStr "x"]) =
    Ok (h ++ [mkNode "s" OpSigmoid [PNode 0] []], registered g "s" 1, 1) ∧
  Graph_add g h (OpValue 1) "y" (Some []) =
    Ok (h ++ [mkNode "y" (OpValue 1) [] []], registered g "y" 1, 1).
Proof.
  intros g h.
  assert (Hx : "x" ∈ dict_keys (nodes g)) by (vm_compute; left).
  assert (Hs : "s" ∉ dict_keys (nodes g)).
  { vm_compute. intros Hin. apply list_elem_of_In in Hin. simpl in Hin.
    destruct Hin as [Heq|[]]. discriminate. }
  assert (Hy : "y" ∉ dict_keys (nodes g)).
  { vm_compute. intros Hin. apply list_elem_of_In in Hin. simpl in Hin.
    destruct Hin as [Heq|[]]. discriminate. }
  split; [|split; [|split]].
  - exact (proj1 (Graph_add_outcome g h (OpValue 1) "x" None) Hx).
  - refine (proj1 (proj2 (Graph_add_outcome g h OpSum "s" (Some [PStr "x"]))) Hs _).
    simpl. lia.
  - exact (proj2 (proj2 (Graph_add_outcome g h OpSigmoid "s" (Some [PStr "x"]))) Hs eq_refl).
  - exact (proj2 (proj2 (Graph_add_outcome g h (OpValue 1) "y" (Some []))) Hy eq_refl).
Defined.

Lemma mapM_named_node_ref (d : dict node_id) (l : list pyref) i :
  PNode i ∈ l → mapM (named_node d) l = None.
Proof.
  intros Hin. apply eq_None_not_Some. intros [ids Hids].
  apply mapM_Some in Hids.
  apply list_elem_of_lookup in Hin as [k Hk].
  destruct (Forall2_lookup_l _ _ _ _ _ Hids Hk) as (y & _ & Hy).
  discriminate.
Qed.

(** C9: for a non-empty [inputs] the first element alone picks the
    resolution mode.  When it is a string, every element is looked up by
    name among the nodes added so far, so the parents are the nodes so
    named and any element that is not the name of an added node (a node
    reference in particular) makes [add] fail with [KeyError].  When it
    is a node reference, the sequence is taken as it is, strings
    included.  Nothing is resolved element by element. *)
Theorem Graph_add_resolution_mode {R} (g : Graph R) h op name first rest :
  name ∉ dict_keys (nodes g) →
  num_inputs op = S (length rest) →
  match first with
  | PStr _ =>
      match mapM (named_node (nodes g)) (first :: rest) with
      | Some ids =>
          Graph_add g h op name (Some (first :: rest)) =
          Ok (h ++ [mkNode name op (PNode <$> ids) []],
              registered g name (length h), length h)
      | None => Graph_add g h op name (Some (first :: rest)) = Raise KeyError
      end ∧
      (∀ i, PNode i ∈ rest →
         Graph_add g h op name (Some (first :: rest)) = Raise KeyError)
  | PNode _ =>
      Graph_add g h op name (Some (first :: rest)) =
      Ok (h ++ [mkNode name op (first :: rest) []],
          registered g name (length h), length h)
  end.
Proof.
  intros Hfresh Harity.
  rewrite Graph_add_accepted by (simpl; congruence).
  destruct first as [s|i]; [|reflexivity].
  unfold collect_parents. rewrite mapM_lookup_input.
  split.
  - destruct (mapM _ _); reflexivity.
  - intros i Hi. rewrite (mapM_named_node_ref _ _ i); [reflexivity|].
    by right.
Qed.

Lemma Graph_add_resolution_mode_witness :
  let g : Graph Z := registered (registered (Graph_init "g") "x" 0) "y" 1 in
  let h := [mkNode "x" (OpValue 0) [] []; mkNode "y" (OpValue 1) [] []] in
  Graph_add g h OpSum "s" (Some [PStr "x"; PStr "y"]) =
    Ok (h ++ [mkNode "s" OpSum [PNode 0; PNode 1] []], registered g "s" 2, 2) ∧
  Graph_add g h OpSum "s" (Some [PStr "x"; PNode 1]) = Raise KeyError ∧
  Graph_add g h OpSum "s" (Some [PNode 0; PStr "y"]) =
    Ok (h ++ [mkNode "s" OpSum [PNode 0; PStr "y"] []], registered g "s" 2, 2).
Proof.
  intros g h.
  assert (Hs : "s" ∉ dict_keys (nodes g)).
  { vm_compute. intros Hin. apply list_elem_of_In in Hin. simpl in Hin.
    destruct Hin as [Heq|[Heq|[]]]; discriminate. }
  split; [|split].
  - exact (proj1 (Graph_add_resolution_mode g h OpSum "s" (PStr "x") [PStr "y"] Hs eq_refl)).
  - refine (proj2 (Graph_add_resolution_mode g h OpSum "s" (PStr "x") [PNode 1] Hs eq_refl) 1 _).
    left.
  - exact (Graph_add_resolution_mode g h OpSum "s" (PNode 0) [PStr "y"] Hs eq_refl).
Defined.


(** ** update_children *)

Lemma with_more_children_nil nd : with_more_children [] nd = nd.
Proof. destruct nd. unfold with_more_children. simpl. by rewrite app_nil_r. Qed.

Lemma with_more_children_app a b nd :
  with_more_children b (with_more_children a nd) = with_more_children (a ++ b) nd.
Proof. unfold with_more_children. simpl. by rewrite app_assoc. Qed.

Lemma append_child_loop node ps : ∀ h h',
  foldM (append_child node) h ps = Ok h' →
  ∀ p, h' !! p = with_more_children (slots_of p node ps) <$> h !! p.
Proof.
  induction ps as [|q ps IH]; intros h h' Hrun p.
  - inversion Hrun; subst. unfold slots_of. simpl.
    destruct (h' !! p); simpl; [|done]. by rewrite with_more_children_nil.
  - destruct q as [s|i]; [discriminate|].
    cbn [foldM append_child rbind] in Hrun.
    rewrite (IH _ _ Hrun p). unfold slots_of. cbn [fmap list_fmap concat].
    destruct (decide (i = p)) as [->|Hne].
    + rewrite decide_True by done. rewrite list_lookup_alter_eq.
      destruct (h !! p); simpl; [|done].
      f_equal. apply (with_more_children_app [node]).
    + rewrite decide_False by congruence.
      by rewrite list_lookup_alter_ne.
Qed.

Lemma node_parents_more_children h h' (f : node_id → list node_id) :
  (∀ p, h' !! p = with_more_children (f p) <$> h !! p) →
  ∀ n, node_parents h' n = node_parents h n.
Proof.
  intros Hh n. unfold node_parents. rewrite Hh. by destruct (h !! n).
Qed.

Lemma update_children_lookup ns : ∀ h h',
  update_children ns h = Ok h' →
  ∀ p, h' !! p = with_more_children (children_added h ns p) <$> h !! p.
Proof.
  unfold update_children.
  induction ns as [|node ns IH]; intros h h' Hrun p.
  - inversion Hrun; subst. unfold children_added. simpl.
    destruct (h' !! p); simpl; [|done]. by rewrite with_more_children_nil.
  - cbn [foldM] in Hrun. apply bind_Ok in Hrun as (h1 & Hinner & Hrest).
    pose proof (append_child_loop _ _ _ _ Hinner) as H1.
    rewrite (IH _ _ Hrest p), H1.
    unfold children_added at 2. cbn [fmap list_fmap concat].
    replace (children_added h1 ns p) with (children_added h ns p).
    2:{ unfold children_added. f_equal. apply list_fmap_ext. intros _ n _.
        by rewrite (node_parents_more_children _ _ _ H1). }
    destruct (h !! p); simpl; [|done].
    f_equal. apply with_more_children_app.
Qed.

Lemma elem_of_slots_of c p node ps :
  c ∈ slots_of p node ps ↔ c = node ∧ PNode p ∈ ps.
Proof.
  unfold slots_of. induction ps as [|q ps IH]; simpl.
  - rewrite !elem_of_nil. tauto.
  - rewrite elem_of_app, IH, elem_of_cons. case_decide; subst.
    + rewrite list_elem_of_singleton. tauto.
    + rewrite elem_of_nil. split; [tauto|]. intros [-> [Heq|Hin]]; [congruence|tauto].
Qed.

Lemma elem_of_children_added h ns p c :
  c ∈ children_added h ns p ↔ c ∈ ns ∧ PNode p ∈ node_parents h c.
Proof.
  unfold children_added. induction ns as [|n ns IH]; simpl.
  - rewrite !elem_of_nil. tauto.
  - rewrite elem_of_app, IH, elem_of_slots_of, elem_of_cons.
    split; [intros [[-> ?]|[? ?]]; tauto|].
    intros [[->|?] ?]; tauto.
Qed.

Lemma update_children_facts ns h h' :
  update_children ns h = Ok h' →
  length h' = length h ∧
  (∀ n, node_parents h' n = node_parents h n) ∧
  (∀ n, node_name h' n = node_name h n) ∧
  (∀ p, p < length h →
        node_children h' p = node_children h p ++ children_added h ns p).
Proof.
  intros Hrun. pose proof (update_children_lookup _ _ _ Hrun) as Hl.
  split; [|split; [|split]].
  - apply Nat.le_antisymm.
    + destruct (decide (length h' ≤ length h)) as [|Hgt]; [done|].
      destruct (lookup_lt_is_Some_2 h' (length h)) as [x Hx]; [lia|].
      rewrite Hl, (lookup_ge_None_2 h (length h)) in Hx by lia. discriminate.
    + destruct (decide (length h ≤ length h')) as [|Hgt]; [done|].
      destruct (lookup_lt_is_Some_2 h (length h')) as [x Hx]; [lia|].
      specialize (Hl (length h')). rewrite Hx, lookup_ge_None_2 in Hl by lia.
      discriminate.
  - by apply node_parents_more_children with (f := children_added h ns).
  - intros n. unfold node_name. rewrite Hl. by destruct (h !! n).
  - intros p Hp. unfold node_children. rewrite Hl.
    destruct (lookup_lt_is_Some_2 h p Hp) as [x Hx]. by rewrite Hx.
Qed.

(** ** topological_sort *)

Lemma list_remove_perm n l : n ∈ l → l ≡ₚ n :: list_remove n l.
Proof.
  induction l as [|y l IH]; intros Hin.
  - by apply elem_of_nil in Hin.
  - simpl. case_decide; subst; [done|].
    apply elem_of_cons in Hin as [?|Hin]; [done|].
    rewrite (IH Hin) at 1. apply Permutation_swap.
Qed.

Lemma length_list_remove n l : n ∈ l → S (length (list_remove n l)) = length l.
Proof.
  intros Hin. apply list_remove_perm in Hin.
  apply Permutation_length in Hin. simpl in Hin. lia.
Qed.

Lemma length_list_remove_le n l : length (list_remove n l) ≤ length l.
Proof.
  induction l as [|y l IH]; simpl; [lia|]. case_decide; simpl; lia.
Qed.

Lemma is_sink_true h n u :
  is_sink h n u = true ↔ ∀ c, c ∈ node_children h n → c ∉ u.
Proof.
  unfold is_sink. rewrite forallb_forall. split.
  - intros Hall c Hc. apply list_elem_of_In, Hall in Hc.
    apply negb_true_iff, bool_decide_eq_false in Hc. done.
  - intros Hall c Hc. apply list_elem_of_In, Hall in Hc.
    apply negb_true_iff, bool_decide_eq_false. done.
Qed.

Section SortLoop.
Variable h : heap.
Variable N : list node_id.

Lemma sort_inv_move n u l :
  sort_inv h N u l → n ∈ u → is_sink h n u = true →
  sort_inv h N (list_remove n u) (l ++ [n]).
Proof.
  intros [Hperm Hcf] Hin Hsink. split.
  - rewrite <- Hperm. rewrite (list_remove_perm n u Hin) at 2.
    rewrite app_assoc. rewrite <- Permutation_cons_append. done.
  - intros j m c Hj Hc HcN.
    destruct (decide (j < length l)) as [Hlt|Hge].
    + rewrite lookup_app_l in Hj by done.
      destruct (Hcf j m c Hj Hc HcN) as (i & Hi & Hli).
      exists i. split; [done|]. rewrite lookup_app_l by lia. done.
    + rewrite lookup_app_r in Hj by lia.
      destruct (j - length l) as [|k] eqn:Hk; simpl in Hj; [|by destruct k].
      inversion Hj; subst m.
      assert (c ∈ u ++ l) as Hcu by (by rewrite Hperm).
      apply elem_of_app in Hcu as [Hcu|Hcl].
      * exfalso. by apply (proj1 (is_sink_true h n u) Hsink c).
      * apply list_elem_of_lookup in Hcl as [i Hi].
        exists i. split.
        -- apply lookup_lt_Some in Hi. lia.
        -- apply lookup_app_l_Some. done.
Qed.

Lemma sink_scan_inv k : ∀ i u l,
  sort_inv h N u l →
  sort_inv h N (sink_scan h k i u l).1 (sink_scan h k i u l).2.
Proof.
  induction k as [|k IH]; intros i u l Hinv; simpl; [done|].
  destruct (u !! i) as [n|] eqn:Hn; [|done].
  destruct (is_sink h n u) eqn:Hs; [|by apply IH].
  apply IH, sort_inv_move; try done.
  apply list_elem_of_lookup. eauto.
Qed.

Lemma sink_scan_length k : ∀ i u l,
  length (sink_scan h k i u l).1 ≤ length u.
Proof.
  induction k as [|k IH]; intros i u l; simpl; [lia|].
  destruct (u !! i) as [n|] eqn:Hn; [|simpl; lia].
  destruct (is_sink h n u); [|apply IH].
  etrans; [apply IH|]. apply length_list_remove_le.
Qed.

(** A pass that meets a sink removes a node. *)
Lemma sink_scan_progress k : ∀ i u l m n,
  i ≤ m → m < i + k → u !! m = Some n → is_sink h n u = true →
  length (sink_scan h k i u l).1 < length u.
Proof.
  induction k as [|k IH]; intros i u l m n Him Hmk Hm Hs; [lia|].
  simpl. destruct (u !! i) as [n'|] eqn:Hn.
  2:{ apply lookup_ge_None in Hn. apply lookup_lt_Some in Hm. lia. }
  destruct (is_sink h n' u) eqn:Hs'.
  - eapply Nat.le_lt_trans; [apply sink_scan_length|].
    assert (n' ∈ u) as Hin by (apply list_elem_of_lookup; eauto).
    apply length_list_remove in Hin. lia.
  - destruct (decide (m = i)) as [->|Hne]; [congruence|].
    apply (IH (S i) u l m n); try done; lia.
Qed.

Lemma sink_loop_inv fuel : ∀ u l l',
  sort_inv h N u l → sink_loop fuel h u l = Ok l' →
  l' ≡ₚ N ∧ children_first h N l'.
Proof.
  induction fuel as [|fuel IH]; intros u l l' Hinv Hrun.
  - destruct u; [|discriminate]. inversion Hrun; subst. apply Hinv.
  - destruct u as [|x u]; cbn [sink_loop] in Hrun.
    { inversion Hrun; subst. apply Hinv. }
    destruct (sink_scan h (length (x :: u)) 0 (x :: u) l) as [u' l1] eqn:Hscan.
    apply (IH u' l1 l'); [|done].
    pose proof (sink_scan_inv (length (x :: u)) 0 (x :: u) l Hinv) as Hi.
    by rewrite Hscan in Hi.
Qed.

(** When every non-empty part of [N] has a sink, each pass removes a
    node, so as many passes as there are nodes are enough. *)
Lemma sink_loop_terminates fuel : ∀ u l,
  (∀ u', u' ≠ [] → u' ⊆ N → ∃ m n, u' !! m = Some n ∧ is_sink h n u' = true) →
  sort_inv h N u l → length u ≤ fuel →
  ∃ l', sink_loop fuel h u l = Ok l'.
Proof.
  induction fuel as [|fuel IH]; intros u l Hsink Hinv Hlen.
  - destruct u; [|simpl in Hlen; lia]. exists l. reflexivity.
  - destruct u as [|x u]; [exists l; reflexivity|]. cbn [sink_loop].
    destruct (sink_scan h (length (x :: u)) 0 (x :: u) l) as [u' l1] eqn:Hscan.
    apply IH; [done| |].
    + pose proof (sink_scan_inv (length (x :: u)) 0 (x :: u) l Hinv) as Hi.
      by rewrite Hscan in Hi.
    + destruct (Hsink (x :: u)) as (m & n & Hm & Hs); [done| |].
      { intros y Hy. destruct Hinv as [Hperm _]. rewrite <- Hperm.
        apply elem_of_app. by left. }
      pose proof (sink_scan_progress (length (x :: u)) 0 (x :: u) l m n) as Hp.
      rewrite Hscan in Hp. simpl in Hp, Hlen |- *.
      apply lookup_lt_Some in Hm as Hmlt. simpl in Hmlt.
      specialize (Hp ltac:(lia) ltac:(lia) Hm Hs). lia.
Qed.
End SortLoop.

Lemma max_rank_elem (rank : nat → nat) (l : list nat) :
  l ≠ [] → ∃ x, x ∈ l ∧ ∀ y, y ∈ l → rank y ≤ rank x.
Proof.
  induction l as [|a l IH]; [done|]. intros _.
  destruct l as [|b l].
  - exists a. split; [left|]. intros y Hy.
    apply list_elem_of_singleton in Hy. by subst.
  - destruct IH as (x & Hx & Hmax); [done|].
    destruct (decide (rank x ≤ rank a)).
    + exists a. split; [left|]. intros y Hy.
      apply elem_of_cons in Hy as [->|Hy]; [done|].
      specialize (Hmax y Hy). lia.
    + exists x. split; [by right|]. intros y Hy.
      apply elem_of_cons in Hy as [->|Hy]; [lia|]. by apply Hmax.
Qed.

Lemma ranked_lt rank h ns n p :
  ranked rank h ns → n ∈ ns → PNode p ∈ node_parents h n → rank p < rank n.
Proof.
  intros Hr Hn Hp. unfold ranked in Hr.
  rewrite Forall_forall in Hr. specialize (Hr n Hn).
  rewrite Forall_forall in Hr. apply (Hr (PNode p) Hp).
Qed.

(** Without cycles, among any nodes one has no child among them. *)
Lemma exists_sink rank h ns u :
  ranked rank h ns →
  (∀ n c, n ∈ ns → c ∈ node_children h n → c ∈ ns ∧ PNode n ∈ node_parents h c) →
  u ⊆ ns → u ≠ [] →
  ∃ m n, u !! m = Some n ∧ is_sink h n u = true.
Proof.
  intros Hr Hsound Hsub Hne.
  destruct (max_rank_elem rank u Hne) as (n & Hn & Hmax).
  apply list_elem_of_lookup in Hn as Hm. destruct Hm as [m Hm].
  exists m, n. split; [done|]. apply is_sink_true. intros c Hc Hcu.
  destruct (Hsound n c (Hsub n Hn) Hc) as [Hcns Hpar].
  pose proof (ranked_lt _ _ _ _ _ Hr Hcns Hpar).
  specialize (Hmax c Hcu). lia.
Qed.

Lemma unsorted_filter_perm (h : heap) (ns : list node_id) :
  NoDup ns →
  let ps := filter (λ n, length (node_parents h n) = 0) ns in
  ps ++ filter (λ n, n ∉ ps) ns ≡ₚ ns.
Proof.
  intros Hnd ps.
  etrans; [|apply (filter_app_complement (λ n, length (node_parents h n) = 0) ns)].
  apply Permutation_app_head.
  apply NoDup_Permutation; [by apply NoDup_filter..|].
  intros x. rewrite !list_elem_of_filter. unfold ps.
  rewrite list_elem_of_filter. tauto.
Qed.

(** What [topological_sort] returns: the nodes without parents, then the
    others, each after its parents. *)
Lemma topological_sort_ordered fuel h ns ps internal :
  NoDup ns →
  (∀ c p, c ∈ ns → PNode p ∈ node_parents h c → p ∈ ns → c ∈ node_children h p) →
  topological_sort fuel h ns = Ok (ps, internal) →
  ps = filter (λ n, length (node_parents h n) = 0) ns ∧
  ps ++ internal ≡ₚ ns ∧
  (∀ n p, n ∈ ns → PNode p ∈ node_parents h n → p ∈ ns →
          before (ps ++ internal) p n) ∧
  (∀ n p, n ∈ internal → PNode p ∈ node_parents h n → p ∈ internal →
          before internal p n).
Proof.
  intros Hnd Hcomplete Hrun. unfold topological_sort in Hrun.
  set (ps0 := filter (λ n, length (node_parents h n) = 0) ns) in *.
  destruct (decide (0 < length ps0)); [|discriminate].
  set (N := filter (λ n, n ∉ ps0) ns) in *.
  apply bind_Ok in Hrun as (L & Hloop & Hret). inversion Hret; subst ps internal.
  assert (sort_inv h N N []) as Hinv0.
  { split; [by rewrite app_nil_r|]. intros j n c Hj. by rewrite lookup_nil in Hj. }
  destruct (sink_loop_inv h N fuel N [] L Hinv0 Hloop) as [HpermL Hcf].
  pose proof (unsorted_filter_perm h ns Hnd) as Hpart. simpl in Hpart.
  fold ps0 in Hpart. fold N in Hpart.
  assert (ps0 ++ reverse L ≡ₚ ns) as Hperm.
  { by rewrite reverse_Permutation, HpermL. }
  assert (NoDup (reverse L)) as HndL.
  { rewrite reverse_Permutation, HpermL. by apply NoDup_filter. }
  assert (Hin_int : ∀ n p, n ∈ N → PNode p ∈ node_parents h n → p ∈ N →
                    before (reverse L) p n).
  { intros n p HnN Hpar HpN j Hj.
    assert (n ∈ ns ∧ p ∈ ns) as [Hn Hp].
    { unfold N in HnN, HpN. rewrite list_elem_of_filter in HnN, HpN. tauto. }
    assert (p ∈ L) as HpL by (by rewrite HpermL).
    apply list_elem_of_lookup in HpL as [jp Hjp].
    destruct (Hcf jp p n Hjp (Hcomplete n p Hn Hpar Hp) HnN) as (i & Hi & HLi).
    apply lookup_lt_Some in Hjp as Hjplt.
    assert (reverse L !! (length L - S i) = Some n) as Hrn.
    { rewrite reverse_lookup by lia. rewrite <- HLi. f_equal. lia. }
    pose proof (NoDup_lookup _ _ _ _ HndL Hj Hrn) as ->.
    exists (length L - S jp). split; [lia|].
    rewrite reverse_lookup by lia. rewrite <- Hjp. f_equal. lia. }
  split; [done|]. split; [done|]. split.
  - intros n p Hn Hpar Hp j Hj.
    assert (n ∉ ps0) as Hnps.
    { unfold ps0. rewrite list_elem_of_filter. intros [Hz _].
      destruct (node_parents h n); [by apply elem_of_nil in Hpar|discriminate]. }
    assert (n ∈ N) as HnN by (unfold N; by rewrite list_elem_of_filter).
    destruct (decide (p ∈ ps0)) as [Hpps|Hpps].
    + apply list_elem_of_lookup in Hpps as [i Hi].
      exists i. split; [|by apply lookup_app_l_Some].
      apply lookup_lt_Some in Hi.
      destruct (decide (j < length ps0)) as [Hlt|]; [|lia].
      rewrite lookup_app_l in Hj by done. exfalso. apply Hnps.
      apply list_elem_of_lookup. eauto.
    + assert (p ∈ N) as HpN by (unfold N; by rewrite list_elem_of_filter).
      destruct (decide (j < length ps0)) as [Hlt|Hge].
      { rewrite lookup_app_l in Hj by done. exfalso. apply Hnps.
        apply list_elem_of_lookup. eauto. }
      rewrite lookup_app_r in Hj by lia.
      destruct (Hin_int n p HnN Hpar HpN _ Hj) as (i & Hi & Hri).
      exists (length ps0 + i). split; [lia|].
      rewrite lookup_app_r by lia. rewrite <- Hri. f_equal. lia.
  - intros n p Hn Hpar Hp. apply Hin_int; [|done|].
    + by rewrite <- HpermL, <- reverse_Permutation.
    + by rewrite <- HpermL, <- reverse_Permutation.
Qed.

(** With no cycle among the parent links and children that are really
    children, [topological_sort] returns as soon as it may run one pass
    per node. *)
Lemma topological_sort_returns rank fuel h ns :
  NoDup ns →
  ranked rank h ns →
  (∀ n c, n ∈ ns → c ∈ node_children h n → c ∈ ns ∧ PNode n ∈ node_parents h c) →
  Exists (λ n, node_parents h n = []) ns →
  length ns ≤ fuel →
  ∃ ps internal, topological_sort fuel h ns = Ok (ps, internal).
Proof.
  intros Hnd Hr Hsound Hparam Hfuel. unfold topological_sort.
  set (ps0 := filter (λ n, length (node_parents h n) = 0) ns).
  destruct (decide (0 < length ps0)) as [Hpos|Hzero].
  2:{ exfalso. apply Hzero. apply Exists_exists in Hparam as (n & Hn & Hpar).
      assert (n ∈ ps0) as Hin.
      { unfold ps0. rewrite list_elem_of_filter. by rewrite Hpar. }
      destruct ps0; [by apply elem_of_nil in Hin|simpl; lia]. }
  set (N := filter (λ n, n ∉ ps0) ns).
  destruct (sink_loop_terminates h N fuel N []) as [L HL].
  - intros u' Hne Hsub. apply (exists_sink rank h ns); try done.
    intros x Hx. apply Hsub in Hx. unfold N in Hx.
    rewrite list_elem_of_filter in Hx. tauto.
  - split; [by rewrite app_nil_r|]. intros j n c Hj. by rewrite lookup_nil in Hj.
  - etrans; [|exact Hfuel]. unfold N. apply length_filter.
  - exists ps0, (reverse L). by rewrite HL.
Qed.

(** ** Graph.done *)

Lemma graph_wf_names {R} (g : Graph R) h :
  graph_wf g h → node_name h <$> dict_values (nodes g) = dict_keys (nodes g).
Proof.
  intros (_ & Hnames & _). unfold dict_values, dict_keys.
  induction (nodes g) as [|[k n] d IH]; [done|].
  apply Forall_cons in Hnames as [Hk Hd]. rewrite !fmap_cons.
  rewrite (IH Hd). simpl in *. f_equal. unfold node_name. by rewrite Hk.
Qed.

Lemma graph_wf_NoDup {R} (g : Graph R) h :
  graph_wf g h → NoDup (dict_values (nodes g)).
Proof.
  intros Hwf. apply (NoDup_fmap_1 (node_name h)).
  rewrite (graph_wf_names g h Hwf). apply Hwf.
Qed.

Lemma graph_wf_alive {R} (g : Graph R) h n :
  graph_wf g h → n ∈ dict_values (nodes g) → n < length h.
Proof.
  intros (_ & Hnames & _) Hn. unfold dict_values in Hn.
  apply list_elem_of_fmap in Hn as ([k n'] & -> & Hin).
  rewrite Forall_forall in Hnames. specialize (Hnames _ Hin). simpl in *.
  destruct (h !! n') eqn:Hl; [|discriminate].
  by apply lookup_lt_Some in Hl.
Qed.

Lemma graph_wf_parent {R} (g : Graph R) h n q :
  graph_wf g h → n ∈ dict_values (nodes g) → q ∈ node_parents h n →
  ∃ p, q = PNode p ∧ p ∈ dict_values (nodes g).
Proof.
  intros (_ & _ & Hclosed) Hn Hq.
  rewrite Forall_forall in Hclosed. specialize (Hclosed n Hn).
  rewrite Forall_forall in Hclosed. specialize (Hclosed q Hq).
  destruct q as [s|p]; [done|]. eauto.
Qed.

Lemma append_child_loop_Ok node ps : ∀ h,
  Forall (λ q, ∃ p, q = PNode p) ps → ∃ h', foldM (append_child node) h ps = Ok h'.
Proof.
  induction ps as [|q ps IH]; intros h Hps; [by eexists|].
  apply Forall_cons in Hps as [[p ->] Hps]. simpl. by apply IH.
Qed.

Lemma update_children_Ok ns : ∀ h,
  Forall (λ n, Forall (λ q, ∃ p, q = PNode p) (node_parents h n)) ns →
  ∃ h', update_children ns h = Ok h'.
Proof.
  unfold update_children.
  induction ns as [|n ns IH]; intros h Hns; [by eexists|].
  apply Forall_cons in Hns as [Hn Hns]. cbn [foldM].
  destruct (append_child_loop_Ok n (node_parents h n) h Hn) as [h1 H1].
  rewrite H1. cbn [rbind]. apply IH.
  pose proof (node_parents_more_children _ _ _ (append_child_loop _ _ _ _ H1)) as Hp.
  eapply Forall_impl; [exact Hns|]. intros m Hm. simpl. by rewrite Hp.
Qed.

Lemma dict_by_name_fresh h ns : ∀ d : dict node_id,
  NoDup (dict_keys d ++ (node_name h <$> ns)) →
  dict_by_name h d ns = d ++ ((λ n, (node_name h n, n)) <$> ns).
Proof.
  unfold dict_by_name.
  induction ns as [|n ns IH]; intros d Hnd; simpl.
  - by rewrite app_nil_r.
  - simpl in Hnd. rewrite dict_set_fresh.
    2:{ apply NoDup_app in Hnd as (_ & Hdisj & _). intros Hin.
        apply (Hdisj _ Hin). left. }
    rewrite IH.
    + by rewrite <- app_assoc.
    + unfold dict_keys in *. rewrite fmap_app. simpl.
      rewrite <- app_assoc. simpl.
      eapply NoDup_Permutation_proper; [|exact Hnd].
      apply Permutation_app_head. simpl. done.
Qed.

Lemma dict_values_by_name h (ns : list node_id) :
  dict_values ((λ n, (node_name h n, n)) <$> ns) = ns.
Proof.
  unfold dict_values. rewrite <- list_fmap_compose. apply list_fmap_id.
Qed.

Lemma dict_keys_by_name h (ns : list node_id) :
  dict_keys ((λ n, (node_name h n, n)) <$> ns) = node_name h <$> ns.
Proof. unfold dict_keys. by rewrite <- list_fmap_compose. Qed.

Lemma update_children_complete {R} (g : Graph R) h h' :
  graph_wf g h →
  update_children (dict_values (nodes g)) h = Ok h' →
  ∀ c p, c ∈ dict_values (nodes g) → PNode p ∈ node_parents h' c →
         p ∈ dict_values (nodes g) → c ∈ node_children h' p.
Proof.
  intros Hwf Hup c p Hc Hpar Hp.
  destruct (update_children_facts _ _ _ Hup) as (_ & Hparents & _ & Hchildren).
  rewrite Hchildren by (by eapply graph_wf_alive).
  apply elem_of_app. right. apply elem_of_children_added.
  split; [done|]. by rewrite <- Hparents.
Qed.

Lemma update_children_sound ns h h' :
  no_children h ns →
  update_children ns h = Ok h' →
  ∀ n c, n ∈ ns → c ∈ node_children h' n → c ∈ ns ∧ PNode n ∈ node_parents h' c.
Proof.
  intros Hno Hup n c Hn Hc.
  destruct (update_children_facts _ _ _ Hup) as (Hlen & Hparents & _ & Hchildren).
  destruct (decide (n < length h)) as [Hlt|Hge].
  - rewrite Hchildren in Hc by done.
    unfold no_children in Hno. rewrite Forall_forall in Hno.
    rewrite (Hno n Hn) in Hc. simpl in Hc.
    apply elem_of_children_added in Hc. by rewrite Hparents.
  - unfold node_children in Hc. rewrite lookup_ge_None_2 in Hc by lia.
    by apply elem_of_nil in Hc.
Qed.

(** C1: [done] orders the nodes so that every parent of a node comes
    before the node.  The nodes without parents (the parameter nodes) come
    first; in the whole sequence every parent of a node stands before it,
    and within the sequence of internal nodes every internal parent of a
    node stands before it.  [done] returns this order for every graph whose
    parent links have no cycle and that has a parameter node, as soon as
    the sort may run one pass per node. *)
Theorem Graph_done_parents_first {R} (g : Graph R) h fuel :
  graph_wf g h →
  (∀ h' g', Graph_done fuel g h = Ok (h', g') →
     ∃ ps internal,
       parameter_nodes g' = Some ps ∧
       dict_values (nodes g') = ps ++ internal ∧
       ps = filter (λ n, length (node_parents h' n) = 0) (dict_values (nodes g)) ∧
       ps ++ internal ≡ₚ dict_values (nodes g) ∧
       (∀ n p, n ∈ ps ++ internal → PNode p ∈ node_parents h' n →
               before (ps ++ internal) p n) ∧
       (∀ n p, n ∈ internal → PNode p ∈ node_parents h' n → p ∈ internal →
               before internal p n)) ∧
  (∀ rank,
     ranked rank h (dict_values (nodes g)) →
     no_children h (dict_values (nodes g)) →
     Exists (λ n, node_parents h n = []) (dict_values (nodes g)) →
     length (nodes g) ≤ fuel →
     ∃ h' g', Graph_done fuel g h = Ok (h', g')).
Proof.
  intros Hwf. set (ns := dict_values (nodes g)).
  pose proof (graph_wf_NoDup g h Hwf) as Hnd. fold ns in Hnd.
  split.
  - intros h' g' Hrun. unfold Graph_done in Hrun. fold ns in Hrun.
    apply bind_Ok in Hrun as (h1 & Hup & Hrun).
    apply bind_Ok in Hrun as ([ps internal] & Hsort & Hret).
    inversion Hret; subst h' g'; clear Hret. simpl.
    destruct (update_children_facts _ _ _ Hup) as (_ & Hparents & Hname & _).
    destruct (topological_sort_ordered fuel h1 ns ps internal Hnd
                (update_children_complete g h h1 Hwf Hup) Hsort)
      as (Hps & Hperm & Hbefore & Hinternal).
    assert (NoDup (node_name h1 <$> (ps ++ internal))) as Hnames.
    { rewrite Hperm. unfold ns.
      rewrite (list_fmap_ext (node_name h1) (node_name h)) by (intros; apply Hname).
      rewrite (graph_wf_names g h Hwf). apply Hwf. }
    rewrite fmap_app in Hnames.
    exists ps, internal. split; [done|]. split.
    { rewrite (dict_by_name_fresh h1 ps []).
      2:{ simpl. by apply NoDup_app in Hnames as (? & _ & _). }
      simpl. rewrite dict_by_name_fresh.
      2:{ by rewrite dict_keys_by_name. }
      pose proof (dict_values_by_name h1 ps) as Eps.
      pose proof (dict_values_by_name h1 internal) as Eint.
      unfold dict_values in *. rewrite fmap_app. by rewrite Eps, Eint. }
    split; [done|]. split; [done|]. split; [|done].
    intros n p Hn Hpar. rewrite Hperm in Hn.
    apply Hbefore; [done..|].
    rewrite Hparents in Hpar.
    destruct (graph_wf_parent g h n _ Hwf Hn Hpar) as (p' & Heq & Hp').
    by inversion Heq; subst.
  - intros rank Hrank Hno Hparam Hfuel. fold ns in Hrank, Hno, Hparam.
    destruct (update_children_Ok ns h) as [h1 Hup].
    { apply Forall_forall. intros n Hn. apply Forall_forall. intros q Hq.
      destruct (graph_wf_parent g h n q Hwf Hn Hq) as (p & -> & _). eauto. }
    destruct (update_children_facts _ _ _ Hup) as (_ & Hparents & _ & _).
    destruct (topological_sort_returns rank fuel h1 ns) as (ps & internal & Hsort).
    + done.
    + unfold ranked in *. eapply Forall_impl; [exact Hrank|].
      intros n Hn. simpl in *. by rewrite Hparents.
    + by apply update_children_sound with (h := h).
    + eapply Exists_impl; [exact Hparam|]. intros n Hn. simpl in *.
      by rewrite Hparents.
    + unfold ns, dict_values. by rewrite length_fmap.
    + unfold Graph_done. fold ns. rewrite Hup. cbn [rbind]. rewrite Hsort.
      cbn [rbind]. eauto.
Qed.

(** Settle a decidable statement about concrete data by evaluation. *)
Ltac by_evaluation := refine (bool_decide_unpack _ _); vm_compute; exact I.

Lemma Graph_done_parents_first_witness :
  graph_wf diamond_graph diamond_heap ∧
  ∃ h' g', Graph_done 4 diamond_graph diamond_heap = Ok (h', g') ∧
    ∃ ps internal,
      parameter_nodes g' = Some ps ∧
      dict_values (nodes g') = ps ++ internal ∧
      ps = filter (λ n, length (node_parents h' n) = 0) (dict_values (nodes diamond_graph)) ∧
      ps ++ internal ≡ₚ dict_values (nodes diamond_graph) ∧
      (∀ n p, n ∈ ps ++ internal → PNode p ∈ node_parents h' n →
              before (ps ++ internal) p n) ∧
      (∀ n p, n ∈ internal → PNode p ∈ node_parents h' n → p ∈ internal →
              before internal p n).
Proof.
  assert (Hwf : graph_wf diamond_graph diamond_heap).
  { by_evaluation. }
  split; [exact Hwf|].
  destruct (Graph_done_parents_first diamond_graph diamond_heap 4 Hwf) as [Hord Hret].
  destruct (Hret (λ n, n)) as (h' & g' & Hrun).
  - by_evaluation.
  - by_evaluation.
  - by_evaluation.
  - simpl. lia.
  - exists h', g'. split; [exact Hrun|]. exact (Hord h' g' Hrun).
Defined.

(** ** Which exceptions a call can raise *)

Lemma raises_only_bind {A B} (P : exn → Prop) (m : result A) (f : A → result B) :
  raises_only P m → (∀ a, m = Ok a → raises_only P (f a)) → raises_only P (rbind m f).
Proof. destruct m; simpl; auto. Qed.

Lemma raises_only_foldM {A S} (P : exn → Prop) (f : S → A → result S) l : ∀ st,
  (∀ st x, raises_only P (f st x)) → raises_only P (foldM f st l).
Proof.
  induction l as [|x l IH]; intros st Hf; simpl; [done|].
  apply raises_only_bind; [apply Hf|]. intros. by apply IH.
Qed.

Lemma raises_only_mapM {A B} (P : exn → Prop) (f : A → result B) l :
  (∀ x, raises_only P (f x)) → raises_only P (mapM_r f l).
Proof.
  intros Hf. induction l as [|x l IH]; simpl; [done|].
  apply raises_only_bind; [apply Hf|]. intros.
  apply raises_only_bind; [apply IH|]. done.
Qed.

Lemma raises_only_or_raise {A} (P : exn → Prop) (o : option A) e :
  P e → raises_only P (o ?! e).
Proof. by destruct o. Qed.

Lemma raises_only_impl {A} (P Q : exn → Prop) (r : result A) :
  (∀ e, P e → Q e) → raises_only P r → raises_only Q r.
Proof. destruct r; simpl; auto. Qed.

Section PropFacts.
Context {R : Type} `{!Scalar R}.
Implicit Types (cells : gmap nat (Tensor R)) (parameter_table : dict (Tensor R)).

Lemma np_elementwise_raises f (A B : Tensor R) :
  raises_only (λ e, e = ValueError) (np_elementwise f A B).
Proof. unfold np_elementwise. by destruct (broadcast_shapes _ _). Qed.

Lemma np_matmul_raises (A B : Tensor R) :
  raises_only (λ e, e = ValueError) (np_matmul A B).
Proof.
  unfold np_matmul. repeat case_match; simpl; done.
Qed.

Lemma np_dot_raises (A B : Tensor R) :
  raises_only (λ e, e = ValueError) (np_dot A B).
Proof.
  unfold np_dot. repeat case_match; simpl; try done;
    apply np_elementwise_raises.
Qed.

Lemma op_forward_raises cells op args :
  raises_only (λ e, e = ValueError ∨ e = TypeError ∨ e = AttributeError)
              (op_forward cells op args).
Proof.
  unfold op_forward.
  repeat case_match; simpl; try tauto;
    try (apply raises_only_or_raise; tauto);
    (eapply raises_only_impl;
       [|first [apply np_elementwise_raises | apply np_matmul_raises | apply np_dot_raises]]);
    simpl; tauto.
Qed.

Lemma parent_activation_raises h (ot : gmap string (Tensor R)) p :
  raises_only lookup_error (parent_activation h ot p).
Proof.
  destruct p; simpl; [by right|]. apply raises_only_or_raise. by left.
Qed.

Lemma assign_parameter_raises nodes h cells entry :
  raises_only lookup_error (assign_parameter nodes h cells entry).
Proof.
  destruct entry as [k t]. unfold assign_parameter.
  apply raises_only_bind; [apply raises_only_or_raise; by left|].
  intros n _. unfold op_assign. destruct (node_op h n); simpl; try done; by right.
Qed.

(** [prop] does not raise [MissingParameter]. *)
Lemma prop_raises nodes h cells parameter_table :
  raises_only (λ e, e ≠ MissingParameter) (prop nodes h cells parameter_table).
Proof.
  unfold prop.
  apply raises_only_bind.
  { apply raises_only_foldM. intros st x.
    eapply raises_only_impl; [|apply assign_parameter_raises].
    intros e [-> | ->]; done. }
  intros cells' _. apply raises_only_bind.
  { apply raises_only_foldM. intros ot [k n]. unfold prop_step.
    apply raises_only_bind.
    { apply raises_only_mapM. intros p.
      eapply raises_only_impl; [|apply parent_activation_raises].
      intros e [-> | ->]; done. }
    intros args _. apply raises_only_bind; [|done].
    eapply raises_only_impl; [|apply op_forward_raises].
    intros e [-> | [-> | ->]]; done. }
  intros ot _. apply raises_only_bind; [by apply raises_only_or_raise|].
  intros k _. apply raises_only_bind; [by apply raises_only_or_raise|]. done.
Qed.

Lemma check_parameters_outcome h parameter_table ps :
  foldM (check_parameter h parameter_table) () ps =
  if decide (Forall (λ i, node_name h i ∈ dict_keys parameter_table) ps)
  then Ok () else Raise MissingParameter.
Proof.
  induction ps as [|i ps IH]; cbn [foldM].
  - destruct (decide _) as [|Hn]; [done|]. by destruct Hn.
  - unfold check_parameter at 1.
    destruct (dict_mem (node_name h i) parameter_table) eqn:Hm; cbn [rbind].
    + apply dict_mem_true in Hm. rewrite IH.
      destruct (decide (Forall _ ps)) as [Hps|Hps];
        destruct (decide (Forall _ (i :: ps))) as [Hall|Hall]; try done.
      * destruct Hall. by constructor.
      * apply Forall_cons in Hall as [_ ?]. done.
    + apply dict_mem_false in Hm.
      destruct (decide (Forall _ (i :: ps))) as [Hall|Hall]; [|done].
      apply Forall_cons in Hall as [? _]. done.
Qed.

End PropFacts.

(** ** Graph.forward *)

(** C5 (as stated, refuted): the graph with the single parameter node X
    is finalized and the assignment supplies X, but its extra entry is
    not ignored: [prop] looks up the node of every entry of the
    assignment, and forward fails with [KeyError]. *)
Lemma Graph_forward_extra_entry_fails :
  let X := mkTensor [2] [1; 2]%Z in
  let parameter_table := [("X", X); ("extra", X)] in
  ∃ g, Graph_done 1 single_graph single_heap = Ok (single_heap, g) ∧
       parameter_nodes g = Some [0] ∧
       Forall (λ i, node_name single_heap i ∈ dict_keys parameter_table) [0] ∧
       Graph_forward g single_heap ∅ parameter_table = Raise KeyError.
Proof.
  eexists. split; [reflexivity|]. split; [reflexivity|]. split.
  - repeat constructor.
  - reflexivity.
Qed.

(** ** Backpropagation *)

Lemma mapM_r_Ok_impl {A B} (f f' : A → result B) l ys :
  (∀ x y, x ∈ l → f x = Ok y → f' x = Ok y) →
  mapM_r f l = Ok ys → mapM_r f' l = Ok ys.
Proof.
  revert ys. induction l as [|x l IH]; intros ys Hf Hrun; [done|].
  simpl in *. apply bind_Ok in Hrun as (y & Hy & Hrun).
  apply bind_Ok in Hrun as (ys' & Hys & Hret).
  rewrite (Hf x y) by (done || left). simpl.
  rewrite (IH ys'); [done| |done].
  intros x' y' Hx'. apply Hf. by right.
Qed.

Lemma mapM_r_snoc {A B} (f : A → result B) l x ys y :
  mapM_r f l = Ok ys → f x = Ok y → mapM_r f (l ++ [x]) = Ok (ys ++ [y]).
Proof.
  revert ys. induction l as [|a l IH]; intros ys Hl Hx; simpl in *.
  - inversion Hl; subst. by rewrite Hx.
  - apply bind_Ok in Hl as (b & Hb & Hl).
    apply bind_Ok in Hl as (ys' & Hys & Hret). inversion Hret; subst.
    rewrite Hb. simpl. by rewrite (IH ys').
Qed.

Lemma NoDup_fmap_inj {A B} (f : A → B) (l : list A) x y :
  NoDup (f <$> l) → x ∈ l → y ∈ l → f x = f y → x = y.
Proof.
  induction l as [|a l IH]; intros Hnd Hx Hy Hf.
  - by apply elem_of_nil in Hx.
  - rewrite fmap_cons in Hnd. apply NoDup_cons in Hnd as [Ha Hnd].
    apply elem_of_cons in Hx as [->|Hx]; apply elem_of_cons in Hy as [->|Hy].
    + done.
    + exfalso. apply Ha. rewrite Hf. apply list_elem_of_fmap. eauto.
    + exfalso. apply Ha. rewrite <- Hf. apply list_elem_of_fmap. eauto.
    + by apply IH.
Qed.

Section BackpropFacts.
Context {R : Type} `{!Scalar R}.
Variable h : heap.
Variable ot : gmap string (Tensor R).
Variable rank : node_id → nat.
Variable ns : list node_id.
Hypothesis Hwf : backprop_wf h rank ns.

Implicit Types (t : gmap string (list (Tensor R)) * gmap string (Tensor R)).

Lemma name_inj m m' :
  m ∈ ns → m' ∈ ns → node_name h m = node_name h m' → m = m'.
Proof. destruct Hwf as [Hnd _]. by apply NoDup_fmap_inj. Qed.

Lemma child_in n c :
  n ∈ ns → c ∈ node_children h n → c ∈ ns ∧ rank n < rank c.
Proof.
  destruct Hwf as [_ Hch]. intros Hn Hc.
  rewrite Forall_forall in Hch. specialize (Hch n Hn).
  rewrite Forall_forall in Hch. by apply Hch.
Qed.

Lemma backward_of_mono (gt gt' : gmap string (Tensor R)) c gs :
  gt ⊆ gt' → backward_of h ot gt c = Ok gs → backward_of h ot gt' c = Ok gs.
Proof.
  intros Hsub Hb. unfold backward_of in *.
  destruct (gt !! node_name h c) as [g|] eqn:Hg; [|discriminate].
  by rewrite (lookup_weaken _ _ _ _ Hg Hsub).
Qed.

Lemma cached_component_mono (pgt pgt' : gmap string (list (Tensor R))) node c g :
  pgt ⊆ pgt' → cached_component h pgt node c = Ok g →
  cached_component h pgt' node c = Ok g.
Proof.
  intros Hsub Hc. unfold cached_component in *.
  destruct (pgt !! node_name h c) as [gs|] eqn:Hgs; [|discriminate].
  by rewrite (lookup_weaken _ _ _ _ Hgs Hsub).
Qed.

Lemma cached_sum_mono (pgt pgt' : gmap string (list (Tensor R))) node g :
  pgt ⊆ pgt' → cached_sum h pgt node = Ok g → cached_sum h pgt' node = Ok g.
Proof.
  intros Hsub Hc. unfold cached_sum in *.
  apply bind_Ok in Hc as (gs & Hgs & Hsum).
  rewrite (mapM_r_Ok_impl (cached_component h pgt node)
             (cached_component h pgt' node) _ gs); [done| |done].
  intros c g' _. by apply cached_component_mono.
Qed.

Lemma tables_grow_refl t : tables_grow t t.
Proof. split; done. Qed.

Lemma tables_grow_trans t1 t2 t3 :
  tables_grow t1 t2 → tables_grow t2 t3 → tables_grow t1 t3.
Proof. intros [? ?] [? ?]. split; by etrans. Qed.

(** Caching the input gradients of a consumer whose gradient is recorded
    keeps the tables consistent. *)
Lemma tables_inv_cache t c gs :
  tables_inv h ot ns t → c ∈ ns →
  t.1 !! node_name h c = None →
  backward_of h ot t.2 c = Ok gs →
  tables_inv h ot ns (<[node_name h c := gs]> t.1, t.2).
Proof.
  intros (Hpgt & Hogt & Hdom) Hc Hnone Hb. split; [|split]; simpl.
  - intros c' gs' Hc' Hl. destruct (decide (node_name h c = node_name h c')) as [Heq|Hne].
    + rewrite Heq, lookup_insert_eq in Hl. inversion Hl; subst gs'.
      by rewrite <- (name_inj c c' Hc Hc' Heq).
    + rewrite lookup_insert_ne in Hl by done. by apply Hpgt.
  - intros n g Hn Hl. destruct (Hogt n g Hn Hl) as [?|Hsum]; [by left|right].
    eapply cached_sum_mono; [|exact Hsum]. by apply insert_subseteq.
  - done.
Qed.

(** Recording the sum of the cached components as the gradient of a node
    keeps the tables consistent. *)
Lemma tables_inv_record t n g :
  tables_inv h ot ns t → n ∈ ns →
  t.2 !! node_name h n = None →
  cached_sum h t.1 n = Ok g →
  tables_inv h ot ns (t.1, <[node_name h n := g]> t.2).
Proof.
  intros (Hpgt & Hogt & Hdom) Hn Hnone Hsum. split; [|split]; simpl.
  - intros c gs Hc Hl. eapply backward_of_mono; [by apply insert_subseteq|].
    by apply Hpgt.
  - intros n' g' Hn' Hl. destruct (decide (node_name h n = node_name h n')) as [Heq|Hne].
    + rewrite Heq, lookup_insert_eq in Hl. inversion Hl; subst g'.
      rewrite <- (name_inj n n' Hn Hn' Heq). by right.
    + rewrite lookup_insert_ne in Hl by done. by apply Hogt.
  - intros k Hk. destruct (decide (node_name h n = k)) as [<-|Hne].
    + apply list_elem_of_fmap. eauto.
    + rewrite lookup_insert_ne in Hk by done. by apply Hdom.
Qed.

Lemma or_raise_Ok {A} (o : option A) e a : o ?! e = Ok a → o = Some a.
Proof. destruct o; simpl; congruence. Qed.

Lemma consumer_step_spec rec node c cgs t cgs' t' processed :
  build_grad_post h ot rank ns rec →
  node ∈ ns → c ∈ ns → rank node < rank c →
  tables_inv h ot ns t →
  mapM_r (cached_component h t.1 node) processed = Ok cgs →
  consumer_step rec h ot node (cgs, t) c = Ok (cgs', t') →
  tables_inv h ot ns t' ∧ tables_grow t t' ∧
  (∀ m, m ∈ ns → rank m ≤ rank node →
        t'.2 !! node_name h m = t.2 !! node_name h m ∧
        t'.1 !! node_name h m = t.1 !! node_name h m) ∧
  mapM_r (cached_component h t'.1 node) (processed ++ [c]) = Ok cgs'.
Proof.
  intros Hrec Hnode Hc Hrank Hinv Hdone Hstep.
  destruct t as [pgt ogt]. unfold consumer_step in Hstep.
  apply bind_Ok in Hstep as (idx & Hidx & Hstep). apply or_raise_Ok in Hidx.
  simpl in Hdone.
  destruct (pgt !! node_name h c) as [gs|] eqn:Hcache.
  - apply bind_Ok in Hstep as (g & Hg & Hret). apply or_raise_Ok in Hg.
    inversion Hret; subst cgs' t'; clear Hret.
    split; [done|]. split; [apply tables_grow_refl|]. split; [done|].
    apply mapM_r_snoc; [done|]. unfold cached_component, component_for.
    simpl. rewrite Hcache. simpl. rewrite Hidx. simpl. by rewrite Hg.
  - apply bind_Ok in Hstep as (acts & Hacts & Hstep).
    apply bind_Ok in Hstep as ([cog [pgt1 ogt1]] & Hcall & Hstep).
    apply bind_Ok in Hstep as (cpg & Hback & Hstep). simpl in Hstep.
    destruct (cpg !! idx) as [g|] eqn:Hg; [|discriminate].
    inversion Hstep; subst cgs' t'; clear Hstep.
    destruct (Hrec c (pgt, ogt) cog (pgt1, ogt1) Hc Hinv Hcall)
      as (Hinv1 & [Hgrow1 Hgrow2] & Hcog & [Hframe2 Hframe1]).
    simpl in *.
    assert (pgt1 !! node_name h c = None) as Hnone.
    { rewrite Hframe1 by done. done. }
    assert (backward_of h ot ogt1 c = Ok cpg) as Hbo.
    { unfold backward_of. rewrite Hcog. simpl. rewrite Hacts. simpl. done. }
    assert (pgt ⊆ <[node_name h c := cpg]> pgt1) as Hsub.
    { etrans; [exact Hgrow1|]. by apply insert_subseteq. }
    split; [|split; [|split]].
    + by apply (tables_inv_cache (pgt1, ogt1)).
    + split; simpl; done.
    + intros m Hm Hle. split.
      * apply Hframe2; [done|lia].
      * rewrite lookup_insert_ne.
        -- apply Hframe1; [done|lia].
        -- intros Heq. apply (name_inj c m Hc Hm) in Heq. subst. lia.
    + apply mapM_r_snoc.
      * eapply mapM_r_Ok_impl; [|exact Hdone].
        intros x y _. by apply cached_component_mono.
      * unfold cached_component, component_for.
        rewrite lookup_insert_eq. simpl. rewrite Hidx. simpl. by rewrite Hg.
Qed.

Lemma consumer_loop_spec rec node cs : ∀ processed cgs t cgs' t',
  build_grad_post h ot rank ns rec →
  node ∈ ns →
  Forall (λ c, c ∈ ns ∧ rank node < rank c) cs →
  tables_inv h ot ns t →
  mapM_r (cached_component h t.1 node) processed = Ok cgs →
  foldM (consumer_step rec h ot node) (cgs, t) cs = Ok (cgs', t') →
  tables_inv h ot ns t' ∧ tables_grow t t' ∧
  (∀ m, m ∈ ns → rank m ≤ rank node →
        t'.2 !! node_name h m = t.2 !! node_name h m ∧
        t'.1 !! node_name h m = t.1 !! node_name h m) ∧
  mapM_r (cached_component h t'.1 node) (processed ++ cs) = Ok cgs'.
Proof.
  induction cs as [|c cs IH]; intros processed cgs t cgs' t' Hrec Hnode Hcs Hinv Hdone Hloop.
  - inversion Hloop; subst. rewrite app_nil_r.
    split; [done|]. split; [apply tables_grow_refl|]. done.
  - apply Forall_cons in Hcs as [[Hc Hrank] Hcs].
    cbn [foldM] in Hloop. apply bind_Ok in Hloop as ([cgs1 t1] & Hstep & Hloop).
    destruct (consumer_step_spec rec node c cgs t cgs1 t1 processed
                Hrec Hnode Hc Hrank Hinv Hdone Hstep)
      as (Hinv1 & Hgrow1 & Hframe1 & Hdone1).
    destruct (IH (processed ++ [c]) cgs1 t1 cgs' t' Hrec Hnode Hcs Hinv1 Hdone1 Hloop)
      as (Hinv' & Hgrow' & Hframe' & Hdone').
    split; [done|]. split; [by eapply tables_grow_trans|]. split.
    + intros m Hm Hle. destruct (Hframe1 m Hm Hle) as [E1 E2].
      destruct (Hframe' m Hm Hle) as [E3 E4]. split; congruence.
    + by rewrite <- app_assoc in Hdone'.
Qed.

(** [build_grad] keeps the tables consistent, whatever the fuel. *)
Lemma build_grad_spec fuel :
  build_grad_post h ot rank ns (build_grad fuel h ot).
Proof.
  induction fuel as [|fuel IH]; intros node t g t' Hnode Hinv Hrun; [discriminate|].
  destruct t as [pgt ogt]. cbn [build_grad] in Hrun. cbn [snd] in Hrun.
  destruct (ogt !! node_name h node) as [g0|] eqn:Hmemo.
  - inversion Hrun; subst g t'; clear Hrun.
    split; [done|]. split; [apply tables_grow_refl|]. split; [done|]. split; done.
  - apply bind_Ok in Hrun as ([cgs [pgt1 ogt1]] & Hloop & Hrun).
    apply bind_Ok in Hrun as (total & Hsum & Hret).
    inversion Hret; subst g t'; clear Hret. simpl.
    destruct (consumer_loop_spec (build_grad fuel h ot) node (node_children h node)
                [] [] (pgt, ogt) cgs (pgt1, ogt1) IH Hnode) as
      (Hinv1 & [Hgrow1 Hgrow2] & Hframe & Hcomps); try done.
    { apply Forall_forall. intros c Hc. by apply child_in. }
    simpl in *.
    destruct (Hframe node Hnode (Nat.le_refl _)) as [Hogt1 Hpgt1].
    assert (ogt1 !! node_name h node = None) as Hnone by (by rewrite Hogt1).
    split; [|split; [|split; [|split]]]; simpl.
    + apply (tables_inv_record (pgt1, ogt1)); try done.
      unfold cached_sum. simpl. rewrite Hcomps. done.
    + split; simpl; [done|]. etrans; [exact Hgrow2|]. by apply insert_subseteq.
    + by rewrite lookup_insert_eq.
    + intros m Hm Hlt. rewrite lookup_insert_ne.
      * apply Hframe; [done|lia].
      * intros Heq. apply (name_inj node m Hnode Hm) in Heq. subst. lia.
    + intros m Hm Hle. by apply Hframe.
Qed.

(** The seeds: every recorded gradient is all ones, shaped like the
    activation of the same name. *)
Lemma seed_loop_spec sinks : ∀ ogt ogt' : gmap string (Tensor R),
  foldM (seed_sink h ot) ogt sinks = Ok ogt' →
  (∀ k v, ogt !! k = Some v → ∃ act, ot !! k = Some act ∧ v = np_ones (shape act)) →
  (∀ k v, ogt' !! k = Some v → ∃ act, ot !! k = Some act ∧ v = np_ones (shape act)) ∧
  (∀ k, is_Some (ogt' !! k) ↔ is_Some (ogt !! k) ∨ k ∈ node_name h <$> sinks).
Proof.
  induction sinks as [|s sinks IH]; intros ogt ogt' Hrun Hones.
  - inversion Hrun; subst. split; [done|]. intros k. rewrite fmap_nil, elem_of_nil. tauto.
  - cbn [foldM] in Hrun. apply bind_Ok in Hrun as (ogt1 & Hseed & Hrun).
    unfold seed_sink in Hseed. apply bind_Ok in Hseed as (act & Hact & Hret).
    apply or_raise_Ok in Hact. inversion Hret; subst ogt1; clear Hret.
    destruct (IH _ _ Hrun) as [Hones' Hdom].
    { intros k v Hl. destruct (decide (node_name h s = k)) as [<-|Hne].
      - rewrite lookup_insert_eq in Hl. inversion Hl; subst. eauto.
      - rewrite lookup_insert_ne in Hl by done. eauto. }
    split; [done|]. intros k. rewrite Hdom, fmap_cons, elem_of_cons.
    destruct (decide (node_name h s = k)) as [<-|Hne].
    + rewrite lookup_insert_eq. split; [intros _; right; by left|eauto].
    + rewrite lookup_insert_ne by done. split; [tauto|].
      intros [?|[?|?]]; [tauto|congruence|tauto].
Qed.

Lemma build_loop_spec fuel l : ∀ t t',
  l ⊆ ns →
  tables_inv h ot ns t →
  foldM (build_grad_each fuel h ot) t l = Ok t' →
  tables_inv h ot ns t' ∧ tables_grow t t' ∧
  ∀ n, n ∈ l → is_Some (t'.2 !! node_name h n).
Proof.
  induction l as [|n l IH]; intros t t' Hsub Hinv Hrun.
  - inversion Hrun; subst. split; [done|]. split; [apply tables_grow_refl|].
    intros n Hn. by apply elem_of_nil in Hn.
  - cbn [foldM] in Hrun. apply bind_Ok in Hrun as (t1 & Hstep & Hrun).
    unfold build_grad_each in Hstep. apply bind_Ok in Hstep as ([g t1'] & Hcall & Hret).
    inversion Hret; subst t1; clear Hret. simpl in Hrun.
    assert (n ∈ ns) as Hn by (apply Hsub; left).
    destruct (build_grad_spec fuel n t g t1' Hn Hinv Hcall) as (Hinv1 & Hgrow1 & Hg & _).
    destruct (IH t1' t') as (Hinv' & Hgrow' & Hall); [|done..|].
    { intros x Hx. apply Hsub. by right. }
    split; [done|]. split; [by eapply tables_grow_trans|].
    intros m Hm. apply elem_of_cons in Hm as [->|Hm]; [|by apply Hall].
    exists g. destruct Hgrow' as [_ Hsub2]. by eapply lookup_weaken.
Qed.

(** What [backprop] returns on the nodes [ns]: a gradient for every node
    and for nothing else; all ones at a node without consumers;
    elsewhere the sum of the components its consumers back-propagate. *)
Lemma backprop_spec fuel gt :
  backprop fuel h ns ot = Ok gt →
  (∀ k, is_Some (gt !! k) ↔ k ∈ node_name h <$> ns) ∧
  (∀ n, n ∈ ns → node_children h n = [] →
        ∃ act, ot !! node_name h n = Some act ∧
               gt !! node_name h n = Some (np_ones (shape act))) ∧
  (∀ n, n ∈ ns → node_children h n ≠ [] →
        ∃ g, gt !! node_name h n = Some g ∧ consumers_sum h ot gt n = Ok g).
Proof.
  intros Hrun. unfold backprop in Hrun.
  apply bind_Ok in Hrun as (ogt0 & Hseed & Hrun).
  apply bind_Ok in Hrun as ([pgt ogt] & Hloop & Hret).
  inversion Hret; subst gt; clear Hret.
  destruct (seed_loop_spec _ _ _ Hseed) as [Hones Hdom0].
  { intros k v Hl. by rewrite lookup_empty in Hl. }
  assert (Hsinks : ∀ n, n ∈ ns → is_Some (ogt0 !! node_name h n) → node_children h n = []).
  { intros n Hn Hs. apply Hdom0 in Hs as [Hs|Hs].
    - rewrite lookup_empty in Hs. by destruct Hs.
    - apply list_elem_of_fmap in Hs as (s & Heq & Hs).
      apply list_elem_of_filter in Hs as [Hlen Hs].
      rewrite (name_inj n s Hn Hs Heq). by destruct (node_children h s). }
  assert (tables_inv h ot ns (∅, ogt0)) as Hinv0.
  { split; [|split]; simpl.
    - intros c gs _ Hl. by rewrite lookup_empty in Hl.
    - intros n g Hn Hl. left. apply Hsinks; eauto.
    - intros k Hk. apply Hdom0 in Hk as [Hk|Hk].
      + rewrite lookup_empty in Hk. by destruct Hk.
      + apply list_elem_of_fmap in Hk as (s & -> & Hs).
        apply list_elem_of_filter in Hs as [_ Hs].
        apply list_elem_of_fmap. eauto. }
  destruct (build_loop_spec fuel ns (∅, ogt0) (pgt, ogt)) as
    ((Hpgt & Hogt & Hdom) & [_ Hgrow] & Hall); [done..|]. simpl in *.
  split; [|split].
  - intros k. split; [apply Hdom|]. intros Hk.
    apply list_elem_of_fmap in Hk as (n & -> & Hn). by apply Hall.
  - intros n Hn Hnil.
    assert (is_Some (ogt0 !! node_name h n)) as [v Hv].
    { apply Hdom0. right. apply list_elem_of_fmap. exists n. split; [done|].
      apply list_elem_of_filter. by rewrite Hnil. }
    destruct (Hones _ _ Hv) as (act & Hact & ->).
    exists act. split; [done|]. by eapply lookup_weaken.
  - intros n Hn Hchildren. destruct (Hall n Hn) as [g Hg]. exists g. split; [done|].
    destruct (Hogt n g Hn Hg) as [?|Hsum]; [done|].
    unfold cached_sum in Hsum. apply bind_Ok in Hsum as (gs & Hgs & Hsum).
    unfold consumers_sum.
    rewrite (mapM_r_Ok_impl (cached_component h pgt n) _ _ gs); [done| |done].
    intros c gc Hc Hcomp. unfold cached_component in Hcomp.
    apply bind_Ok in Hcomp as (cpg & Hcpg & Hcomp). apply or_raise_Ok in Hcpg.
    destruct (child_in n c Hn Hc) as [Hcns _].
    unfold contribution. by rewrite (Hpgt c cpg Hcns Hcpg).
Qed.






End BackpropFacts.

(** * Further properties of the code *)

(** ** update_children: what it appends, and when it fails *)

Lemma occurrences_app c l1 l2 :
  occurrences c (l1 ++ l2) = occurrences c l1 + occurrences c l2.
Proof. unfold occurrences. apply count_occ_app. Qed.

Lemma occurrences_cons c x l :
  occurrences c (x :: l) = (if decide (c = x) then 1 else 0) + occurrences c l.
Proof.
  unfold occurrences. simpl.
  destruct (Nat.eq_dec x c), (decide (c = x)); subst; done.
Qed.

Lemma slots_cons p q ps :
  slots p (q :: ps) = (if decide (q = PNode p) then 1 else 0) + slots p ps.
Proof.
  unfold slots. simpl.
  destruct (pyref_eq_dec q (PNode p)), (decide (q = PNode p)); subst; done.
Qed.

Lemma occurrences_slots_of c p node ps :
  occurrences c (slots_of p node ps) = if decide (c = node) then slots p ps else 0.
Proof.
  unfold slots_of. induction ps as [|q ps IH]; cbn [fmap list_fmap concat].
  - by destruct (decide (c = node)).
  - rewrite occurrences_app, IH, slots_cons.
    destruct (decide (q = PNode p)).
    + rewrite occurrences_cons. destruct (decide (c = node)); done.
    + by destruct (decide (c = node)).
Qed.

Lemma occurrences_children_added h ns p c :
  occurrences c (children_added h ns p) =
  occurrences c ns * slots p (node_parents h c).
Proof.
  unfold children_added. induction ns as [|n ns IH]; cbn [fmap list_fmap concat].
  - done.
  - rewrite occurrences_app, IH, occurrences_slots_of, occurrences_cons.
    destruct (decide (c = n)); subst; lia.
Qed.

(** X1: [update_children] appends a consumer to the children of a node
    once for every parent slot of the consumer that holds the node (and
    once more for every further time the consumer stands in [nodes]): a
    node that fills two slots of one consumer gets that consumer twice. *)
Theorem update_children_counts ns h h' p c :
  update_children ns h = Ok h' →
  p < length h →
  occurrences c (node_children h' p) =
  occurrences c (node_children h p) +
  occurrences c ns * slots p (node_parents h c).
Proof.
  intros Hrun Hp.
  destruct (update_children_facts _ _ _ Hrun) as (_ & _ & _ & Hchildren).
  rewrite (Hchildren p Hp), occurrences_app.
  by rewrite occurrences_children_added.
Qed.

Lemma update_children_counts_witness :
  ∃ h', update_children [0; 1] square_heap = Ok h' ∧
        occurrences 1 (node_children h' 0) = 2.
Proof.
  eexists. split; [reflexivity|].
  exact (update_children_counts [0; 1] square_heap _ 0 1 eq_refl ltac:(simpl; lia)).
Defined.

(** X2: [update_children] changes nothing but the lists of children, and
    these only by appending: the heap keeps its size, every node its
    name, operation and parents, and the children it had stay in front. *)
Theorem update_children_frame ns h h' :
  update_children ns h = Ok h' →
  length h' = length h ∧
  ∀ n, node_name h' n = node_name h n ∧
       node_op h' n = node_op h n ∧
       node_parents h' n = node_parents h n ∧
       node_children h n `prefix_of` node_children h' n.
Proof.
  intros Hrun.
  destruct (update_children_facts _ _ _ Hrun) as (Hlen & Hpar & Hname & Hch).
  split; [done|]. intros n. split; [done|]. split; [|split; [done|]].
  - unfold node_op. rewrite (update_children_lookup _ _ _ Hrun n).
    by destruct (h !! n).
  - destruct (decide (n < length h)) as [Hlt|Hge].
    + rewrite (Hch n Hlt). by apply prefix_app_r.
    + unfold node_children at 1. rewrite lookup_ge_None_2 by lia.
      apply prefix_nil.
Qed.

Lemma update_children_frame_witness :
  ∃ h', update_children [0; 1; 2; 3] diamond_heap = Ok h' ∧
        length h' = 4 ∧ node_parents h' 3 = [PNode 1; PNode 2].
Proof.
  eexists. split; [reflexivity|].
  destruct (update_children_frame [0; 1; 2; 3] diamond_heap _ eq_refl) as [Hlen Hn].
  split; [exact Hlen|]. exact (proj1 (proj2 (proj2 (Hn 3)))).
Defined.

Lemma is_node_ref_exists q : is_node_ref q ↔ ∃ p, q = PNode p.
Proof. destruct q; simpl; split; try done; [intros [? ?]; done | eauto]. Qed.

Lemma append_child_loop_string node ps : ∀ h,
  Exists (λ q, ¬ is_node_ref q) ps →
  foldM (append_child node) h ps = Raise AttributeError.
Proof.
  induction ps as [|q ps IH]; intros h Hex.
  - by apply Exists_nil in Hex.
  - destruct q as [s|i]; [reflexivity|].
    apply Exists_cons in Hex as [Hq|Hex]; [by destruct Hq|].
    cbn [foldM append_child rbind]. by apply IH.
Qed.

Lemma update_children_string ns : ∀ h,
  ¬ Forall (λ n, Forall is_node_ref (node_parents h n)) ns →
  update_children ns h = Raise AttributeError.
Proof.
  unfold update_children.
  induction ns as [|n ns IH]; intros h Hnot.
  - destruct Hnot. constructor.
  - cbn [foldM].
    destruct (decide (Forall is_node_ref (node_parents h n))) as [Hn|Hn].
    + destruct (append_child_loop_Ok n (node_parents h n) h) as [h1 H1].
      { eapply Forall_impl; [exact Hn|]. intros q. apply is_node_ref_exists. }
      rewrite H1. cbn [rbind]. apply IH. intros Hns. apply Hnot.
      constructor; [done|].
      pose proof (node_parents_more_children _ _ _ (append_child_loop _ _ _ _ H1)) as Hp.
      eapply Forall_impl; [exact Hns|]. intros m Hm. simpl in *. by rewrite <- Hp.
    + apply not_Forall_Exists in Hn; [|apply _].
      by rewrite (append_child_loop_string n _ h Hn).
Qed.

Lemma update_children_refs ns h :
  Forall (λ n, Forall is_node_ref (node_parents h n)) ns →
  ∃ h', update_children ns h = Ok h'.
Proof.
  intros Hall. apply update_children_Ok.
  eapply Forall_impl; [exact Hall|]. intros n Hn. simpl.
  eapply Forall_impl; [exact Hn|]. intros q. apply is_node_ref_exists.
Qed.

(** X3: [update_children] returns exactly when every parent of every
    node is a node object; a parent left as a string (as [add] leaves it
    in a sequence that starts with a node) makes it fail with
    [AttributeError]. *)
Theorem update_children_outcome ns h :
  (Forall (λ n, Forall is_node_ref (node_parents h n)) ns →
   ∃ h', update_children ns h = Ok h') ∧
  (¬ Forall (λ n, Forall is_node_ref (node_parents h n)) ns →
   update_children ns h = Raise AttributeError).
Proof.
  split; [apply update_children_refs | apply update_children_string].
Qed.

Lemma update_children_outcome_witness :
  (∃ h', update_children [0; 1] square_heap = Ok h') ∧
  update_children [0; 1] [mkNode "a" (OpValue 0) [] [];
                          mkNode "s" OpSum [PNode 0; PStr "a"] []]
    = Raise AttributeError.
Proof.
  split.
  - apply (update_children_outcome [0; 1] square_heap). by_evaluation.
  - apply (update_children_outcome [0; 1]). by_evaluation.
Defined.

(** ** topological_sort and done: the missing parameter node *)

Lemma sink_loop_no_raise fuel : ∀ h u l e, sink_loop fuel h u l ≠ Raise e.
Proof.
  induction fuel as [|fuel IH]; intros h u l e; destruct u as [|x u]; try done.
  cbn [sink_loop].
  destruct (sink_scan h (length (x :: u)) 0 (x :: u) l) as [u' l']. apply IH.
Qed.

Lemma filter_nil_Forall {A} (P : A → Prop) `{∀ x, Decision (P x)} (l : list A) :
  filter P l = [] ↔ Forall (λ x, ¬ P x) l.
Proof.
  induction l as [|x l IH]; [by split; [constructor|]|].
  rewrite Forall_cons. destruct (decide (P x)) as [Hx|Hx].
  - rewrite filter_cons_True by done. split; [done|]. intros [? _]. done.
  - rewrite filter_cons_False by done. rewrite IH. tauto.
Qed.

(** [topological_sort] fails with the assertion on input nodes exactly
    when no node has an empty list of parents; nothing else in it raises. *)
Lemma topological_sort_raise_cases fuel h ns :
  (topological_sort fuel h ns = Raise NoInputNodes ↔
   Forall (λ n, node_parents h n ≠ []) ns) ∧
  (∀ e, topological_sort fuel h ns = Raise e → e = NoInputNodes).
Proof.
  unfold topological_sort.
  set (ps := filter (λ n, length (node_parents h n) = 0) ns).
  assert (Hps : ps = [] ↔ Forall (λ n, node_parents h n ≠ []) ns).
  { unfold ps. rewrite filter_nil_Forall. apply Forall_proper; [|done].
    intros n. by destruct (node_parents h n). }
  destruct (decide (0 < length ps)) as [Hpos|Hzero].
  - pose proof (sink_loop_no_raise fuel h (filter (λ n, n ∉ ps) ns) []) as Hloop.
    destruct (sink_loop fuel h (filter (λ n, n ∉ ps) ns) []) eqn:Hl; simpl.
    + split; [|done]. split; [done|]. intros Hall. apply Hps in Hall.
      rewrite Hall in Hpos. simpl in Hpos. lia.
    + by destruct (Hloop e).
    + split; [|done]. split; [done|]. intros Hall. apply Hps in Hall.
      rewrite Hall in Hpos. simpl in Hpos. lia.
  - split; [|by intros e [= <-]]. split; [|done]. intros _. apply Hps.
    destruct ps; [done|simpl in Hzero; lia].
Qed.

(** X4: the exceptions of [done].  It fails with [AttributeError] exactly
    when some parent of a node of the graph is a string, and with the
    assertion on input nodes exactly when all parents are node objects but
    no node has an empty list of parents (the empty graph included); it
    raises nothing else. *)
Theorem Graph_done_errors {R} (g : Graph R) h fuel :
  let ns := dict_values (nodes g) in
  let all_refs := Forall (λ n, Forall is_node_ref (node_parents h n)) ns in
  (Graph_done fuel g h = Raise AttributeError ↔ ¬ all_refs) ∧
  (Graph_done fuel g h = Raise NoInputNodes ↔
   all_refs ∧ Forall (λ n, node_parents h n ≠ []) ns) ∧
  (∀ e, Graph_done fuel g h = Raise e → e = AttributeError ∨ e = NoInputNodes).
Proof.
  intros ns all_refs. unfold Graph_done. fold ns.
  destruct (decide all_refs) as [Hrefs|Hstr].
  - destruct (update_children_refs ns h Hrefs) as [h1 Hup]. rewrite Hup. cbn [rbind].
    destruct (update_children_facts _ _ _ Hup) as (_ & Hparents & _ & _).
    destruct (topological_sort_raise_cases fuel h1 ns) as [Hiff Honly].
    assert (Hsame : Forall (λ n, node_parents h1 n ≠ []) ns ↔
                    Forall (λ n, node_parents h n ≠ []) ns).
    { apply Forall_proper; [|done]. intros n. by rewrite Hparents. }
    destruct (topological_sort fuel h1 ns) as [[ps internal]|e|] eqn:Hsort; simpl.
    + split; [split; [done|tauto]|]. split; [|done].
      split; [done|]. intros [_ Hall]. apply Hsame, Hiff in Hall. done.
    + pose proof (Honly e eq_refl) as ->.
      split; [split; [done|tauto]|]. split; [|intros e' [= <-]; by right].
      split; [|done]. intros _. split; [done|]. by apply Hsame, Hiff.
    + split; [split; [done|tauto]|]. split; [|done].
      split; [done|]. intros [_ Hall]. apply Hsame, Hiff in Hall. done.
  - rewrite (update_children_string ns h Hstr). simpl.
    split; [tauto|]. split; [|intros e [= <-]; by left].
    split; [done|]. tauto.
Qed.

(** ** done keeps the graph; add keeps it well-formed *)

Lemma Graph_done_Ok_inv {R} (g : Graph R) h fuel h' g' :
  graph_wf g h →
  Graph_done fuel g h = Ok (h', g') →
  ∃ ps internal,
    update_children (dict_values (nodes g)) h = Ok h' ∧
    topological_sort fuel h' (dict_values (nodes g)) = Ok (ps, internal) ∧
    nodes g' = (λ n, (node_name h' n, n)) <$> (ps ++ internal) ∧
    ps ++ internal ≡ₚ dict_values (nodes g) ∧
    NoDup (dict_keys (nodes g')) ∧
    parameter_nodes g' = Some ps ∧
    graph_name g' = graph_name g ∧
    output_table g' = output_table g.
Proof.
  intros Hwf Hrun. set (ns := dict_values (nodes g)).
  pose proof (graph_wf_NoDup g h Hwf) as Hnd. fold ns in Hnd.
  unfold Graph_done in Hrun. fold ns in Hrun.
  apply bind_Ok in Hrun as (h1 & Hup & Hrun).
  apply bind_Ok in Hrun as ([ps internal] & Hsort & Hret).
  inversion Hret; subst h' g'; clear Hret. simpl.
  destruct (update_children_facts _ _ _ Hup) as (_ & Hparents & Hname & _).
  destruct (topological_sort_ordered fuel h1 ns ps internal Hnd
              (update_children_complete g h h1 Hwf Hup) Hsort)
    as (Hps & Hperm & _ & _).
  assert (NoDup (node_name h1 <$> (ps ++ internal))) as Hnames.
  { rewrite Hperm. unfold ns.
    rewrite (list_fmap_ext (node_name h1) (node_name h)) by (intros; apply Hname).
    rewrite (graph_wf_names g h Hwf). apply Hwf. }
  assert (dict_by_name h1 (dict_by_name h1 [] ps) internal =
          (λ n, (node_name h1 n, n)) <$> (ps ++ internal)) as Hnodes.
  { rewrite fmap_app in Hnames.
    rewrite (dict_by_name_fresh h1 ps []).
    2:{ simpl. by apply NoDup_app in Hnames as (? & _ & _). }
    simpl. rewrite dict_by_name_fresh by (by rewrite dict_keys_by_name).
    by rewrite fmap_app. }
  exists ps, internal. rewrite Hnodes.
  repeat split; try done. by rewrite dict_keys_by_name.
Qed.

(** X5: [done] only reorders the dictionary of nodes: every name still
    maps to the node it mapped to, no name is added, the name of the graph
    and its output table are kept, and the reordered graph is still
    well-formed. *)
Theorem Graph_done_keeps_nodes {R} (g : Graph R) h fuel h' g' :
  graph_wf g h →
  Graph_done fuel g h = Ok (h', g') →
  (∀ k, dict_get k (nodes g') = dict_get k (nodes g)) ∧
  graph_name g' = graph_name g ∧
  output_table g' = output_table g ∧
  graph_wf g' h'.
Proof.
  intros Hwf Hrun.
  destruct (Graph_done_Ok_inv g h fuel h' g' Hwf Hrun)
    as (ps & internal & Hup & _ & Hnodes & Hperm & Hnd & _ & Hgn & Hot).
  destruct (update_children_facts _ _ _ Hup) as (Hlen & Hparents & Hname & _).
  assert (Hin : ∀ k n, (k, n) ∈ nodes g' ↔ (k, n) ∈ nodes g).
  { intros k n. rewrite Hnodes, list_elem_of_fmap. split.
    - intros (m & [= -> ->] & Hm). rewrite Hperm in Hm.
      apply list_elem_of_fmap in Hm as ([k' m'] & -> & Hm). simpl.
      destruct Hwf as (_ & Hnames & _). rewrite Forall_forall in Hnames.
      specialize (Hnames _ Hm). simpl in Hnames.
      rewrite Hname. unfold node_name. destruct (h !! m'); simpl in *; [|done].
      by inversion Hnames; subst.
    - intros Hkn. exists n. split.
      + f_equal. rewrite Hname.
        destruct Hwf as (_ & Hnames & _). rewrite Forall_forall in Hnames.
        specialize (Hnames _ Hkn). simpl in Hnames.
        unfold node_name. destruct (h !! n); simpl in *; [|done].
        by inversion Hnames.
      + rewrite Hperm. apply list_elem_of_fmap. by exists (k, n). }
  split; [|split; [done|split; [done|]]].
  - intros k. destruct (dict_get k (nodes g)) as [n|] eqn:Hg.
    + apply dict_get_NoDup; [done|]. apply Hin. by apply dict_get_Some_elem.
    + destruct (dict_get k (nodes g')) as [n|] eqn:Hg'; [|done].
      apply dict_get_Some_elem, Hin in Hg'.
      rewrite (dict_get_NoDup k n (nodes g)) in Hg; [done|apply Hwf|done].
  - assert (Hvals : dict_values (nodes g') ≡ₚ dict_values (nodes g)).
    { rewrite Hnodes. by rewrite dict_values_by_name. }
    split; [done|]. split.
    + apply Forall_forall. intros [k n] Hkn. simpl.
      apply Hin in Hkn. destruct Hwf as (_ & Hnames & _).
      rewrite Forall_forall in Hnames. specialize (Hnames _ Hkn). simpl in Hnames.
      rewrite (update_children_lookup _ _ _ Hup).
      destruct (h !! n); simpl in *; done.
    + rewrite Hvals. destruct Hwf as (_ & _ & Hclosed).
      eapply Forall_impl; [exact Hclosed|]. intros n Hn. simpl in *.
      rewrite Hparents. eapply Forall_impl; [exact Hn|].
      intros [s|p]; simpl; [done|]. by rewrite Hvals.
Qed.

Lemma Graph_done_keeps_nodes_witness :
  ∃ h' g', Graph_done 4 diamond_graph diamond_heap = Ok (h', g') ∧
           dict_get "C" (nodes g') = Some 2 ∧ graph_wf g' h'.
Proof.
  do 2 eexists. split; [reflexivity|].
  assert (Hwf : graph_wf diamond_graph diamond_heap) by by_evaluation.
  destruct (Graph_done_keeps_nodes diamond_graph diamond_heap 4 _ _ Hwf eq_refl)
    as (Hget & _ & _ & Hwf').
  split; [exact (Hget "C")|exact Hwf'].
Defined.

Lemma Graph_add_Ok_inv {R} (g : Graph R) h op name inputs h' g' node :
  Graph_add g h op name inputs = Ok (h', g', node) →
  ∃ input_nodes,
    (name ∉ dict_keys (nodes g)) ∧
    supplied_count inputs = num_inputs op ∧
    collect_parents (nodes g) inputs = Ok input_nodes ∧
    h' = h ++ [Node_init name op input_nodes] ∧
    g' = registered g name (length h) ∧
    node = length h.
Proof.
  unfold Graph_add. intros Hrun.
  destruct (dict_mem name (nodes g)) eqn:Hmem; [discriminate|].
  destruct (inputs_match op inputs) eqn:Hm; [|discriminate]. simpl in Hrun.
  apply bind_Ok in Hrun as (input_nodes & Hcollect & Hret).
  inversion Hret; subst. exists input_nodes. repeat split; try done.
  - by apply dict_mem_false.
  - by apply inputs_match_count.
Qed.

Lemma collect_parents_in_graph {R} (g : Graph R) inputs input_nodes :
  inputs_in_graph g inputs →
  collect_parents (nodes g) inputs = Ok input_nodes →
  Forall (parent_in (dict_values (nodes g))) (default [] input_nodes).
Proof.
  intros Hin Hcollect. destruct inputs as [[|[s|i] rest]|];
    unfold collect_parents, inputs_in_graph in *.
  - inversion Hcollect; subst. constructor.
  - rewrite (mapM_lookup_input (nodes g) (PStr s :: rest)) in Hcollect.
    destruct (mapM (named_node (nodes g)) (PStr s :: rest)) as [ids|] eqn:Hids;
      [|discriminate].
    inversion Hcollect; subst; clear Hcollect. simpl.
    apply mapM_Some in Hids. apply Forall_fmap, Forall_forall. intros n Hn.
    apply list_elem_of_lookup in Hn as [j Hj].
    destruct (Forall2_lookup_r _ _ _ _ _ Hids Hj) as (r & _ & Hr).
    destruct r as [s'|]; [|discriminate]. simpl in *.
    apply dict_get_Some_elem in Hr. unfold dict_values.
    apply list_elem_of_fmap. by exists (s', n).
  - by inversion Hcollect; subst.
  - inversion Hcollect; subst. constructor.
Qed.

Lemma dict_get_snoc_ne {V} (d : dict V) k k' v :
  k ≠ k' → dict_get k (d ++ [(k', v)]) = dict_get k d.
Proof.
  intros Hne. induction d as [|[k0 v0] d IH]; simpl.
  - by rewrite decide_False.
  - destruct (decide (k = k0)); [done|]. apply IH.
Qed.

Lemma parent_in_app ns extra p : parent_in ns p → parent_in (ns ++ extra) p.
Proof. destruct p; simpl; [done|]. intros. apply elem_of_app. by left. Qed.

Lemma Graph_add_step {R} (g : Graph R) h op name inputs h' g' node :
  under_construction g h →
  inputs_in_graph g inputs →
  Graph_add g h op name inputs = Ok (h', g', node) →
  under_construction g' h' ∧
  node = length h ∧
  dict_get name (nodes g') = Some node ∧
  (∀ k, k ≠ name → dict_get k (nodes g') = dict_get k (nodes g)) ∧
  (∀ n, n < length h → h' !! n = h !! n).
Proof.
  intros (Hwf & Hnoch & Hrank) Hin Hrun.
  destruct (Graph_add_Ok_inv _ _ _ _ _ _ _ _ Hrun)
    as (input_nodes & Hfresh & _ & Hcollect & -> & -> & ->).
  pose proof (collect_parents_in_graph g inputs input_nodes Hin Hcollect) as Hparents.
  set (nd := Node_init name op input_nodes).
  assert (Hnodes : nodes (registered g name (length h)) = nodes g ++ [(name, length h)]).
  { simpl. by apply dict_set_fresh. }
  assert (Hvals : dict_values (nodes (registered g name (length h))) =
                  dict_values (nodes g) ++ [length h]).
  { rewrite Hnodes. unfold dict_values. by rewrite fmap_app. }
  assert (Hold : ∀ n, n < length h → (h ++ [nd]) !! n = h !! n).
  { intros n Hn. by apply lookup_app_l. }
  assert (Hnew : (h ++ [nd]) !! length h = Some nd).
  { rewrite lookup_app_r by lia. by rewrite Nat.sub_diag. }
  assert (Halive : ∀ n, n ∈ dict_values (nodes g) → n < length h).
  { intros n Hn. by eapply graph_wf_alive. }
  split; [|split; [done|split; [|split; [|done]]]].
  - split; [|split].
    + split; [|split].
      * rewrite Hnodes. unfold dict_keys. rewrite fmap_app. simpl.
        apply NoDup_app. split; [apply Hwf|]. split; [|apply NoDup_singleton].
        intros k Hk Hk'. apply list_elem_of_singleton in Hk'. by subst.
      * rewrite Hnodes. apply Forall_app. split.
        -- destruct Hwf as (_ & Hnames & _).
           apply Forall_forall. intros [k n] Hkn. simpl.
           rewrite Forall_forall in Hnames. specialize (Hnames _ Hkn). simpl in Hnames.
           rewrite Hold; [done|]. apply Halive. unfold dict_values.
           apply list_elem_of_fmap. by exists (k, n).
        -- constructor; [|constructor]. simpl. by rewrite Hnew.
      * rewrite Hvals. apply Forall_app. split.
        -- destruct Hwf as (_ & _ & Hclosed).
           apply Forall_forall. intros n Hn.
           unfold node_parents. rewrite Hold by (by apply Halive).
           rewrite Forall_forall in Hclosed. specialize (Hclosed n Hn).
           eapply Forall_impl; [exact Hclosed|]. intros p. apply parent_in_app.
        -- constructor; [|constructor]. unfold node_parents. rewrite Hnew. simpl.
           eapply Forall_impl; [exact Hparents|]. intros p. apply parent_in_app.
    + unfold no_children. rewrite Hvals. apply Forall_app. split.
      * apply Forall_forall. intros n Hn. unfold node_children.
        rewrite Hold by (by apply Halive).
        unfold no_children in Hnoch. rewrite Forall_forall in Hnoch. by apply Hnoch.
      * constructor; [|constructor]. unfold node_children. by rewrite Hnew.
    + unfold ranked. rewrite Hvals. apply Forall_app. split.
      * apply Forall_forall. intros n Hn. unfold node_parents.
        rewrite Hold by (by apply Halive).
        unfold ranked in Hrank. rewrite Forall_forall in Hrank. by apply Hrank.
      * constructor; [|constructor]. unfold node_parents. rewrite Hnew. simpl.
        eapply Forall_impl; [exact Hparents|]. intros [s|p]; simpl; [done|].
        apply Halive.
  - apply dict_get_NoDup.
    + rewrite Hnodes. unfold dict_keys. rewrite fmap_app. simpl.
      apply NoDup_app. split; [apply Hwf|]. split; [|apply NoDup_singleton].
      intros k Hk Hk'. apply list_elem_of_singleton in Hk'. by subst.
    + rewrite Hnodes. apply elem_of_app. right. left.
  - intros k Hk. rewrite Hnodes. by apply dict_get_snoc_ne.
Qed.

(** X6: [add] keeps a graph under construction in order.  The new node
    is a fresh object that its name now maps to, every other name maps to
    what it mapped to, and the graph stays well-formed, without recorded
    children, and with every parent older than its child, so that no
    cycle can be built through [add]. *)
Theorem Graph_add_keeps_wf {R} (g : Graph R) h op name inputs h' g' node :
  under_construction g h →
  inputs_in_graph g inputs →
  Graph_add g h op name inputs = Ok (h', g', node) →
  under_construction g' h' ∧
  node = length h ∧
  dict_get name (nodes g') = Some node ∧
  (∀ k, k ≠ name → dict_get k (nodes g') = dict_get k (nodes g)) ∧
  (∀ n, n < length h → h' !! n = h !! n).
Proof. apply Graph_add_step. Qed.

Lemma Graph_add_keeps_wf_witness :
  under_construction diamond_graph diamond_heap ∧
  ∃ h' g', Graph_add diamond_graph diamond_heap OpSigmoid "E" (Some [PStr "D"])
             = Ok (h', g', 4) ∧
           under_construction g' h' ∧ dict_get "E" (nodes g') = Some 4.
Proof.
  assert (Huc : under_construction diamond_graph diamond_heap) by by_evaluation.
  split; [exact Huc|]. do 2 eexists. split; [reflexivity|].
  destruct (Graph_add_keeps_wf diamond_graph diamond_heap OpSigmoid "E"
              (Some [PStr "D"]) _ _ 4 Huc I eq_refl) as (Huc' & _ & Hget & _).
  split; [exact Huc'|exact Hget].
Defined.

Lemma Graph_done_returns {R} (g : Graph R) h rank fuel :
  graph_wf g h →
  ranked rank h (dict_values (nodes g)) →
  no_children h (dict_values (nodes g)) →
  Exists (λ n, node_parents h n = []) (dict_values (nodes g)) →
  length (nodes g) ≤ fuel →
  ∃ h' g', Graph_done fuel g h = Ok (h', g').
Proof.
  intros Hwf Hrank Hno Hparam Hfuel. set (ns := dict_values (nodes g)) in *.
  pose proof (graph_wf_NoDup g h Hwf) as Hnd. fold ns in Hnd.
  destruct (update_children_Ok ns h) as [h1 Hup].
  { apply Forall_forall. intros n Hn. apply Forall_forall. intros q Hq.
    destruct (graph_wf_parent g h n q Hwf Hn Hq) as (p & -> & _). eauto. }
  destruct (update_children_facts _ _ _ Hup) as (_ & Hparents & _ & _).
  destruct (topological_sort_returns rank fuel h1 ns) as (ps & internal & Hsort).
  - done.
  - unfold ranked in *. eapply Forall_impl; [exact Hrank|].
    intros n Hn. simpl in *. by rewrite Hparents.
  - by apply update_children_sound with (h := h).
  - eapply Exists_impl; [exact Hparam|]. intros n Hn. simpl in *.
    by rewrite Hparents.
  - unfold ns, dict_values. by rewrite length_fmap.
  - unfold Graph_done. fold ns. rewrite Hup. cbn [rbind]. rewrite Hsort.
    cbn [rbind]. eauto.
Qed.

Lemma by_name_inputs_in_graph {R} (g : Graph R) op name inputs :
  by_name (op, name, inputs) → inputs_in_graph g inputs.
Proof.
  unfold by_name. simpl. destruct inputs as [[|[s|i] rest]|]; simpl; try done.
  intros Hall. apply Forall_cons in Hall as [Hi _]. by destruct Hi.
Qed.

Lemma Graph_add_each_step {R} (g : Graph R) h call h' g' :
  under_construction g h → by_name call →
  Graph_add_each (h, g) call = Ok (h', g') →
  under_construction g' h' ∧
  length (nodes g') = S (length (nodes g)) ∧
  (Exists (λ n, node_parents h n = []) (dict_values (nodes g)) ∨
   num_inputs call.1.1 = 0 →
   Exists (λ n, node_parents h' n = []) (dict_values (nodes g'))).
Proof.
  intros Huc Hby Hrun. destruct call as [[op name] inputs].
  unfold Graph_add_each in Hrun. simpl in Hrun.
  apply bind_Ok in Hrun as ([[h1 g1] node] & Hadd & Hret).
  inversion Hret; subst h' g'; clear Hret. simpl.
  destruct (Graph_add_step g h op name inputs h1 g1 node Huc
              (by_name_inputs_in_graph g op name inputs Hby) Hadd)
    as (Huc' & -> & _ & _ & Hold).
  destruct (Graph_add_Ok_inv _ _ _ _ _ _ _ _ Hadd)
    as (input_nodes & Hfresh & Hcount & Hcollect & -> & -> & _).
  assert (Hnodes : nodes (registered g name (length h)) = nodes g ++ [(name, length h)]).
  { simpl. by apply dict_set_fresh. }
  split; [done|]. split.
  { rewrite Hnodes, length_app. simpl. lia. }
  rewrite Hnodes. unfold dict_values. rewrite fmap_app. simpl.
  intros [Hex|Hzero]; apply Exists_app.
  - left. apply Exists_exists in Hex as (n & Hn & Hpar).
    apply Exists_exists. exists n. split; [done|].
    unfold node_parents in *. rewrite Hold; [done|].
    destruct Huc as (Hwf & _). by eapply graph_wf_alive.
  - right. constructor. unfold node_parents.
    rewrite lookup_app_r by lia. rewrite Nat.sub_diag. simpl.
    rewrite Hzero in Hcount.
    destruct inputs as [[|p rest]|]; simpl in Hcount; try discriminate;
      simpl in Hcollect; by inversion Hcollect.
Qed.

Lemma Graph_add_all_inv {R} calls : ∀ (g : Graph R) h h' g',
  under_construction g h → Forall by_name calls →
  Graph_add_all h g calls = Ok (h', g') →
  under_construction g' h' ∧
  length (nodes g') = length (nodes g) + length calls ∧
  (Exists (λ n, node_parents h n = []) (dict_values (nodes g)) ∨
   Exists (λ call, num_inputs call.1.1 = 0) calls →
   Exists (λ n, node_parents h' n = []) (dict_values (nodes g'))).
Proof.
  unfold Graph_add_all.
  induction calls as [|call calls IH]; intros g h h' g' Huc Hby Hrun.
  - inversion Hrun; subst. split; [done|]. split; [simpl; lia|].
    intros [?|Hex]; [done|]. by apply Exists_nil in Hex.
  - apply Forall_cons in Hby as [Hcall Hby]. cbn [foldM] in Hrun.
    apply bind_Ok in Hrun as ([h1 g1] & Hstep & Hrun).
    destruct (Graph_add_each_step g h call h1 g1 Huc Hcall Hstep)
      as (Huc1 & Hlen1 & Hex1).
    destruct (IH g1 h1 h' g' Huc1 Hby Hrun) as (Huc' & Hlen' & Hex').
    split; [done|]. split; [simpl; lia|].
    intros [Hex|Hex]; apply Hex'.
    + left. apply Hex1. by left.
    + apply Exists_cons in Hex as [Hzero|Hex]; [|by right].
      left. apply Hex1. by right.
Qed.

(** X7: a graph built from scratch by calls of [add] that name their
    parents is ready for [done]: it is well-formed and free of cycles, and
    as soon as one of the added operations takes no input, [done] returns
    within one pass of its sort per node. *)
Theorem Graph_add_all_finalizes {R} (graph_name : string)
    (calls : list (Op * string * option (list pyref))) h (g : Graph R) fuel :
  Forall by_name calls →
  Graph_add_all [] (Graph_init graph_name) calls = Ok (h, g) →
  under_construction g h ∧
  length (nodes g) = length calls ∧
  (Exists (λ call, num_inputs call.1.1 = 0) calls → length calls ≤ fuel →
   ∃ h' g', Graph_done fuel g h = Ok (h', g')).
Proof.
  intros Hby Hrun.
  assert (Huc0 : under_construction (Graph_init graph_name : Graph R) []).
  { repeat split; try constructor. }
  destruct (Graph_add_all_inv calls _ _ _ _ Huc0 Hby Hrun) as (Huc & Hlen & Hex).
  simpl in Hlen. split; [done|]. split; [done|].
  intros Hzero Hfuel. destruct Huc as (Hwf & Hno & Hrank).
  apply (Graph_done_returns g h (λ n, n)); try done.
  - apply Hex. by right.
  - lia.
Qed.

Lemma Graph_add_all_finalizes_witness :
  let calls := [ (OpValue 0, "X", None); (OpValue 1, "W", None);
                 (OpMatMul, "WX", Some [PStr "X"; PStr "W"]);
                 (OpSigmoid, "out", Some [PStr "WX"]) ] in
  ∃ h (g : Graph Z),
    Graph_add_all [] (Graph_init "net") calls = Ok (h, g) ∧
    under_construction g h ∧
    ∃ h' g', Graph_done 4 g h = Ok (h', g').
Proof.
  intros calls. do 2 eexists.
  match goal with
  | |- ?run = Ok (?h, ?g) ∧ _ =>
      assert (Hrun : run = Ok (h, g)) by (vm_compute; reflexivity)
  end.
  split; [exact Hrun|].
  assert (Hby : Forall by_name calls) by by_evaluation.
  destruct (Graph_add_all_finalizes "net" calls _ _ 4 Hby Hrun) as (Huc & _ & Hdone).
  split; [exact Huc|]. apply Hdone; [by_evaluation|simpl; lia].
Defined.

(** ** Operations: number of arguments and of gradients *)

(** X8: the operations agree with their declared number of inputs.
    [forward] raises [TypeError] exactly when it is not given
    [num_inputs] arguments, and a [backward] that returns was given
    [num_inputs] activations and returns one gradient for each. *)
Theorem op_arity {R} `{!Scalar R} cells (op : Op) (grad : Tensor R) args :
  (op_forward cells op args = Raise TypeError ↔ length args ≠ num_inputs op) ∧
  (∀ gradients, op_backward op grad args = Ok gradients →
                length args = num_inputs op ∧ length gradients = num_inputs op).
Proof.
  split.
  - pose proof (np_elementwise_raises s_add) as Hadd.
    pose proof np_matmul_raises as Hmm. pose proof np_dot_raises as Hdot.
    destruct op; destruct args as [|A [|B [|C args]]]; simpl;
      try (split; [done|intros Hne; by destruct Hne]);
      try (split; [intros _; lia|done]).
    + split; [|intros Hne; by destruct Hne].
      destruct (cells !! cell); discriminate.
    + split; [|intros Hne; by destruct Hne]. intros Hr.
      specialize (Hadd A B). unfold np_add in Hr. rewrite Hr in Hadd. done.
    + split; [|intros Hne; by destruct Hne]. intros Hr.
      specialize (Hmm A B). rewrite Hr in Hmm. done.
    + split; [|intros Hne; by destruct Hne]. intros Hr.
      specialize (Hdot A B). rewrite Hr in Hdot. done.
  - intros gradients Hb.
    destruct op; destruct args as [|A [|B [|C args]]]; simpl in Hb; try discriminate.
    + by inversion Hb.
    + apply bind_Ok in Hb as (dA & _ & Hb). apply bind_Ok in Hb as (dB & _ & Hb).
      by inversion Hb.
    + apply bind_Ok in Hb as (dA & _ & Hb). apply bind_Ok in Hb as (dB & _ & Hb).
      by inversion Hb.
    + apply bind_Ok in Hb as (t & _ & Hb). apply bind_Ok in Hb as (dA & _ & Hb).
      by inversion Hb.
Qed.

(** ** prop: what the activation table holds *)

Section PropLoop.
Context {R : Type} `{!Scalar R}.
Variable h : heap.
Variable cells : gmap nat (Tensor R).

Lemma parent_activation_mono (ot ot' : gmap string (Tensor R)) p v :
  ot ⊆ ot' → parent_activation h ot p = Ok v → parent_activation h ot' p = Ok v.
Proof.
  intros Hsub Hp. destruct p as [s|i]; simpl in *; [done|].
  apply or_raise_Ok in Hp. by rewrite (lookup_weaken _ _ _ _ Hp Hsub).
Qed.

Lemma activation_of_mono (ot ot' : gmap string (Tensor R)) n v :
  ot ⊆ ot' → activation_of h cells ot n = Ok v → activation_of h cells ot' n = Ok v.
Proof.
  intros Hsub Ha. unfold activation_of in *.
  apply bind_Ok in Ha as (args & Hargs & Hop).
  rewrite (mapM_r_Ok_impl (parent_activation h ot) (parent_activation h ot') _ args);
    [done| |done].
  intros p w _. by apply parent_activation_mono.
Qed.

Lemma prop_loop l : ∀ processed (ot ot' : gmap string (Tensor R)),
  NoDup (node_name h <$> (processed ++ l.*2)) →
  activations_inv h cells processed ot →
  foldM (prop_step h cells) ot l = Ok ot' →
  activations_inv h cells (processed ++ l.*2) ot'.
Proof.
  induction l as [|[k n] l IH]; intros processed ot ot' Hnd Hinv Hrun.
  - inversion Hrun; subst. simpl. by rewrite app_nil_r.
  - cbn [foldM] in Hrun. apply bind_Ok in Hrun as (ot1 & Hstep & Hrun).
    unfold prop_step in Hstep.
    apply bind_Ok in Hstep as (args & Hargs & Hstep).
    apply bind_Ok in Hstep as (v & Hv & Hret).
    inversion Hret; subst ot1; clear Hret.
    rewrite fmap_cons in *. simpl in *.
    replace (processed ++ n :: l.*2) with ((processed ++ [n]) ++ l.*2) in *
      by (by rewrite <- app_assoc).
    apply (IH (processed ++ [n]) (<[node_name h n := v]> ot) ot' Hnd); [|done].
    destruct Hinv as [Hkeys Hvals].
    assert (Hfresh : ot !! node_name h n = None).
    { apply eq_None_not_Some. intros Hs. apply Hkeys in Hs.
      rewrite !fmap_app in Hnd. apply NoDup_app in Hnd as (Hnd & _ & _).
      apply NoDup_app in Hnd as (_ & Hdisj & _).
      apply (Hdisj _ Hs). simpl. left. }
    assert (Hsub : ot ⊆ <[node_name h n := v]> ot) by (by apply insert_subseteq).
    split.
    + intros k'. rewrite fmap_app, elem_of_app. simpl.
      rewrite list_elem_of_singleton. rewrite <- Hkeys.
      destruct (decide (node_name h n = k')) as [<-|Hne].
      * rewrite lookup_insert_eq. split; [by right|eauto].
      * rewrite lookup_insert_ne by done. split; [by left|].
        intros [?|?]; [done|congruence].
    + intros m Hm. apply elem_of_app in Hm as [Hm|Hm].
      * destruct (Hvals m Hm) as (w & Hw & Hact). exists w. split.
        -- by eapply lookup_weaken.
        -- by eapply activation_of_mono.
      * apply list_elem_of_singleton in Hm as ->. exists v. split.
        -- by rewrite lookup_insert_eq.
        -- eapply activation_of_mono; [exact Hsub|].
           unfold activation_of. rewrite Hargs. done.
Qed.
End PropLoop.

(** X9: when the nodes have distinct names and [prop] returns, the
    activation table holds exactly the names of the nodes; the entry of
    each node is its operation applied to the entries of its parents; and
    the output is the entry under the last key of the node dictionary. *)
Theorem prop_activations {R} `{!Scalar R} (nodes : dict node_id) h cells
    (parameter_table : dict (Tensor R)) output output_table cells' :
  NoDup (node_name h <$> dict_values nodes) →
  prop nodes h cells parameter_table = Ok (output, output_table, cells') →
  activations_inv h cells' (dict_values nodes) output_table ∧
  ∃ last_key, last (dict_keys nodes) = Some last_key ∧
              output_table !! last_key = Some output.
Proof.
  intros Hnd Hrun. unfold prop in Hrun.
  apply bind_Ok in Hrun as (cells1 & _ & Hrun).
  apply bind_Ok in Hrun as (ot & Hloop & Hrun).
  apply bind_Ok in Hrun as (last_key & Hlast & Hrun).
  apply bind_Ok in Hrun as (out & Hout & Hret).
  inversion Hret; subst; clear Hret.
  apply or_raise_Ok in Hlast. apply or_raise_Ok in Hout.
  split; [|eauto].
  apply (prop_loop h cells' nodes [] ∅ output_table); [done| |done].
  split.
  - intros k. rewrite lookup_empty, fmap_nil, elem_of_nil.
    split; [intros [? ?]; done|done].
  - intros n Hn. by apply elem_of_nil in Hn.
Qed.

Lemma prop_activations_witness :
  let h := [ mkNode "a" (OpValue 0) [] [2]; mkNode "b" (OpValue 1) [] [2];
             mkNode "s" OpSum [PNode 0; PNode 1] [] ] in
  let nodes := [("a", 0); ("b", 1); ("s", 2)] in
  let a := mkTensor [2] [1; 2]%Z in
  let b := mkTensor [2] [10; 20]%Z in
  ∃ output_table cells',
    prop nodes h ∅ [("a", a); ("b", b)] = Ok (mkTensor [2] [11; 22]%Z, output_table, cells') ∧
    activations_inv h cells' (dict_values nodes) output_table ∧
    output_table !! "s" = Some (mkTensor [2] [11; 22]%Z).
Proof.
  intros h nodes a b.
  exists (list_to_map [("a", a); ("b", b); ("s", mkTensor [2] [11; 22]%Z)]).
  exists (list_to_map [(0, a); (1, b)]).
  assert (Hrun : prop nodes h ∅ [("a", a); ("b", b)] =
                 Ok (mkTensor [2] [11; 22]%Z,
                     list_to_map [("a", a); ("b", b); ("s", mkTensor [2] [11; 22]%Z)],
                     list_to_map [(0, a); (1, b)])) by (vm_compute; reflexivity).
  split; [exact Hrun|].
  assert (Hnd : NoDup (node_name h <$> dict_values nodes)) by by_evaluation.
  destruct (prop_activations nodes h ∅ _ _ _ _ Hnd Hrun) as [Hinv (k & Hk & Hout)].
  split; [exact Hinv|]. inversion Hk; subst k. exact Hout.
Defined.

Section AssignLoop.
Context {R : Type} `{!Scalar R}.
Variable nodes : dict node_id.
Variable h : heap.

Lemma assign_parameter_Ok (cells cells' : gmap nat (Tensor R)) k t :
  assign_parameter nodes h cells (k, t) = Ok cells' →
  ∃ c, cell_of nodes h k = Some c ∧ cells' = <[c := t]> cells.
Proof.
  unfold assign_parameter, cell_of. intros Ha.
  apply bind_Ok in Ha as (n & Hn & Ha). apply or_raise_Ok in Hn.
  rewrite Hn. simpl. destruct (node_op h n); simpl in Ha; try discriminate.
  inversion Ha. eauto.
Qed.

Lemma assign_loop_other pt : ∀ (cells cells' : gmap nat (Tensor R)) c,
  foldM (assign_parameter nodes h) cells pt = Ok cells' →
  Some c ∉ cell_of nodes h <$> dict_keys pt →
  cells' !! c = cells !! c.
Proof.
  induction pt as [|[k t] pt IH]; intros cells cells' c Hrun Hc.
  - by inversion Hrun.
  - cbn [foldM] in Hrun. apply bind_Ok in Hrun as (cells1 & Hstep & Hrun).
    apply assign_parameter_Ok in Hstep as (c0 & Hc0 & ->).
    unfold dict_keys in Hc. rewrite !fmap_cons in Hc. simpl in Hc.
    apply not_elem_of_cons in Hc as [Hne Hc].
    rewrite (IH _ _ c Hrun Hc). apply lookup_insert_ne. congruence.
Qed.

Lemma assign_loop_lookup pt : ∀ (cells cells' : gmap nat (Tensor R)),
  foldM (assign_parameter nodes h) cells pt = Ok cells' →
  NoDup (cell_of nodes h <$> dict_keys pt) →
  ∀ k t, (k, t) ∈ pt → ∃ c, cell_of nodes h k = Some c ∧ cells' !! c = Some t.
Proof.
  induction pt as [|[k0 t0] pt IH]; intros cells cells' Hrun Hnd k t Hin.
  - by apply elem_of_nil in Hin.
  - cbn [foldM] in Hrun. apply bind_Ok in Hrun as (cells1 & Hstep & Hrun).
    apply assign_parameter_Ok in Hstep as (c0 & Hc0 & ->).
    unfold dict_keys in Hnd. rewrite !fmap_cons in Hnd. simpl in Hnd.
    apply NoDup_cons in Hnd as [Hfresh Hnd].
    apply elem_of_cons in Hin as [[= -> ->]|Hin].
    + exists c0. split; [done|].
      rewrite (assign_loop_other pt _ _ c0 Hrun) by (by rewrite <- Hc0).
      apply lookup_insert_eq.
    + by apply (IH _ _ Hrun Hnd).
Qed.
End AssignLoop.

(** X10: [prop] gives every assigned parameter node the tensor supplied
    under its name: when the nodes have distinct names and no two entries
    of the assignment reach the same [OpValue] object, the activation of
    the node named by an entry is the tensor of that entry. *)
Theorem prop_parameter_values {R} `{!Scalar R} (nodes : dict node_id) h cells
    (parameter_table : dict (Tensor R)) output output_table cells' :
  NoDup (node_name h <$> dict_values nodes) →
  NoDup (cell_of nodes h <$> dict_keys parameter_table) →
  prop nodes h cells parameter_table = Ok (output, output_table, cells') →
  ∀ name tensor n, (name, tensor) ∈ parameter_table →
                   dict_get name nodes = Some n →
                   output_table !! node_name h n = Some tensor.
Proof.
  intros Hnames Hcells Hrun name tensor n Hin Hn. unfold prop in Hrun.
  apply bind_Ok in Hrun as (cells1 & Hassign & Hrun).
  apply bind_Ok in Hrun as (ot & Hloop & Hrun).
  apply bind_Ok in Hrun as (last_key & _ & Hrun).
  apply bind_Ok in Hrun as (out & _ & Hret).
  inversion Hret; subst; clear Hret.
  destruct (assign_loop_lookup nodes h parameter_table cells cells' Hassign Hcells
              name tensor Hin) as (c & Hc & Hcell).
  assert (activations_inv h cells' (dict_values nodes) output_table) as [_ Hvals].
  { apply (prop_loop h cells' nodes [] ∅ output_table); [done| |done].
    split.
    - intros k. rewrite lookup_empty, fmap_nil, elem_of_nil.
      split; [intros [? ?]; done|done].
    - intros m Hm. by apply elem_of_nil in Hm. }
  destruct (Hvals n) as (v & Hv & Hact).
  { apply dict_get_Some_elem in Hn. unfold dict_values.
    apply list_elem_of_fmap. by exists (name, n). }
  rewrite Hv. f_equal.
  unfold cell_of in Hc. rewrite Hn in Hc. simpl in Hc.
  unfold activation_of in Hact. apply bind_Ok in Hact as (args & _ & Hop).
  destruct (node_op h n); try discriminate. inversion Hc; subst c.
  destruct args; simpl in Hop; [|discriminate].
  apply or_raise_Ok in Hop. congruence.
Qed.

Lemma prop_parameter_values_witness :
  let h := [ mkNode "a" (OpValue 0) [] [2]; mkNode "b" (OpValue 1) [] [2];
             mkNode "s" OpSum [PNode 0; PNode 1] [] ] in
  let nodes := [("a", 0); ("b", 1); ("s", 2)] in
  let a := mkTensor [2] [1; 2]%Z in
  let b := mkTensor [2] [10; 20]%Z in
  ∃ output output_table cells',
    prop nodes h ∅ [("a", a); ("b", b)] = Ok (output, output_table, cells') ∧
    output_table !! "b" = Some b.
Proof.
  intros h nodes a b.
  exists (mkTensor [2] [11; 22]%Z).
  exists (list_to_map [("a", a); ("b", b); ("s", mkTensor [2] [11; 22]%Z)]).
  exists (list_to_map [(0, a); (1, b)]).
  assert (Hrun : prop nodes h ∅ [("a", a); ("b", b)] =
                 Ok (mkTensor [2] [11; 22]%Z,
                     list_to_map [("a", a); ("b", b); ("s", mkTensor [2] [11; 22]%Z)],
                     list_to_map [(0, a); (1, b)])) by (vm_compute; reflexivity).
  split; [exact Hrun|].
  assert (Hnd : NoDup (node_name h <$> dict_values nodes)) by by_evaluation.
  assert (Hcells : NoDup (cell_of nodes h <$> dict_keys [("a", a); ("b", b)]))
    by by_evaluation.
  apply (prop_parameter_values nodes h ∅ _ _ _ _ Hnd Hcells Hrun "b" b 1).
  - right. left.
  - reflexivity.
Defined.

(** ** backprop: the entries of the gradient table *)

(** X11: when [backward] returns on finalized nodes, the gradient table
    has an entry under the name of every node and under no other key, and
    the entry of a node without consumers is the seed: all ones, shaped
    like the activation of that node. *)
Theorem Graph_backward_table {R} `{!Scalar R} (g : Graph R) h rank ot fuel gt :
  backprop_wf h rank (dict_values (nodes g)) →
  output_table g = Some ot →
  Graph_backward fuel g h = Ok gt →
  (∀ k, is_Some (gt !! k) ↔ k ∈ node_name h <$> dict_values (nodes g)) ∧
  (∀ n, n ∈ dict_values (nodes g) → node_children h n = [] →
        ∃ act, ot !! node_name h n = Some act ∧
               gt !! node_name h n = Some (np_ones (shape act))).
Proof.
  intros Hwf Hot Hrun. unfold Graph_backward in Hrun. rewrite Hot in Hrun.
  destruct (backprop_spec h ot rank _ Hwf fuel gt Hrun) as (Hkeys & Hseeds & _).
  by split.
Qed.

Lemma Graph_backward_table_witness :
  let h := [ mkNode "A" (OpValue 0) [] [1; 2];
             mkNode "B" OpSigmoid [PNode 0] [3];
             mkNode "C" OpSigmoid [PNode 0] [3];
             mkNode "D" OpSum [PNode 1; PNode 2] [] ] in
  let vec (a b : Z) : Tensor Z := mkTensor [2] [a; b] in
  let ot : gmap string (Tensor Z) :=
    list_to_map [("A", vec 3%Z 5%Z); ("B", vec 1%Z 1%Z); ("C", vec 1%Z 1%Z);
                 ("D", vec 2%Z 2%Z)] in
  let g := mkGraph "diamond" [("A", 0); ("C", 2); ("B", 1); ("D", 3)]
                   (Some [0]) (Some ot) in
  ∃ gt, Graph_backward 4 g h = Ok gt ∧
        is_Some (gt !! "A") ∧ ¬ is_Some (gt !! "E") ∧
        gt !! "D" = Some (vec 1%Z 1%Z).
Proof.
  intros h vec ot g.
  exists (list_to_map [("A", vec 0%Z 0%Z); ("B", vec 1%Z 1%Z); ("C", vec 1%Z 1%Z);
                       ("D", vec 1%Z 1%Z)]).
  assert (Hrun : Graph_backward 4 g h =
                 Ok (list_to_map [("A", vec 0%Z 0%Z); ("B", vec 1%Z 1%Z);
                                  ("C", vec 1%Z 1%Z); ("D", vec 1%Z 1%Z)]))
    by (vm_compute; reflexivity).
  split; [exact Hrun|].
  assert (Hwf : backprop_wf h (λ n, n) (dict_values (nodes g))) by by_evaluation.
  destruct (Graph_backward_table g h (λ n, n) ot 4 _ Hwf eq_refl Hrun) as [Hkeys Hseeds].
  split; [|split].
  - apply Hkeys. by_evaluation.
  - intros HE. apply Hkeys in HE. revert HE. by_evaluation.
  - destruct (Hseeds 3) as (act & Hact & Hgt); [by_evaluation|reflexivity|].
    assert (act = vec 2%Z 2%Z) as -> by (vm_compute in Hact; by inversion Hact).
    exact Hgt.
Defined.

(** ** grad_check.py: sizes, flattening and splitting *)

Lemma foldl_mul_scale (shape : list nat) : ∀ a b,
  foldl (λ size d, size * d) (a * b) shape = a * foldl (λ size d, size * d) b shape.
Proof.
  induction shape as [|d shape IH]; intros a b; cbn [foldl]; [done|].
  rewrite <- Nat.mul_assoc. apply IH.
Qed.

Lemma size_from_shape_cons d shape :
  size_from_shape (d :: shape) = d * size_from_shape shape.
Proof.
  unfold size_from_shape. cbn [foldl].
  rewrite (Nat.mul_comm 1 d). apply foldl_mul_scale.
Qed.

(** X12: [size_from_shape] is the product of the extents: 1 for the
    empty shape, multiplicative over the concatenation of shapes, and 0 as
    soon as one extent is 0. *)
Theorem size_from_shape_product (s1 s2 : list nat) :
  size_from_shape [] = 1 ∧
  size_from_shape (s1 ++ s2) = size_from_shape s1 * size_from_shape s2 ∧
  (0 ∈ s1 → size_from_shape s1 = 0).
Proof.
  split; [reflexivity|]. split.
  - induction s1 as [|d s1 IH].
    + rewrite app_nil_l. change (size_from_shape []) with 1. lia.
    + rewrite <- app_comm_cons, !size_from_shape_cons, IH. lia.
  - induction s1 as [|d s1 IH]; intros Hin.
    + by apply elem_of_nil in Hin.
    + rewrite size_from_shape_cons.
      apply elem_of_cons in Hin as [<-|Hin]; [done|]. rewrite IH by done. lia.
Qed.

Section Split.
Context {R : Type}.
Implicit Types (array : Tensor R) (shapes : list (list nat)).

Lemma total_size_cons_eq s shapes :
  total_size (s :: shapes) = size_from_shape s + total_size shapes.
Proof. reflexivity. Qed.

Lemma split_loop_Ok array shapes : ∀ index acc,
  shape array = [length (data array)] →
  index + total_size shapes ≤ length (data array) →
  foldM (array_1d_arrays_nd_step array) (index, acc) shapes =
  Ok (index + total_size shapes, acc ++ pieces (data array) index shapes).
Proof.
  induction shapes as [|s shapes IH]; intros index acc H1d Hfit.
  - simpl. unfold total_size. simpl. by rewrite Nat.add_0_r, app_nil_r.
  - rewrite total_size_cons_eq in *.
    cbn [foldM pieces]. rewrite array_1d_arrays_nd_step_1d by done.
    cbn zeta. rewrite decide_True.
    2:{ rewrite length_take, length_drop. lia. }
    cbn [rbind]. rewrite IH by (done || lia).
    f_equal. f_equal; [lia|]. by rewrite <- app_assoc.
Qed.

Lemma split_loop_short array shapes : ∀ index acc,
  shape array = [length (data array)] →
  index ≤ length (data array) →
  length (data array) < index + total_size shapes →
  foldM (array_1d_arrays_nd_step array) (index, acc) shapes = Raise ValueError.
Proof.
  induction shapes as [|s shapes IH]; intros index acc H1d Hindex Hshort.
  - unfold total_size in Hshort. simpl in Hshort. lia.
  - rewrite total_size_cons_eq in *.
    cbn [foldM]. rewrite array_1d_arrays_nd_step_1d by done. cbn zeta.
    destruct (decide (index + size_from_shape s ≤ length (data array))) as [Hfit|Hcut].
    + rewrite decide_True.
      2:{ rewrite length_take, length_drop. lia. }
      cbn [rbind]. apply IH; (done || lia).
    + rewrite decide_False; [done|].
      rewrite length_take, length_drop. lia.
Qed.

Lemma array_1d_arrays_nd_eq array shapes :
  shape array = [length (data array)] →
  array_1d_arrays_nd array shapes =
  if decide (total_size shapes ≤ length (data array))
  then Ok (pieces (data array) 0 shapes)
  else Raise ValueError.
Proof.
  intros H1d. unfold array_1d_arrays_nd. destruct (decide _) as [Hfit|Hshort].
  - by rewrite split_loop_Ok.
  - rewrite split_loop_short; [done|done|lia|lia].
Qed.

(** One step on an array of any rank at least 1, with rows of [row]
    elements: whenever [reshape] accepts the slice, the slice is the run
    of [size] elements of the flat data that starts at [index].  This
    holds at [index = 0], for rows of one element, and once the first
    axis or the data are used up, which is where the loop can be. *)
Lemma split_step_any array d rest index acc s st :
  shape array = d :: rest →
  index ≤ length (data array) →
  index = 0 ∨ size_from_shape rest = 1 ∨ d ≤ index ∨ length (data array) ≤ index →
  array_1d_arrays_nd_step array (index, acc) s = Ok st →
  st = (index + size_from_shape s,
        acc ++ [mkTensor s (take (size_from_shape s) (drop index (data array)))]) ∧
  index + size_from_shape s ≤ length (data array) ∧
  (index + size_from_shape s = 0 ∨ size_from_shape rest = 1 ∨
   d ≤ index + size_from_shape s ∨ length (data array) ≤ index + size_from_shape s).
Proof.
  intros Hshape Hindex Hat. unfold array_1d_arrays_nd_step, ndarray_slice.
  rewrite Hshape. cbn [rbind]. unfold ndarray_reshape. cbn [data].
  set (size := size_from_shape s). set (row := size_from_shape rest) in *.
  set (len := length (data array)) in *.
  set (start := index `min` d). set (stop := (index + size) `min` d).
  destruct (decide _) as [Hsize|]; [|discriminate]. intros [= <-].
  assert (Hlen := Hsize). rewrite length_take, length_drop in Hlen. fold len in Hlen.
  destruct (decide (size = 0)) as [Hzero|Hpos].
  - rewrite Hzero in *. symmetry in Hsize. apply nil_length_inv in Hsize.
    rewrite Hsize, take_0, Nat.add_0_r. split; [done|]. split; [lia|]. done.
  - assert (Hrows : 0 < (stop - start) * row ∧ start * row < len) by lia.
    assert (Hstart : start = index ∧ index < d ∧ 0 < row) by (unfold start, stop in *; nia).
    destruct Hstart as (Hs & Hd & Hrow). rewrite Hs in *.
    assert (Hcase : index = 0 ∨ row = 1) by nia.
    assert (Hcut : take ((stop - index) * row) (drop (index * row) (data array))
                   = take size (drop index (data array))).
    { destruct Hcase as [->|Hone].
      - rewrite Nat.mul_0_l in *. by apply take_length_eq.
      - rewrite Hone, !Nat.mul_1_r in *. by apply take_length_eq. }
    rewrite Hcut. split; [done|].
    assert (Hfit : size = length (take size (drop index (data array))))
      by (by rewrite <- Hcut).
    rewrite length_take, length_drop in Hfit. fold len in Hfit.
    split; [lia|]. unfold stop in *. nia.
Qed.

(** Whatever the rank of the array, a returned split consists of the
    consecutive runs of its flat data. *)
Lemma split_loop_any array d rest shapes : ∀ index acc st,
  shape array = d :: rest →
  index ≤ length (data array) →
  index = 0 ∨ size_from_shape rest = 1 ∨ d ≤ index ∨ length (data array) ≤ index →
  foldM (array_1d_arrays_nd_step array) (index, acc) shapes = Ok st →
  st.2 = acc ++ pieces (data array) index shapes ∧
  index + total_size shapes ≤ length (data array).
Proof.
  induction shapes as [|s shapes IH]; intros index acc st Hshape Hindex Hat Hrun.
  - inversion Hrun; subst. simpl. rewrite app_nil_r. unfold total_size. simpl.
    split; [done|lia].
  - cbn [foldM] in Hrun. apply bind_Ok in Hrun as (st1 & Hstep & Hrun).
    destruct (split_step_any _ _ _ _ _ _ _ Hshape Hindex Hat Hstep) as (-> & Hfit & Hat').
    destruct (IH _ _ _ Hshape Hfit Hat' Hrun) as [Hacc Htotal].
    rewrite total_size_cons_eq. cbn [pieces]. split; [|lia].
    rewrite Hacc. by rewrite <- app_assoc.
Qed.

Lemma array_1d_arrays_nd_Ok_inv array shapes arrays :
  array_1d_arrays_nd array shapes = Ok arrays →
  arrays = pieces (data array) 0 shapes ∧ total_size shapes ≤ length (data array).
Proof.
  unfold array_1d_arrays_nd. intros Hrun.
  apply bind_Ok in Hrun as (st & Hrun & [= <-]).
  destruct (shape array) as [|d rest] eqn:Hshape.
  - destruct shapes as [|s shapes].
    + inversion Hrun; subst. unfold total_size. simpl. split; [done|lia].
    + cbn [foldM] in Hrun. unfold array_1d_arrays_nd_step, ndarray_slice in Hrun.
      rewrite Hshape in Hrun. discriminate.
  - destruct (split_loop_any array d rest shapes 0 [] st Hshape) as [Hacc Htotal];
      [lia|by left|done|]. done.
Qed.

Lemma total_size_cons s shapes :
  total_size (s :: shapes) = size_from_shape s + total_size shapes.
Proof. reflexivity. Qed.

Lemma pieces_facts (elems : list R) shapes : ∀ index,
  index + total_size shapes ≤ length elems →
  shape <$> pieces elems index shapes = shapes ∧
  Forall tensor_wf (pieces elems index shapes) ∧
  concat (data <$> pieces elems index shapes) = take (total_size shapes) (drop index elems).
Proof.
  induction shapes as [|s shapes IH]; intros index Hfit.
  - simpl. split; [done|]. split; [constructor|]. by rewrite take_0.
  - rewrite total_size_cons in *. cbn [pieces].
    destruct (IH (index + size_from_shape s)) as (Hshapes & Hwf & Hdata); [lia|].
    rewrite !fmap_cons. cbn [shape data concat].
    split; [by rewrite Hshapes|]. split.
    + constructor; [|done]. unfold tensor_wf. cbn [shape data].
      rewrite length_take, length_drop. lia.
    + rewrite Hdata. rewrite <- drop_drop.
      rewrite <- (take_drop (size_from_shape s) (drop index elems)) at 3.
      rewrite take_app_add'; [done|].
      rewrite length_take, length_drop. lia.
Qed.
End Split.

(** X13: on a 1-D array, [array_1d_arrays_nd] returns whenever the
    array holds at least the elements the shapes ask for, whatever comes
    after them, and fails with [ValueError] (from [reshape]) when it holds
    fewer. *)
Theorem array_1d_arrays_nd_outcome {R} (array : Tensor R) shapes :
  shape array = [length (data array)] →
  (total_size shapes ≤ length (data array) →
   array_1d_arrays_nd array shapes = Ok (pieces (data array) 0 shapes)) ∧
  (length (data array) < total_size shapes →
   array_1d_arrays_nd array shapes = Raise ValueError).
Proof.
  intros H1d. rewrite array_1d_arrays_nd_eq by done. split; intros Hlen.
  - by rewrite decide_True.
  - rewrite decide_False; [done|lia].
Qed.

Lemma array_1d_arrays_nd_outcome_witness :
  let flat := mkTensor [5] [1; 2; 3; 4; 5]%Z in
  array_1d_arrays_nd flat [[2]; [1; 2]] =
    Ok [mkTensor [2] [1; 2]%Z; mkTensor [1; 2] [3; 4]%Z] ∧
  array_1d_arrays_nd flat [[2; 2]; [2]] = Raise ValueError.
Proof.
  intros flat. split.
  - apply (array_1d_arrays_nd_outcome flat [[2]; [1; 2]] eq_refl). vm_compute. lia.
  - apply (array_1d_arrays_nd_outcome flat [[2; 2]; [2]] eq_refl). vm_compute. lia.
Defined.

(** X14: what [array_1d_arrays_nd] returns has the requested shapes, in
    order; every returned array holds as many elements as its shape says;
    and the returned elements, one array after the other, are the leading
    elements of the flat array. *)
Theorem array_1d_arrays_nd_result {R} (array : Tensor R) shapes arrays :
  array_1d_arrays_nd array shapes = Ok arrays →
  shape <$> arrays = shapes ∧
  Forall tensor_wf arrays ∧
  concat (data <$> arrays) = take (total_size shapes) (data array).
Proof.
  intros Hrun. apply array_1d_arrays_nd_Ok_inv in Hrun as [-> Hfit].
  rewrite <- (drop_0 (data array)) at 3.
  apply (pieces_facts (data array) shapes 0). simpl. lia.
Qed.

Lemma array_1d_arrays_nd_result_witness :
  let flat := mkTensor [5] [1; 2; 3; 4; 5]%Z in
  ∃ arrays, array_1d_arrays_nd flat [[2]; [1; 2]] = Ok arrays ∧
            shape <$> arrays = [[2]; [1; 2]] ∧
            concat (data <$> arrays) = [1; 2; 3; 4]%Z.
Proof.
  intros flat. eexists. split; [reflexivity|].
  destruct (array_1d_arrays_nd_result flat [[2]; [1; 2]] _ eq_refl) as (Hs & _ & Hd).
  split; [exact Hs|exact Hd].
Defined.

Lemma arrays_nd_array_1d_nonempty {R} (arrays : list (Tensor R)) :
  arrays ≠ [] →
  arrays_nd_array_1d arrays =
  Ok (mkTensor [length (concat (data <$> arrays))] (concat (data <$> arrays))).
Proof.
  intros Hne. unfold arrays_nd_array_1d, np_concatenate.
  destruct (ndarray_flatten <$> arrays) as [|a0 rest] eqn:Hflat.
  { by apply fmap_nil_inv in Hflat. }
  rewrite <- Hflat. rewrite bool_decide_eq_true_2.
  2:{ apply Forall_fmap, Forall_forall. by intros. }
  replace (data <$> (ndarray_flatten <$> arrays)) with (data <$> arrays); [done|].
  rewrite <- list_fmap_compose. by apply list_fmap_ext.
Qed.

Lemma length_concat_data {R} (arrays : list (Tensor R)) :
  Forall tensor_wf arrays →
  length (concat (data <$> arrays)) = total_size (shape <$> arrays).
Proof.
  induction 1 as [|t arrays Ht _ IH]; [done|].
  rewrite !fmap_cons. cbn [concat]. rewrite length_app, IH, Ht. done.
Qed.

(** X15: [arrays_nd_array_1d] fails with [ValueError] on the empty list
    and otherwise returns the 1-D array of all elements in order; for
    well-formed inputs its length is the sum of the sizes of their
    shapes. *)
Theorem arrays_nd_array_1d_outcome {R} (arrays : list (Tensor R)) :
  (arrays = [] → arrays_nd_array_1d arrays = Raise ValueError) ∧
  (arrays ≠ [] →
   ∃ flat, arrays_nd_array_1d arrays = Ok flat ∧
           data flat = concat (data <$> arrays) ∧
           shape flat = [length (data flat)] ∧
           (Forall tensor_wf arrays →
            length (data flat) = total_size (shape <$> arrays))).
Proof.
  split.
  - by intros ->.
  - intros Hne. eexists. split; [by apply arrays_nd_array_1d_nonempty|].
    cbn [data shape]. split; [done|]. split; [done|]. apply length_concat_data.
Qed.

Lemma arrays_nd_array_1d_outcome_witness :
  let arrays := [mkTensor [2; 1] [1; 2]%Z; mkTensor [] [3]%Z] in
  arrays_nd_array_1d ([] : list (Tensor Z)) = Raise ValueError ∧
  ∃ flat, arrays_nd_array_1d arrays = Ok flat ∧ data flat = [1; 2; 3]%Z ∧
          length (data flat) = total_size (shape <$> arrays).
Proof.
  intros arrays. split.
  - exact (proj1 (arrays_nd_array_1d_outcome []) eq_refl).
  - destruct (proj2 (arrays_nd_array_1d_outcome arrays)) as (flat & Hrun & Hd & _ & Hlen);
      [discriminate|].
    exists flat. split; [exact Hrun|]. split; [exact Hd|].
    apply Hlen. repeat constructor.
Defined.

(** X16: splitting a 1-D array into shapes that use up exactly its
    elements and flattening the pieces again gives back the array. *)
Theorem unflatten_flatten_roundtrip {R} (array : Tensor R) shapes :
  shapes ≠ [] →
  shape array = [length (data array)] →
  total_size shapes = length (data array) →
  (let! arrays := array_1d_arrays_nd array shapes in arrays_nd_array_1d arrays)
  = Ok array.
Proof.
  intros Hne Hflat Htotal. rewrite array_1d_arrays_nd_eq by done.
  rewrite decide_True by lia. cbn [rbind].
  destruct (pieces_facts (data array) shapes 0) as (Hshapes & _ & Hdata); [simpl; lia|].
  rewrite arrays_nd_array_1d_nonempty.
  2:{ intros Hnil. rewrite Hnil in Hshapes. simpl in Hshapes. by subst. }
  rewrite Hdata, Htotal. rewrite drop_0, firstn_all.
  destruct array as [s d]. simpl in *. by rewrite Hflat.
Qed.

Lemma unflatten_flatten_roundtrip_witness :
  let flat := mkTensor [5] [1; 2; 3; 4; 5]%Z in
  (let! arrays := array_1d_arrays_nd flat [[2]; [1; 3]] in arrays_nd_array_1d arrays)
  = Ok flat.
Proof.
  intros flat.
  apply (unflatten_flatten_roundtrip flat [[2]; [1; 3]]); [discriminate|reflexivity|reflexivity].
Defined.

(** ** The output node *)

(** X17: after [done] on a graph under construction, the node under the
    last key of the node dictionary, whose activation [prop] returns as
    the output, has no consumer. *)
Theorem Graph_done_last_is_sink {R} (g : Graph R) h fuel h' g' k n :
  graph_wf g h →
  no_children h (dict_values (nodes g)) →
  Graph_done fuel g h = Ok (h', g') →
  last (nodes g') = Some (k, n) →
  node_children h' n = [] ∧ k = node_name h' n.
Proof.
  intros Hwf Hno Hrun Hlast.
  destruct (Graph_done_Ok_inv g h fuel h' g' Hwf Hrun)
    as (ps & internal & Hup & Hsort & Hnodes & Hperm & _ & _ & _ & _).
  pose proof (graph_wf_NoDup g h Hwf) as Hnd.
  destruct (topological_sort_ordered fuel h' _ ps internal Hnd
              (update_children_complete g h h' Hwf Hup) Hsort)
    as (_ & _ & Hbefore & _).
  rewrite Hnodes, fmap_last in Hlast.
  destruct (last (ps ++ internal)) as [m|] eqn:Hm; [|discriminate].
  inversion Hlast; subst k n; clear Hlast. split; [|done].
  destruct (node_children h' m) as [|c cs] eqn:Hch; [done|exfalso].
  assert (Hmin : m ∈ dict_values (nodes g)).
  { rewrite <- Hperm. apply list_elem_of_lookup. exists (pred (length (ps ++ internal))).
    by rewrite <- last_lookup. }
  destruct (update_children_sound _ h h' Hno Hup m c Hmin) as [Hc Hpar].
  { rewrite Hch. left. }
  assert (Hcin : c ∈ ps ++ internal) by (by rewrite Hperm).
  apply list_elem_of_lookup in Hcin as [j Hj].
  destruct (Hbefore c m Hc Hpar Hmin j Hj) as (i & Hi & Hmi).
  assert (NoDup (ps ++ internal)) as Hnd' by (by rewrite Hperm).
  rewrite last_lookup in Hm.
  pose proof (NoDup_lookup _ _ _ _ Hnd' Hmi Hm) as ->.
  apply lookup_lt_Some in Hj. lia.
Qed.

Lemma Graph_done_last_is_sink_witness :
  ∃ h' g', Graph_done 4 diamond_graph diamond_heap = Ok (h', g') ∧
           last (nodes g') = Some ("D", 3) ∧ node_children h' 3 = [].
Proof.
  do 2 eexists.
  match goal with
  | |- ?run = Ok (?h, ?g) ∧ _ =>
      assert (Hrun : run = Ok (h, g)) by (vm_compute; reflexivity)
  end.
  split; [exact Hrun|]. split; [reflexivity|].
  assert (Hwf : graph_wf diamond_graph diamond_heap) by by_evaluation.
  assert (Hno : no_children diamond_heap (dict_values (nodes diamond_graph)))
    by by_evaluation.
  exact (proj1 (Graph_done_last_is_sink diamond_graph diamond_heap 4 _ _ "D" 3
                  Hwf Hno Hrun eq_refl)).
Defined.

Lemma occurrences_perm c l1 l2 : l1 ≡ₚ l2 → occurrences c l1 = occurrences c l2.
Proof.
  intros Hperm. unfold occurrences.
  by apply (proj1 (Permutation_count_occ Nat.eq_dec l1 l2) Hperm).
Qed.

(** X18: [done] is not idempotent.  Running it a second time appends
    every consumer to the children of its parents once more: each consumer
    then stands twice as often among the children of each node. *)
Theorem Graph_done_twice {R} (g : Graph R) h fuel1 fuel2 h1 g1 h2 g2 :
  graph_wf g h →
  no_children h (dict_values (nodes g)) →
  Graph_done fuel1 g h = Ok (h1, g1) →
  Graph_done fuel2 g1 h1 = Ok (h2, g2) →
  ∀ p c, p ∈ dict_values (nodes g) →
         occurrences c (node_children h2 p) = 2 * occurrences c (node_children h1 p).
Proof.
  intros Hwf Hno Hrun1 Hrun2 p c Hp.
  destruct (Graph_done_Ok_inv g h fuel1 h1 g1 Hwf Hrun1)
    as (ps & internal & Hup1 & _ & Hnodes & Hperm & _ & _ & _ & _).
  unfold Graph_done in Hrun2. apply bind_Ok in Hrun2 as (h2' & Hup2 & Hrun2).
  apply bind_Ok in Hrun2 as ([ps2 internal2] & _ & Hret).
  inversion Hret; subst h2' g2; clear Hret.
  pose proof (graph_wf_alive g h p Hwf Hp) as Halive.
  destruct (update_children_facts _ _ _ Hup1) as (Hlen & Hparents & _ & Hch1).
  destruct (update_children_facts _ _ _ Hup2) as (_ & _ & _ & Hch2).
  rewrite (Hch2 p) by lia. rewrite (Hch1 p Halive).
  unfold no_children in Hno. rewrite Forall_forall in Hno. rewrite (Hno p Hp).
  rewrite !occurrences_app, !occurrences_children_added. simpl.
  rewrite Hparents.
  rewrite (occurrences_perm c (dict_values (nodes g1)) (dict_values (nodes g))).
  - lia.
  - rewrite Hnodes. by rewrite dict_values_by_name.
Qed.

Lemma Graph_done_twice_witness :
  ∃ h1 g1 h2 g2,
    Graph_done 4 diamond_graph diamond_heap = Ok (h1, g1) ∧
    Graph_done 4 g1 h1 = Ok (h2, g2) ∧
    node_children h1 0 = [1; 2] ∧
    occurrences 1 (node_children h2 0) = 2 * occurrences 1 (node_children h1 0).
Proof.
  do 4 eexists.
  match goal with
  | |- ?run = Ok (?h, ?g) ∧ _ =>
      assert (Hrun1 : run = Ok (h, g)) by (vm_compute; reflexivity)
  end.
  split; [exact Hrun1|].
  match goal with
  | |- ?run = Ok (?h, ?g) ∧ _ =>
      assert (Hrun2 : run = Ok (h, g)) by (vm_compute; reflexivity)
  end.
  split; [exact Hrun2|]. split; [reflexivity|].
  assert (Hwf : graph_wf diamond_graph diamond_heap) by by_evaluation.
  assert (Hno : no_children diamond_heap (dict_values (nodes diamond_graph)))
    by by_evaluation.
  apply (Graph_done_twice diamond_graph diamond_heap 4 4 _ _ _ _ Hwf Hno Hrun1 Hrun2 0 1).
  by_evaluation.
Defined.

(** ** The flattened forward function *)

Section ForwardFlattenedFacts.
Context {R : Type} `{!Scalar R}.

Lemma record_shape_loop h (pt : dict (Tensor R)) ps : ∀ ts (acc : dict (list nat)),
  mapM (λ n, dict_get (node_name h n) pt) ps = Some ts →
  NoDup (dict_keys acc ++ (node_name h <$> ps)) →
  foldM (record_shape h pt) acc ps = Ok (acc ++ zip (node_name h <$> ps) (shape <$> ts)).
Proof.
  induction ps as [|n ps IH]; intros ts acc Hts Hnd.
  - apply mapM_Some in Hts. apply Forall2_nil_inv_l in Hts as ->.
    simpl. by rewrite app_nil_r.
  - apply mapM_Some in Hts. apply Forall2_cons_inv_l in Hts as (t & ts' & Ht & Hts & ->).
    apply mapM_Some in Hts. cbn [foldM]. unfold record_shape at 1. rewrite Ht.
    cbn [or_raise rbind]. rewrite fmap_cons in Hnd.
    rewrite dict_set_fresh.
    2:{ apply NoDup_app in Hnd as (_ & Hdisj & _). intros Hin.
        apply (Hdisj _ Hin). left. }
    rewrite (IH ts').
    + rewrite <- app_assoc. reflexivity.
    + done.
    + unfold dict_keys in *. rewrite fmap_app. simpl. rewrite <- app_assoc. simpl.
      eapply NoDup_Permutation_proper; [|exact Hnd].
      apply Permutation_app_head. done.
Qed.

Lemma table_of_loop (entries : dict (Tensor R)) : ∀ acc : dict (Tensor R),
  NoDup (dict_keys acc ++ dict_keys entries) →
  foldl (λ table entry, dict_set entry.1 entry.2 table) acc entries = acc ++ entries.
Proof.
  induction entries as [|[k t] entries IH]; intros acc Hnd.
  - simpl. by rewrite app_nil_r.
  - cbn [foldl]. simpl. rewrite dict_set_fresh.
    2:{ apply NoDup_app in Hnd as (_ & Hdisj & _). intros Hin.
        apply (Hdisj _ Hin). left. }
    rewrite IH.
    + by rewrite <- app_assoc.
    + unfold dict_keys in *. rewrite fmap_app. simpl. rewrite <- app_assoc. simpl.
      eapply NoDup_Permutation_proper; [|exact Hnd].
      apply Permutation_app_head. done.
Qed.

Lemma split_of_flattened (ts : list (Tensor R)) :
  Forall tensor_wf ts →
  array_1d_arrays_nd (mkTensor [length (concat (data <$> ts))] (concat (data <$> ts)))
                     (shape <$> ts) = Ok ts.
Proof.
  intros Hwf. unfold array_1d_arrays_nd.
  pose proof (array_1d_arrays_nd_loop ts [] [] Hwf) as Hloop.
  simpl in Hloop. by rewrite Hloop.
Qed.
End ForwardFlattenedFacts.

(** X19: the function made by [make_forward_flattened], applied to the
    parameters flattened in the order of the parameter nodes (as
    [gradient_check_graph] flattens them), runs [forward] on exactly the
    tensors of the parameter nodes, by name and in that order, and then
    demands a single-element output; entries of the table that belong to
    no parameter node are left out. *)
Theorem forward_flattened_at_parameters {R} `{!Scalar R} (g : Graph R) h cells
    (parameter_table : dict (Tensor R)) ps ts :
  parameter_nodes g = Some ps →
  ps ≠ [] →
  NoDup (node_name h <$> ps) →
  mapM (λ n, dict_get (node_name h n) parameter_table) ps = Some ts →
  Forall tensor_wf ts →
  ∃ shapes flat,
    make_forward_flattened g h parameter_table = Ok shapes ∧
    arrays_nd_array_1d ts = Ok flat ∧
    forward_flattened g h cells shapes flat =
    (let! r := Graph_forward g h cells (zip (node_name h <$> ps) ts) in check_scalar r).
Proof.
  intros Hps Hne Hnd Hts Hwf.
  assert (length ps = length ts) as Hlen
    by (apply mapM_Some in Hts; by eapply Forall2_length).
  exists (zip (node_name h <$> ps) (shape <$> ts)).
  exists (mkTensor [length (concat (data <$> ts))] (concat (data <$> ts))).
  assert (Hkeys : dict_keys (zip (node_name h <$> ps) (shape <$> ts)) = node_name h <$> ps).
  { unfold dict_keys. apply fst_zip. rewrite !length_fmap. lia. }
  assert (Hvalues : dict_values (zip (node_name h <$> ps) (shape <$> ts)) = shape <$> ts).
  { unfold dict_values. apply snd_zip. rewrite !length_fmap. lia. }
  split; [|split].
  - unfold make_forward_flattened. rewrite Hps. cbn [or_raise rbind].
    by rewrite (record_shape_loop h parameter_table ps ts []).
  - apply arrays_nd_array_1d_nonempty. intros ->.
    destruct ps; [done|discriminate].
  - unfold forward_flattened. rewrite Hvalues, Hkeys.
    rewrite split_of_flattened by done. cbn [rbind].
    unfold table_of. rewrite (table_of_loop _ []); [done|].
    simpl. unfold dict_keys. rewrite fst_zip; [done|]. rewrite length_fmap. lia.
Qed.

Lemma forward_flattened_at_parameters_witness :
  let h := [ mkNode "a" (OpValue 0) [] [2]; mkNode "b" (OpValue 1) [] [2];
             mkNode "d" OpDot [PNode 0; PNode 1] [] ] in
  let g : Graph Z := mkGraph "g" [("a", 0); ("b", 1); ("d", 2)] (Some [0; 1]) None in
  let a := mkTensor [2] [1; 2]%Z in
  let b := mkTensor [2] [10; 20]%Z in
  ∃ shapes flat,
    make_forward_flattened g h [("b", b); ("a", a)] = Ok shapes ∧
    arrays_nd_array_1d [a; b] = Ok flat ∧
    forward_flattened g h ∅ shapes flat =
    (let! r := Graph_forward g h ∅ [("a", a); ("b", b)] in check_scalar r).
Proof.
  intros h g a b.
  apply (forward_flattened_at_parameters g h ∅ [("b", b); ("a", a)] [0; 1] [a; b]).
  - reflexivity.
  - discriminate.
  - by_evaluation.
  - reflexivity.
  - repeat constructor.
Defined.

(** ** A node in several parent slots of one consumer *)

Lemma list_index_first x l i :
  list_index x l = Some i →
  l !! i = Some x ∧ ∀ j, j < i → l !! j ≠ Some x.
Proof.
  revert i. induction l as [|y l IH]; intros i Hi; [discriminate|].
  simpl in Hi. destruct (decide (x = y)) as [->|Hne].
  - inversion Hi; subst. split; [done|]. intros j Hj. lia.
  - destruct (list_index x l) as [i'|] eqn:Hl; [|discriminate].
    inversion Hi; subst. destruct (IH i' eq_refl) as [Hhit Hfirst].
    split; [done|]. intros [|j] Hj; simpl.
    + congruence.
    + apply Hfirst. lia.
Qed.

Lemma mapM_r_replicate {A B} (f : A → result B) x y k :
  f x = Ok y → mapM_r f (replicate k x) = Ok (replicate k y).
Proof.
  intros Hf. induction k as [|k IH]; simpl; [done|]. by rewrite Hf, IH.
Qed.

(** X20: when a node fills [k] parent slots of its only consumer, the
    consumer stands [k] times among its children, and [backward] gives
    the node [k] times the gradient component of the first of these
    slots: the components of the later slots are not used. *)
Theorem Graph_backward_repeated_parent {R} `{!Scalar R} (g : Graph R) h rank ot fuel gt
    n c k :
  backprop_wf h rank (dict_values (nodes g)) →
  output_table g = Some ot →
  Graph_backward fuel g h = Ok gt →
  n ∈ dict_values (nodes g) →
  node_children h n = replicate (S k) c →
  ∃ gradients i first grad,
    backward_of h ot gt c = Ok gradients ∧
    node_parents h c !! i = Some (PNode n) ∧
    (∀ j, j < i → node_parents h c !! j ≠ Some (PNode n)) ∧
    gradients !! i = Some first ∧
    reduce_add (replicate (S k) first) = Ok grad ∧
    gt !! node_name h n = Some grad.
Proof.
  intros Hwf Hot Hrun Hn Hch. unfold Graph_backward in Hrun. rewrite Hot in Hrun.
  destruct (backprop_spec h ot rank _ Hwf fuel gt Hrun) as (_ & _ & Hsum).
  destruct (Hsum n Hn) as (grad & Hgrad & Htotal); [by rewrite Hch|].
  unfold consumers_sum in Htotal. rewrite Hch in Htotal.
  apply bind_Ok in Htotal as (gs & Hgs & Htotal).
  assert (∃ first, contribution h ot gt n c = Ok first) as [first Hfirst].
  { simpl in Hgs. apply bind_Ok in Hgs as (y & Hy & _). eauto. }
  rewrite (mapM_r_replicate _ c first (S k) Hfirst) in Hgs.
  inversion Hgs; subst gs; clear Hgs.
  unfold contribution in Hfirst. apply bind_Ok in Hfirst as (gradients & Hback & Hcomp).
  unfold component_for in Hcomp. apply bind_Ok in Hcomp as (i & Hi & Hget).
  apply or_raise_Ok in Hi. apply or_raise_Ok in Hget.
  destruct (list_index_first _ _ _ Hi) as [Hslot Hearlier].
  exists gradients, i, first, grad. repeat split; done.
Qed.

Lemma Graph_backward_repeated_parent_witness :
  let h := [ mkNode "a" (OpValue 0) [] [1; 1];
             mkNode "m" OpMatMul [PNode 0; PNode 0] [] ] in
  let a := mkTensor [2; 2] [1; 2; 3; 4]%Z in
  let ot : gmap string (Tensor Z) :=
    list_to_map [("a", a); ("m", mkTensor [2; 2] [7; 10; 15; 22]%Z)] in
  let g := mkGraph "square" [("a", 0); ("m", 1)] (Some [0]) (Some ot) in
  let gt : gmap string (Tensor Z) :=
    list_to_map [("a", mkTensor [2; 2] [6; 14; 6; 14]%Z);
                 ("m", mkTensor [2; 2] [1; 1; 1; 1]%Z)] in
  Graph_backward 2 g h = Ok gt ∧
  ∃ gradients first,
    backward_of h ot gt 1 = Ok gradients ∧
    gradients !! 0 = Some first ∧
    first = mkTensor [2; 2] [3; 7; 3; 7]%Z ∧
    reduce_add [first; first] = Ok (mkTensor [2; 2] [6; 14; 6; 14]%Z).
Proof.
  intros h a ot g gt.
  assert (Hrun : Graph_backward 2 g h = Ok gt) by (vm_compute; reflexivity).
  split; [exact Hrun|].
  assert (Hwf : backprop_wf h (λ n, n) (dict_values (nodes g))) by by_evaluation.
  destruct (Graph_backward_repeated_parent g h (λ n, n) ot 2 gt 0 1 1 Hwf eq_refl Hrun)
    as (gradients & i & first & grad & Hback & Hslot & Hearlier & Hget & Hsum & Hgrad);
    [by_evaluation|reflexivity|].
  assert (i = 0) as ->.
  { destruct i as [|i]; [done|]. exfalso. apply (Hearlier 0); [lia|reflexivity]. }
  exists gradients, first. split; [exact Hback|]. split; [exact Hget|].
  assert (Hgradients : gradients = [mkTensor [2; 2] [3; 7; 3; 7]%Z;
                                    mkTensor [2; 2] [4; 4; 6; 6]%Z]).
  { vm_compute in Hback. by inversion Hback. }
  subst gradients. inversion Hget; subst first. split; [reflexivity|].
  vm_compute. reflexivity.
Defined.

(** ** gradient_check *)

Section GradientCheckFacts.
Context {R : Type} `{!Scalar R}.
Context {X : Type}.
Variable forward_func : list (Tensor R) * X → nat → result (R * (list (Tensor R) * X)).
Variable perturbation : R.
Hypothesis Hkeeps : keeps_arrays forward_func.

Lemma read_Ok (arrays : list (Tensor R)) l a : read arrays l = Ok a → arrays !! l = Some a.
Proof. apply or_raise_Ok. Qed.

(** One iteration leaves alone every array below the result array
    [fd_grad], and only makes the store longer. *)
Lemma gradient_check_step_frame parameters fd_grad arrays x i arrays' x' :
  fd_grad < length arrays →
  gradient_check_step forward_func perturbation parameters fd_grad (arrays, x) i
    = Ok (arrays', x') →
  length arrays ≤ length arrays' ∧
  ∀ l, l < fd_grad → arrays' !! l = arrays !! l.
Proof.
  intros Hfd Hstep. unfold gradient_check_step in Hstep.
  apply bind_Ok in Hstep as (cmin & _ & Hstep).
  apply bind_Ok in Hstep as (cmax & _ & Hstep).
  set (a2 := (arrays ++ [cmin]) ++ [cmax]) in *.
  set (pmin := length arrays) in *.
  set (pmax := length (arrays ++ [cmin])) in *.
  set (a4 := alter (row_update (λ v, s_add v perturbation) i) pmax
               (alter (row_update (λ v, s_sub v perturbation) i) pmin a2)) in *.
  apply bind_Ok in Hstep as ([fmax [a5 x5]] & Hmax & Hstep).
  apply bind_Ok in Hstep as ([fmin [a6 x6]] & Hmin & Hret).
  inversion Hret; subst arrays' x'; clear Hret. simpl.
  assert (Hpmax : pmax = S pmin) by (unfold pmax, pmin; rewrite length_app; simpl; lia).
  assert (Hlen4 : length a4 = S (S pmin)).
  { unfold a4, a2. rewrite !length_alter, !length_app. simpl. unfold pmin. lia. }
  destruct (Hkeeps _ _ _ _ _ _ Hmax) as [Hlen5 Hold5].
  destruct (Hkeeps _ _ _ _ _ _ Hmin) as [Hlen6 Hold6].
  split.
  - rewrite length_alter. unfold pmin in *. lia.
  - intros l Hl. rewrite list_lookup_alter_ne by lia.
    rewrite Hold6 by (unfold pmin in *; lia).
    rewrite Hold5 by (unfold pmin in *; lia).
    unfold a4, a2. rewrite !list_lookup_alter_ne by (unfold pmin in *; lia).
    rewrite !lookup_app_l; [done|lia|rewrite length_app; simpl; lia].
Qed.

Lemma gradient_check_loop_frame parameters fd_grad indices : ∀ arrays x arrays' x',
  fd_grad < length arrays →
  foldM (gradient_check_step forward_func perturbation parameters fd_grad)
        (arrays, x) indices = Ok (arrays', x') →
  length arrays ≤ length arrays' ∧
  ∀ l, l < fd_grad → arrays' !! l = arrays !! l.
Proof.
  induction indices as [|i indices IH]; intros arrays x arrays' x' Hfd Hrun.
  - inversion Hrun; subst. done.
  - cbn [foldM] in Hrun. apply bind_Ok in Hrun as ([a1 x1] & Hstep & Hrun).
    destruct (gradient_check_step_frame _ _ _ _ _ _ _ Hfd Hstep) as [Hlen1 Hold1].
    destruct (IH a1 x1 arrays' x') as [Hlen' Hold']; [lia|done|].
    split; [lia|]. intros l Hl. rewrite Hold' by done. by apply Hold1.
Qed.
End GradientCheckFacts.

(** X21: [gradient_check] never writes to an array that existed before
    the call, its [parameters] and [grad] arguments included: with a
    [forward_func] that only allocates or writes to the array it is
    given, every array alive at the call holds the same values after it;
    the perturbations go to fresh copies. *)
Theorem gradient_check_keeps_arrays {R} `{!Scalar R} {X}
    (forward_func : list (Tensor R) * X → nat → result (R * (list (Tensor R) * X)))
    arrays x parameters grad perturbation difference arrays' x' :
  keeps_arrays forward_func →
  gradient_check forward_func (arrays, x) parameters grad perturbation
    = Ok (difference, (arrays', x')) →
  length arrays ≤ length arrays' ∧
  ∀ l, l < length arrays → arrays' !! l = arrays !! l.
Proof.
  intros Hkeeps Hrun. unfold gradient_check in Hrun.
  apply bind_Ok in Hrun as (P & _ & Hrun).
  apply bind_Ok in Hrun as (G & _ & Hrun).
  destruct (decide (shape P = shape G)); [|discriminate].
  apply bind_Ok in Hrun as (n & _ & Hrun).
  apply bind_Ok in Hrun as ([a1 x1] & Hloop & Hrun).
  apply bind_Ok in Hrun as (F & _ & Hrun).
  apply bind_Ok in Hrun as (G' & _ & Hrun).
  apply bind_Ok in Hrun as (d & _ & Hret).
  inversion Hret; subst; clear Hret.
  destruct (gradient_check_loop_frame forward_func perturbation Hkeeps parameters
              (length arrays) (seq 0 n) (arrays ++ [np_zeros (shape G)]) x arrays' x')
    as [Hlen Hold]; [rewrite length_app; simpl; lia|done|].
  rewrite length_app in Hlen. simpl in Hlen. split; [lia|].
  intros l Hl. rewrite Hold by done. by apply lookup_app_l.
Qed.

Lemma sum_of_squares_forward_keeps : keeps_arrays sum_of_squares_forward.
Proof.
  intros arrays x l r arrays' x' Hrun. unfold sum_of_squares_forward in Hrun.
  apply bind_Ok in Hrun as (a & _ & Hret). inversion Hret; subst. done.
Qed.

Lemma gradient_check_keeps_arrays_witness :
  let P := mkTensor [3] [1; 2; 3]%Z in
  let G := mkTensor [3] [2; 4; 7]%Z in
  ∃ difference arrays',
    gradient_check sum_of_squares_forward ([P; G], ()) 0 1 1%Z
      = Ok (difference, (arrays', ())) ∧
    arrays' !! 0 = Some P ∧ arrays' !! 1 = Some G.
Proof.
  intros P G. do 2 eexists.
  match goal with
  | |- ?run = Ok (?d, (?a, ())) ∧ _ =>
      assert (Hrun : run = Ok (d, (a, ()))) by (vm_compute; reflexivity)
  end.
  split; [exact Hrun|].
  destruct (gradient_check_keeps_arrays sum_of_squares_forward [P; G] () 0 1 1%Z _ _ _
              sum_of_squares_forward_keeps Hrun) as [_ Hold].
  split; [exact (Hold 0 ltac:(simpl; lia))|exact (Hold 1 ltac:(simpl; lia))].
Defined.

Section GradientCheckValue.
Context {R : Type} `{!Scalar R}.
Context {X : Type}.
Variable forward_func : list (Tensor R) * X → nat → result (R * (list (Tensor R) * X)).
Variable f : Tensor R → R.
Variable perturbation : R.
Hypothesis Hkeeps : keeps_arrays forward_func.
Hypothesis Hcomputes : computes f forward_func.

(** One iteration with the parameters [P] at [parameters] and [F] in the
    result array: it returns, leaves the arrays below the result array
    alone and writes the [i]-th finite difference into the result. *)
Lemma gradient_check_step_value parameters fd_grad arrays x i P F :
  parameters < fd_grad →
  arrays !! parameters = Some P →
  arrays !! fd_grad = Some F →
  ∃ arrays' x',
    gradient_check_step forward_func perturbation parameters fd_grad (arrays, x) i
      = Ok (arrays', x') ∧
    arrays' !! fd_grad = Some (row_update (λ _, fd_component f perturbation P i) i F).
Proof.
  intros Hlt HP HF.
  assert (Hfd : fd_grad < length arrays) by (by eapply lookup_lt_Some).
  unfold gradient_check_step, read. rewrite HP. cbn [or_raise rbind].
  rewrite (lookup_app_l_Some _ _ _ _ HP). cbn [or_raise rbind].
  set (pmin := length arrays).
  set (pmax := length (arrays ++ [P])).
  set (a2 := (arrays ++ [P]) ++ [P]).
  set (a4 := alter (row_update (λ v, s_add v perturbation) i) pmax
               (alter (row_update (λ v, s_sub v perturbation) i) pmin a2)).
  assert (Hpmax : pmax = S pmin) by (unfold pmax, pmin; rewrite length_app; simpl; lia).
  assert (Hlen4 : length a4 = S (S pmin)).
  { unfold a4, a2. rewrite !length_alter, !length_app. simpl. unfold pmin. lia. }
  assert (H2min : a2 !! pmin = Some P).
  { unfold a2. rewrite lookup_app_l by (rewrite length_app; simpl; unfold pmin; lia).
    unfold pmin. rewrite lookup_app_r by lia. by rewrite Nat.sub_diag. }
  assert (H2max : a2 !! pmax = Some P).
  { unfold a2, pmax. rewrite lookup_app_r by lia. by rewrite Nat.sub_diag. }
  assert (H4max : a4 !! pmax = Some (row_update (λ v, s_add v perturbation) i P)).
  { unfold a4. rewrite list_lookup_alter_eq, list_lookup_alter_ne by lia.
    by rewrite H2max. }
  assert (H4min : a4 !! pmin = Some (row_update (λ v, s_sub v perturbation) i P)).
  { unfold a4. rewrite list_lookup_alter_ne, list_lookup_alter_eq by lia.
    by rewrite H2min. }
  assert (H4fd : a4 !! fd_grad = Some F).
  { unfold a4, a2. rewrite !list_lookup_alter_ne by (unfold pmin in *; lia).
    rewrite !lookup_app_l; [done|lia|rewrite length_app; simpl; lia]. }
  destruct (Hcomputes a4 x pmax _ H4max) as [[a5 x5] Hmax].
  rewrite Hmax. cbn [rbind].
  destruct (Hkeeps _ _ _ _ _ _ Hmax) as [Hlen5 Hold5].
  assert (H5min : a5 !! pmin = Some (row_update (λ v, s_sub v perturbation) i P)).
  { rewrite Hold5 by lia. done. }
  destruct (Hcomputes a5 x5 pmin _ H5min) as [[a6 x6] Hmin].
  rewrite Hmin. cbn [rbind].
  destruct (Hkeeps _ _ _ _ _ _ Hmin) as [Hlen6 Hold6].
  do 2 eexists. split; [reflexivity|]. simpl.
  rewrite list_lookup_alter_eq.
  rewrite Hold6 by (unfold pmin in *; lia).
  rewrite Hold5 by (unfold pmin in *; lia).
  by rewrite H4fd.
Qed.

Lemma gradient_check_loop_value parameters fd_grad P indices : ∀ arrays x F,
  parameters < fd_grad →
  arrays !! parameters = Some P →
  arrays !! fd_grad = Some F →
  ∃ arrays' x',
    foldM (gradient_check_step forward_func perturbation parameters fd_grad)
          (arrays, x) indices = Ok (arrays', x') ∧
    arrays' !! fd_grad
      = Some (foldl (λ F i, row_update (λ _, fd_component f perturbation P i) i F)
                    F indices).
Proof.
  induction indices as [|i indices IH]; intros arrays x F Hlt HP HF.
  - exists arrays, x. done.
  - destruct (gradient_check_step_value parameters fd_grad arrays x i P F Hlt HP HF)
      as (a1 & x1 & Hstep & HF1).
    assert (Hfd : fd_grad < length arrays) by (by eapply lookup_lt_Some).
    destruct (gradient_check_step_frame forward_func perturbation Hkeeps
                _ _ _ _ _ _ _ Hfd Hstep) as [_ Hold1].
    destruct (IH a1 x1 (row_update (λ _, fd_component f perturbation P i) i F) Hlt)
      as (a' & x' & Hrun & HF'); [|exact HF1|].
    { rewrite Hold1 by done. done. }
    exists a', x'. cbn [foldM foldl]. rewrite Hstep. cbn [rbind]. done.
Qed.
End GradientCheckValue.

(** The run of [gradient_check] in terms of the loop body: the loop
    fills the array [fd_gradient], row by row. *)
Lemma gradient_check_runs {R} `{!Scalar R} {X}
    (forward_func : list (Tensor R) * X → nat → result (R * (list (Tensor R) * X)))
    (f : Tensor R → R) arrays x parameters grad perturbation P G n :
  keeps_arrays forward_func →
  computes f forward_func →
  arrays !! parameters = Some P →
  arrays !! grad = Some G →
  shape P = shape G →
  head (shape G) = Some n →
  ∃ w',
    gradient_check forward_func (arrays, x) parameters grad perturbation
      = (let! difference := relative_error (fd_gradient f perturbation P n) G in
         Ok (difference, w')).
Proof.
  intros Hkeeps Hcomputes HP HG Hshape Hn.
  assert (Hp : parameters < length arrays) by (by eapply lookup_lt_Some).
  assert (Hg : grad < length arrays) by (by eapply lookup_lt_Some).
  destruct (gradient_check_loop_value forward_func f perturbation Hkeeps Hcomputes
              parameters (length arrays) P (seq 0 n)
              (arrays ++ [np_zeros (shape G)]) x (np_zeros (shape G)) Hp)
    as (a' & x' & Hrun & HF).
  { by apply lookup_app_l_Some. }
  { rewrite lookup_app_r by lia. by rewrite Nat.sub_diag. }
  assert (Hfd : length arrays < length (arrays ++ [np_zeros (shape G)]))
    by (rewrite length_app; simpl; lia).
  destruct (gradient_check_loop_frame forward_func perturbation Hkeeps
              parameters (length arrays) (seq 0 n) _ _ _ _ Hfd Hrun) as [_ Hold].
  exists (a', x').
  unfold gradient_check, read. rewrite HP, HG. cbn [or_raise rbind].
  rewrite decide_True by done. rewrite Hn. cbn [or_raise rbind].
  rewrite Hrun. cbn [rbind fst]. rewrite HF. cbn [or_raise rbind].
  rewrite Hold by done. rewrite (lookup_app_l_Some _ _ _ _ HG). cbn [or_raise rbind].
  unfold fd_gradient. rewrite Hshape. done.
Qed.

Lemma sum_of_squares_forward_computes : computes sum_of_squares sum_of_squares_forward.
Proof.
  intros arrays x l a Ha. exists (arrays, x).
  unfold sum_of_squares_forward, read. simpl. rewrite Ha. done.
Qed.

(** ** operations.py on the numpy model *)

Section NumpyFacts.
Context {R : Type} `{!Scalar R}.
Implicit Types (A B grad : Tensor R) (d : list R).

Lemma broadcast_rev_same (r : list nat) : broadcast_rev r r = Some r.
Proof.
  induction r as [|a r IH]; [done|].
  cbn [broadcast_rev]. rewrite decide_True by done. cbn. rewrite IH. done.
Qed.

Lemma broadcast_shapes_same (s : list nat) : broadcast_shapes s s = Some s.
Proof.
  unfold broadcast_shapes. rewrite broadcast_rev_same. cbn.
  by rewrite reverse_involutive.
Qed.

Lemma pad_shape_same (s : list nat) : pad_shape (length s) s = s.
Proof. unfold pad_shape. by rewrite Nat.sub_diag. Qed.

Lemma length_chunks n : ∀ sz d, length (chunks n sz d) = n.
Proof. induction n as [|n IH]; intros sz d; cbn [chunks length]; [done|]. by rewrite IH. Qed.

Lemma concat_chunks n : ∀ sz d, length d = n * sz → concat (chunks n sz d) = d.
Proof.
  induction n as [|n IH]; intros sz d Hlen; cbn [chunks concat].
  - destruct d; [done|]. simpl in Hlen. lia.
  - rewrite IH by (rewrite length_drop; lia). apply take_drop.
Qed.

Lemma chunks_sizes n : ∀ sz d, length d = n * sz →
  Forall (λ c, length c = sz) (chunks n sz d).
Proof.
  induction n as [|n IH]; intros sz d Hlen; cbn [chunks]; constructor.
  - rewrite length_take. lia.
  - apply IH. rewrite length_drop. lia.
Qed.

Lemma broadcast_to_data_same (s : list nat) : ∀ d,
  length d = size_from_shape s → broadcast_to_data s s d = d.
Proof.
  induction s as [|a s IH]; intros d Hlen; cbn [broadcast_to_data]; [done|].
  rewrite size_from_shape_cons in Hlen. rewrite decide_True by done.
  rewrite <- (concat_chunks a (size_from_shape s) d Hlen) at 2. f_equal.
  pose proof (chunks_sizes a (size_from_shape s) d Hlen) as Hsizes.
  induction Hsizes as [|c cs Hc _ IHcs]; [done|].
  cbn [fmap list_fmap]. rewrite IH by done. f_equal. exact IHcs.
Qed.

(** Arrays of the same shape combine element by element. *)
Lemma np_elementwise_same (f : R → R → R) A B :
  tensor_wf A → tensor_wf B → shape A = shape B →
  np_elementwise f A B = Ok (mkTensor (shape A) (zip_with f (data A) (data B))).
Proof.
  intros HA HB Hshape. unfold np_elementwise. rewrite <- Hshape.
  rewrite broadcast_shapes_same, pad_shape_same.
  rewrite broadcast_to_data_same by done.
  rewrite broadcast_to_data_same by (by rewrite Hshape). done.
Qed.

Lemma length_concat_fmap_const {T U : Type} (g : T → list U) (c : nat) (l : list T) :
  (∀ x, length (g x) = c) → length (concat (g <$> l)) = length l * c.
Proof.
  intros Hg. induction l as [|x l IH]; [done|].
  cbn [fmap list_fmap concat length]. rewrite length_app, Hg.
  change (list_fmap T (list U) g l) with (g <$> l). rewrite IH. lia.
Qed.

Lemma length_matrix_product n m k (a b : list R) :
  length (matrix_product n m k a b) = n * k.
Proof.
  unfold matrix_product.
  rewrite (length_concat_fmap_const _ k).
  - by rewrite length_chunks.
  - intros row. by rewrite length_fmap, length_chunks.
Qed.

(** The product of two matrices has the rows of the first and the
    columns of the second. *)
Lemma np_matmul_2d A B n m k :
  shape A = [n; m] → shape B = [m; k] →
  ∃ C, np_matmul A B = Ok C ∧ shape C = [n; k] ∧ tensor_wf C.
Proof.
  intros HA HB. unfold np_matmul. rewrite HA, HB.
  cbn [split_matrix length Nat.sub take drop].
  rewrite decide_True by done.
  change (broadcast_shapes [] []) with (Some (@nil nat)).
  cbn [length app pad_shape]. eexists. split; [reflexivity|]. split; [done|].
  unfold tensor_wf. cbn [shape data].
  change (size_from_shape []) with 1. cbn [chunks zip_with concat].
  rewrite app_nil_r, length_matrix_product.
  unfold size_from_shape. simpl. lia.
Qed.

Lemma np_matmul_2d_mismatch A B n m m' k :
  shape A = [n; m] → shape B = [m'; k] → m ≠ m' →
  np_matmul A B = Raise ValueError.
Proof.
  intros HA HB Hne. unfold np_matmul. rewrite HA, HB.
  cbn [split_matrix length Nat.sub take drop].
  by rewrite decide_False.
Qed.

Lemma np_dot_2d A B n m k :
  shape A = [n; m] → shape B = [m; k] →
  ∃ C, np_dot A B = Ok C ∧ shape C = [n; k] ∧ tensor_wf C.
Proof.
  intros HA HB. unfold np_dot. rewrite HA, HB.
  cbn [split_matrix length Nat.sub take drop last default].
  rewrite decide_True by done.
  eexists. split; [reflexivity|]. split; [done|].
  unfold tensor_wf. cbn [shape data app].
  rewrite (length_concat_fmap_const _ k).
  - rewrite length_chunks. unfold size_from_shape. simpl. lia.
  - intros row. rewrite (length_concat_fmap_const _ k).
    + rewrite length_chunks. change (size_from_shape []) with 1. lia.
    + intros mat. rewrite length_matrix_product. lia.
Qed.

Lemma np_T_2d A n m : shape A = [n; m] → shape (np_T A) = [m; n].
Proof. intros HA. unfold np_T. cbn [shape]. by rewrite HA. Qed.
End NumpyFacts.

(** X23: for matrices [A] of shape (n, m) and [B] of shape (m, k),
    [OpMatMul] and [OpDot] compute an output of shape (n, k), and for a
    gradient of that shape their [backward] returns two gradients with
    the shapes of [A] and of [B], in this order, each holding as many
    elements as its shape says. *)
Theorem matrix_op_shapes {R} `{!Scalar R} (op : Op) (cells : gmap nat (Tensor R))
    (A B grad : Tensor R) (n m k : nat) :
  op = OpMatMul ∨ op = OpDot →
  shape A = [n; m] → shape B = [m; k] → shape grad = [n; k] →
  (∃ C, op_forward cells op [A; B] = Ok C ∧ shape C = [n; k] ∧ tensor_wf C) ∧
  ∃ dA dB, op_backward op grad [A; B] = Ok [dA; dB] ∧
    shape dA = shape A ∧ shape dB = shape B ∧ tensor_wf dA ∧ tensor_wf dB.
Proof.
  intros Hop HA HB Hgrad.
  pose proof (np_T_2d A n m HA) as HAT. pose proof (np_T_2d B m k HB) as HBT.
  destruct Hop as [-> | ->]; cbn [op_forward op_backward].
  - split; [by apply (np_matmul_2d A B n m k)|].
    destruct (np_matmul_2d grad (np_T B) n k m Hgrad HBT) as (dA & -> & HdA & HwA).
    destruct (np_matmul_2d (np_T A) grad m n k HAT Hgrad) as (dB & -> & HdB & HwB).
    exists dA, dB. cbn [rbind]. rewrite HA, HB. done.
  - split; [by apply (np_dot_2d A B n m k)|].
    destruct (np_dot_2d grad (np_T B) n k m Hgrad HBT) as (dA & -> & HdA & HwA).
    destruct (np_dot_2d (np_T A) grad m n k HAT Hgrad) as (dB & -> & HdB & HwB).
    exists dA, dB. cbn [rbind]. rewrite HA, HB. done.
Qed.

Lemma matrix_op_shapes_witness :
  let A := mkTensor [1; 2] [1; 2]%Z in
  let B := mkTensor [2; 3] [1; 2; 3; 4; 5; 6]%Z in
  let grad := mkTensor [1; 3] [1; 1; 1]%Z in
  op_forward ∅ OpMatMul [A; B] = Ok (mkTensor [1; 3] [9; 12; 15]%Z) ∧
  ∃ dA dB, op_backward OpMatMul grad [A; B] = Ok [dA; dB] ∧
    shape dA = [1; 2] ∧ shape dB = [2; 3] ∧ tensor_wf dA ∧ tensor_wf dB.
Proof.
  intros A B grad. split; [vm_compute; reflexivity|].
  exact (proj2 (matrix_op_shapes OpMatMul ∅ A B grad 1 2 3
                  (or_introl eq_refl) eq_refl eq_refl eq_refl)).
Defined.

(** X24: [OpSum] on a matrix [A] of shape (n, m) and a vector [B] of
    shape (m,) adds [B] to every row of [A]; its [backward] returns the
    incoming gradient itself for both inputs, so the gradient returned
    for [B] is the whole (n, m) gradient: it has the shape of the output,
    not the shape (m,) of [B]. *)
Theorem OpSum_bias {R} `{!Scalar R} (cells : gmap nat (Tensor R))
    (A B grad : Tensor R) (n m : nat) :
  tensor_wf A → tensor_wf B →
  shape A = [n; m] → shape B = [m] → shape grad = [n; m] →
  op_forward cells OpSum [A; B]
    = Ok (mkTensor [n; m] (zip_with s_add (data A) (concat (replicate n (data B))))) ∧
  op_backward OpSum grad [A; B] = Ok [grad; grad] ∧
  shape grad ≠ shape B.
Proof.
  intros HwA HwB HA HB Hgrad. split.
  - cbn [op_forward]. unfold np_add, np_elementwise. rewrite HA, HB.
    assert (Hbs : broadcast_shapes [n; m] [m] = Some [n; m]).
    { unfold broadcast_shapes. change (reverse [n; m]) with [m; n].
      change (reverse [m]) with [m]. cbn [broadcast_rev].
      rewrite decide_True by done. done. }
    rewrite Hbs. change (pad_shape (length [n; m]) [n; m]) with [n; m].
    change (pad_shape (length [n; m]) [m]) with [1; m].
    rewrite broadcast_to_data_same by (by rewrite <- HA).
    f_equal. f_equal. f_equal.
    assert (HlenB : length (data B) = m).
    { rewrite HwB, HB. unfold size_from_shape. simpl. lia. }
    assert (Hrow : broadcast_to_data [m] [m] (take m (data B)) = data B).
    { rewrite <- HlenB, firstn_all, HlenB. apply broadcast_to_data_same.
      rewrite HlenB. unfold size_from_shape. simpl. lia. }
    cbn [broadcast_to_data]. change (size_from_shape [m]) with (1 * m).
    rewrite Nat.mul_1_l. cbn [chunks fmap list_fmap].
    cbn [broadcast_to_data] in Hrow. rewrite Hrow.
    destruct (decide (1 = n)) as [<-|_]; cbn [concat replicate];
      rewrite ?app_nil_r; done.
  - split; [reflexivity|]. rewrite HB, Hgrad. intros Heq. discriminate Heq.
Qed.

Lemma OpSum_bias_witness :
  let A := mkTensor [2; 2] [1; 2; 3; 4]%Z in
  let B := mkTensor [2] [10; 20]%Z in
  let grad := mkTensor [2; 2] [5; 6; 7; 8]%Z in
  op_forward ∅ OpSum [A; B] = Ok (mkTensor [2; 2] [11; 22; 13; 24]%Z) ∧
  op_backward OpSum grad [A; B] = Ok [grad; grad] ∧
  shape grad ≠ shape B.
Proof.
  intros A B grad.
  exact (OpSum_bias ∅ A B grad 2 2 eq_refl eq_refl eq_refl eq_refl eq_refl).
Defined.

(** X25: [OpSigmoid.backward] on an input [A] and a gradient of the same
    shape returns one gradient of that shape, whose elements are
    [sig * (1 - sig) * g] for [sig] the logistic function of the element
    of [A] and [g] the element of the gradient. *)
Theorem OpSigmoid_backward_elementwise {R} `{!Scalar R} (A grad : Tensor R) :
  tensor_wf A → tensor_wf grad → shape grad = shape A →
  let logistic a := s_div s_one (s_add s_one (s_exp (s_neg a))) in
  op_backward OpSigmoid grad [A]
    = Ok [mkTensor (shape A)
            (zip_with (λ a g, s_mul (s_mul (logistic a) (s_sub s_one (logistic a))) g)
                      (data A) (data grad))].
Proof.
  intros HwA Hwg Hshape logistic. cbn [op_backward].
  assert (Hsig : sigmoid A = mkTensor (shape A) (logistic <$> data A)).
  { unfold sigmoid, np_map. cbn [shape data]. f_equal.
    rewrite <- !list_fmap_compose. done. }
  rewrite Hsig. unfold np_mul.
  rewrite np_elementwise_same;
    [|unfold tensor_wf; cbn [shape data]; by rewrite length_fmap
     |unfold tensor_wf, np_map; cbn [shape data]; by rewrite !length_fmap
     |done].
  cbn [rbind shape data np_map].
  rewrite np_elementwise_same;
    [|unfold tensor_wf; cbn [shape data];
      rewrite length_zip_with, !length_fmap; unfold tensor_wf in HwA; lia
     |done|done].
  cbn [rbind shape data]. do 3 f_equal.
  generalize (data grad). clear.
  induction (data A) as [|a l IH]; intros [|g gs]; [done..|].
  cbn. f_equal. apply IH.
Qed.

Lemma OpSigmoid_backward_elementwise_witness :
  let A := mkTensor [2] [0; 1]%Z in
  let grad := mkTensor [2] [5; 7]%Z in
  ∃ dA, op_backward OpSigmoid grad [A] = Ok [dA] ∧ shape dA = [2] ∧ length (data dA) = 2.
Proof.
  intros A grad. eexists. split.
  - exact (OpSigmoid_backward_elementwise A grad eq_refl eq_refl eq_refl).
  - split; reflexivity.
Defined.

(** ** The value of gradient_check *)

Section GradientCheckFormula.
Context {R : Type} `{!Scalar R}.

Lemma segment_map (f : R → R) (d : list R) : ∀ a row,
  take a d ++ (f <$> take row (drop a d)) ++ drop (a + row) d
  = imap (λ j v, if decide (a ≤ j < a + row) then f v else v) d.
Proof.
  induction d as [|e d IH]; intros a row.
  - by rewrite take_nil, !drop_nil, take_nil.
  - destruct a as [|a].
    + destruct row as [|row]; cbn [take drop app fmap list_fmap imap Nat.add].
      * rewrite decide_False by lia. f_equal.
        etransitivity; [|etransitivity; [exact (IH 0 0)|]]; [done|].
        apply imap_ext. intros j v _. cbn.
        by rewrite !decide_False by lia.
      * rewrite decide_True by lia. f_equal.
        etransitivity; [|etransitivity; [exact (IH 0 row)|]]; [done|].
        apply imap_ext. intros j v _. cbn.
        destruct (decide (0 ≤ j < row)); [rewrite decide_True by lia|rewrite decide_False by lia];
          done.
    + cbn [take drop app imap Nat.add]. rewrite decide_False by lia. f_equal.
      rewrite IH. apply imap_ext. intros j v _. cbn.
      destruct (decide (a ≤ j < a + row)); [rewrite decide_True by lia|rewrite decide_False by lia];
        done.
Qed.

(** [a[i] = f(a[i])] changes the elements of row [i], those at the
    positions from [i * row] up to [i * row + row]. *)
Lemma row_update_elements (f : R → R) i (a : Tensor R) :
  let row := size_from_shape (tail (shape a)) in
  row_update f i a
  = mkTensor (shape a)
      (imap (λ j v, if decide (i * row ≤ j < i * row + row) then f v else v) (data a)).
Proof. intros row. unfold row_update. fold row. by rewrite segment_map. Qed.

(** Writing the values [v 0], [v 1], ... one after the other into the
    first [k] rows. *)
Lemma fill_loop (v : nat → R) (s : list nat) (z : list R) k :
  let row := size_from_shape (tail s) in
  k * row ≤ length z →
  foldl (λ F i, row_update (λ _, v i) i F) (mkTensor s z) (seq 0 k)
  = mkTensor s (concat ((λ i, replicate row (v i)) <$> seq 0 k) ++ drop (k * row) z).
Proof.
  intros row. induction k as [|k IH]; intros Hk.
  - cbn. by rewrite drop_0.
  - rewrite seq_S, foldl_app, IH by lia. cbn [foldl Nat.add].
    unfold row_update. cbn [shape data]. fold row. f_equal.
    set (pre := concat ((λ i, replicate row (v i)) <$> seq 0 k)).
    assert (Hpre : length pre = k * row).
    { unfold pre. rewrite (length_concat_fmap_const _ row), length_seq; [done|].
      intros i. apply length_replicate. }
    rewrite <- Hpre at 1 2 3.
    rewrite take_app_length, drop_app_length.
    rewrite drop_app_add', drop_drop by done.
    rewrite fmap_app, concat_app. cbn [fmap list_fmap concat].
    rewrite app_nil_r, <- app_assoc. f_equal. f_equal.
    + assert (Hrun : length (take row (drop (k * row) z)) = row)
        by (rewrite length_take, length_drop; lia).
      revert Hrun. generalize (take row (drop (k * row) z)). generalize row.
      clear. intros r l. revert r.
      induction l as [|e l IH]; intros [|r] Hl; try done.
      cbn. f_equal. apply IH. simpl in Hl. lia.
    + f_equal. lia.
Qed.
End GradientCheckFormula.

(** X22: with a [forward_func] that returns [f] of the array it is given
    and writes to no other array, [gradient_check] on parameters [P] and
    a gradient [G] of the same shape (n, ...) returns
    norm(F - G) / (norm(F) + norm(G)), where norm is the root of the sum
    of the squares and every element of row [i < n] of [F] is
    (f(P+) - f(P-)) / (2 * perturbation), for [P+] and [P-] the array [P]
    with the perturbation added to, respectively subtracted from, every
    element of its row [i]. *)
Theorem gradient_check_value {R} `{!Scalar R} {X}
    (forward_func : list (Tensor R) * X → nat → result (R * (list (Tensor R) * X)))
    (f : Tensor R → R) arrays x parameters grad perturbation P G n rest :
  keeps_arrays forward_func →
  computes f forward_func →
  arrays !! parameters = Some P →
  arrays !! grad = Some G →
  shape P = n :: rest → shape G = n :: rest → tensor_wf G →
  let row := size_from_shape rest in
  let moved (op : R → R → R) i :=
    mkTensor (n :: rest)
      (imap (λ j v, if decide (i * row ≤ j < i * row + row)
                    then op v perturbation else v) (data P)) in
  let fd i :=
    s_div (s_sub (f (moved s_add i)) (f (moved s_sub i)))
          (s_mul (s_add s_one s_one) perturbation) in
  let F := concat ((λ i, replicate row (fd i)) <$> seq 0 n) in
  let norm (v : list R) := s_sqrt (foldl s_add s_zero ((λ e, s_mul e e) <$> v)) in
  ∃ w',
    gradient_check forward_func (arrays, x) parameters grad perturbation
      = Ok (s_div (norm (zip_with s_sub F (data G))) (s_add (norm F) (norm (data G))), w').
Proof.
  intros Hkeeps Hcomputes HP HG HsP HsG HwG row moved fd F norm.
  destruct (gradient_check_runs forward_func f arrays x parameters grad perturbation
              P G n Hkeeps Hcomputes HP HG) as [w' Hrun].
  { by rewrite HsP, HsG. }
  { by rewrite HsG. }
  exists w'. rewrite Hrun.
  assert (Hsize : size_from_shape (n :: rest) = n * row) by apply size_from_shape_cons.
  assert (HF : fd_gradient f perturbation P n = mkTensor (n :: rest) F).
  { unfold fd_gradient, np_zeros. rewrite HsP.
    rewrite (fill_loop (fd_component f perturbation P)); cbn [tail]; fold row;
      [|rewrite length_replicate; lia].
    rewrite drop_ge by (rewrite length_replicate; lia).
    rewrite app_nil_r. f_equal. unfold F. f_equal.
    apply list_fmap_ext. intros _ i _. f_equal.
    unfold fd_component, centered_difference, two, fd, moved.
    rewrite !row_update_elements. rewrite HsP. cbn [tail]. done. }
  rewrite HF. unfold relative_error, np_sub.
  assert (HlF : length F = n * row).
  { unfold F. rewrite (length_concat_fmap_const _ row), length_seq; [done|].
    intros i. apply length_replicate. }
  rewrite np_elementwise_same; cbn [shape data];
    [|unfold tensor_wf; cbn [shape data]; lia
     |done
     |by rewrite HsG].
  cbn [rbind]. unfold np_linalg_norm. cbn [data]. done.
Qed.

Lemma gradient_check_value_witness :
  let P := mkTensor [2; 2] [1; 2; 3; 4]%Z in
  let G := mkTensor [2; 2] [0; 0; 0; 0]%Z in
  ∃ w',
    gradient_check sum_of_squares_forward ([P; G], ()) 0 1 1%Z = Ok (1%Z, w').
Proof.
  intros P G.
  destruct (gradient_check_value sum_of_squares_forward sum_of_squares [P; G] () 0 1 1%Z
              P G 2 [2] sum_of_squares_forward_keeps sum_of_squares_forward_computes
              eq_refl eq_refl eq_refl eq_refl eq_refl) as [w' Hrun].
  exists w'. exact Hrun.
Defined.

(** ** Graph.forward and the entries of the assignment *)

Section AssignOutcome.
Context {R : Type} `{!Scalar R}.
Variable nodes : dict node_id.
Variable h : heap.

(** The assignment loop gets past entries that name [OpValue] nodes. *)
Lemma assign_loop_returns (pt : dict (Tensor R)) : ∀ cells : gmap nat (Tensor R),
  Forall (λ entry, is_Some (cell_of nodes h entry.1)) pt →
  ∃ cells', foldM (assign_parameter nodes h) cells pt = Ok cells'.
Proof.
  induction pt as [|[k t] pt IH]; intros cells Hall; [by eexists|].
  apply Forall_cons in Hall as [[c Hc] Hall]. cbn [foldM].
  unfold cell_of in Hc. cbn [fst] in Hc.
  unfold assign_parameter at 1.
  destruct (dict_get k nodes) as [n|]; [|discriminate]. cbn in Hc. cbn [or_raise rbind].
  destruct (node_op h n); try discriminate. cbn [op_assign rbind]. apply IH, Hall.
Qed.

(** The first entry that names no [OpValue] node decides how the loop
    fails. *)
Lemma assign_loop_first_bad (pre post : dict (Tensor R)) k t
    (cells : gmap nat (Tensor R)) :
  Forall (λ entry, is_Some (cell_of nodes h entry.1)) pre →
  (dict_get k nodes = None →
   foldM (assign_parameter nodes h) cells (pre ++ (k, t) :: post) = Raise KeyError) ∧
  (∀ n, dict_get k nodes = Some n → (∀ c, node_op h n ≠ OpValue c) →
   foldM (assign_parameter nodes h) cells (pre ++ (k, t) :: post) = Raise AttributeError).
Proof.
  intros Hpre. destruct (assign_loop_returns pre cells Hpre) as [cells1 Hrun].
  rewrite foldM_app, Hrun. cbn [rbind foldM]. unfold assign_parameter at 1 3.
  split.
  - intros ->. done.
  - intros n -> Hop. cbn [or_raise rbind].
    destruct (node_op h n) as [c| | | |]; [by destruct (Hop c)|done..].
Qed.

(** An entry the loop got past was stored in the operation of the node
    it names, and is still there unless a later entry reached the same
    operation. *)
Lemma assign_loop_entry (pre post : dict (Tensor R)) k t
    (cells cells' : gmap nat (Tensor R)) :
  foldM (assign_parameter nodes h) cells (pre ++ (k, t) :: post) = Ok cells' →
  ∃ n c, dict_get k nodes = Some n ∧ node_op h n = OpValue c ∧
         (Forall (λ entry, cell_of nodes h entry.1 ≠ Some c) post → cells' !! c = Some t).
Proof.
  rewrite foldM_app. intros Hrun.
  apply bind_Ok in Hrun as (cells1 & _ & Hrun). cbn [foldM] in Hrun.
  apply bind_Ok in Hrun as (cells2 & Hstep & Hpost).
  apply assign_parameter_Ok in Hstep as (c & Hc & ->).
  unfold cell_of in Hc. destruct (dict_get k nodes) as [n|] eqn:Hn; [|discriminate].
  cbn in Hc. destruct (node_op h n) as [c'| | | |] eqn:Hop; try discriminate.
  inversion Hc; subst c'. exists n, c. split; [done|]. split; [done|].
  intros Hlater. rewrite (assign_loop_other nodes h post _ _ c Hpost).
  - apply lookup_insert_eq.
  - intros Hin. apply list_elem_of_fmap in Hin as (k' & Hk' & Hin).
    unfold dict_keys in Hin. apply list_elem_of_fmap in Hin as (entry & -> & Hentry).
    rewrite Forall_forall in Hlater. by apply (Hlater entry Hentry).
Qed.
End AssignOutcome.

(** C5 (amended): forward fails with [MissingParameter] if and only if
    some parameter node's name has no value in the supplied assignment.
    When every parameter node is supplied, the entries of the assignment
    beyond the parameter nodes are not ignored: [prop] assigns the
    entries in order, each to the operation of the node it names.  The
    first entry that does not name an [OpValue] node makes forward fail,
    with [KeyError] when it names no node of the graph and with
    [AttributeError] when it names a node whose operation is not an
    [OpValue]; and whenever forward returns, every entry names an
    [OpValue] node and its tensor is in that operation, unless a later
    entry reached the same operation. *)
Theorem Graph_forward_parameters {R} `{!Scalar R} (g : Graph R) h cells
    (parameter_table : dict (Tensor R)) ps :
  parameter_nodes g = Some ps →
  (Graph_forward g h cells parameter_table = Raise MissingParameter ↔
   ∃ i, i ∈ ps ∧ node_name h i ∉ dict_keys parameter_table) ∧
  (Forall (λ i, node_name h i ∈ dict_keys parameter_table) ps →
   (∀ pre k t post,
      parameter_table = pre ++ (k, t) :: post →
      Forall (λ entry, is_Some (cell_of (nodes g) h entry.1)) pre →
      (dict_get k (nodes g) = None →
       Graph_forward g h cells parameter_table = Raise KeyError) ∧
      (∀ n, dict_get k (nodes g) = Some n → (∀ c, node_op h n ≠ OpValue c) →
       Graph_forward g h cells parameter_table = Raise AttributeError)) ∧
   (∀ output output_table g' cells',
      Graph_forward g h cells parameter_table = Ok (output, output_table, g', cells') →
      ∀ pre k t post,
        parameter_table = pre ++ (k, t) :: post →
        ∃ n c, dict_get k (nodes g) = Some n ∧ node_op h n = OpValue c ∧
               (Forall (λ entry, cell_of (nodes g) h entry.1 ≠ Some c) post →
                cells' !! c = Some t))).
Proof.
  intros Hps. unfold Graph_forward. rewrite Hps. cbn [or_raise rbind].
  rewrite check_parameters_outcome.
  destruct (decide (Forall _ ps)) as [Hall|Hnot]; cbn [rbind].
  - split.
    + split.
      * intros Hmiss. pose proof (prop_raises (nodes g) h cells parameter_table) as Hr.
        destruct (prop (nodes g) h cells parameter_table) as [[[o ot] c]|e|];
          simpl in *; try discriminate. inversion Hmiss; subst. done.
      * intros (i & Hi & Hmiss). rewrite Forall_forall in Hall.
        destruct (Hmiss (Hall i Hi)).
    + intros _. split.
      * intros pre k t post -> Hpre. unfold prop.
        destruct (assign_loop_first_bad (nodes g) h pre post k t cells Hpre)
          as [Hkey Hattr].
        split.
        -- intros Hnone. by rewrite (Hkey Hnone).
        -- intros n Hn Hop. by rewrite (Hattr n Hn Hop).
      * intros output output_table g' cells' Hrun pre k t post ->.
        apply bind_Ok in Hrun as ([[o ot] c1] & Hprop & Hret).
        inversion Hret; subst; clear Hret. unfold prop in Hprop.
        apply bind_Ok in Hprop as (cells1 & Hassign & Hprop).
        apply bind_Ok in Hprop as (ot1 & _ & Hprop).
        apply bind_Ok in Hprop as (last_key & _ & Hprop).
        apply bind_Ok in Hprop as (out & _ & Hret).
        inversion Hret; subst; clear Hret.
        by apply (assign_loop_entry (nodes g) h pre post k t cells).
  - split; [|done]. split; [|done]. intros _.
    apply not_Forall_Exists in Hnot; [|apply _].
    apply Exists_exists in Hnot as (i & Hi & Hmiss). eauto.
Qed.

Lemma Graph_forward_parameters_witness :
  let h := [ mkNode "a" (OpValue 0) [] [2]; mkNode "b" (OpValue 1) [] [2];
             mkNode "s" OpSum [PNode 0; PNode 1] [] ] in
  let order := [("a", 0); ("b", 1); ("s", 2)] in
  let g : Graph Z := mkGraph "g" order (Some [0; 1]) None in
  let A := mkTensor [2] [1; 2]%Z in
  let B := mkTensor [2] [10; 20]%Z in
  let ot : gmap string (Tensor Z) :=
    list_to_map [("a", A); ("b", B); ("s", mkTensor [2] [11; 22]%Z)] in
  let cells' : gmap nat (Tensor Z) := list_to_map [(0, A); (1, B)] in
  Graph_forward g h ∅ [("a", A)] = Raise MissingParameter ∧
  Graph_forward g h ∅ [("a", A); ("b", B); ("extra", A)] = Raise KeyError ∧
  Graph_forward g h ∅ [("a", A); ("b", B); ("s", A); ("extra", A)] = Raise AttributeError ∧
  Graph_forward g h ∅ [("b", B); ("a", A)]
    = Ok (mkTensor [2] [11; 22]%Z, ot, mkGraph "g" order (Some [0; 1]) (Some ot), cells') ∧
  cells' !! 0 = Some A ∧ cells' !! 1 = Some B.
Proof.
  intros h order g A B ot cells'.
  assert (Hrun : Graph_forward g h ∅ [("b", B); ("a", A)]
                 = Ok (mkTensor [2] [11; 22]%Z, ot,
                       mkGraph "g" order (Some [0; 1]) (Some ot), cells'))
    by (vm_compute; reflexivity).
  pose proof (Graph_forward_parameters g h ∅ [("a", A)] [0; 1] eq_refl) as [Hmiss _].
  pose proof (Graph_forward_parameters g h ∅ [("a", A); ("b", B); ("extra", A)] [0; 1]
                eq_refl) as [_ Hextra].
  pose proof (Graph_forward_parameters g h ∅ [("a", A); ("b", B); ("s", A); ("extra", A)]
                [0; 1] eq_refl) as [_ Hinner].
  pose proof (Graph_forward_parameters g h ∅ [("b", B); ("a", A)] [0; 1] eq_refl)
    as [_ Hgood].
  split; [|split; [|split; [|split; [exact Hrun|]]]].
  - apply Hmiss. exists 1. split; [by_evaluation|by_evaluation].
  - destruct Hextra as [Hbad _]; [by_evaluation|].
    destruct (Hbad [("a", A); ("b", B)] "extra" A [] eq_refl) as [Hkey _];
      [by_evaluation|].
    apply Hkey. reflexivity.
  - destruct Hinner as [Hbad _]; [by_evaluation|].
    destruct (Hbad [("a", A); ("b", B)] "s" A [("extra", A)] eq_refl) as [_ Hattr];
      [by_evaluation|].
    apply (Hattr 2); [reflexivity|]. intros c Hc. discriminate Hc.
  - destruct Hgood as [_ Hentries]; [by_evaluation|].
    destruct (Hentries _ _ _ _ Hrun [("b", B)] "a" A [] eq_refl)
      as (n0 & c0 & Hn0 & Hc0 & Ha).
    destruct (Hentries _ _ _ _ Hrun [] "b" B [("a", A)] eq_refl)
      as (n1 & c1 & Hn1 & Hc1 & Hb).
    assert (n0 = 0) as -> by (vm_compute in Hn0; by inversion Hn0).
    assert (c0 = 0) as -> by (vm_compute in Hc0; by inversion Hc0).
    assert (n1 = 1) as -> by (vm_compute in Hn1; by inversion Hn1).
    assert (c1 = 1) as -> by (vm_compute in Hc1; by inversion Hc1).
    split; [apply Ha; constructor|apply Hb; by_evaluation].
Defined.

(** ** The gradient of a node as the sum over its consumers *)

Section GradientSumFacts.
Context {R : Type} `{!Scalar R}.










Variable h : heap.
Variable ot : gmap string (Tensor R).
Variable rank : node_id → nat.
Variable ns : list node_id.
Hypothesis Hwf : backprop_wf h rank ns.

End GradientSumFacts.



